(** * Patch Promotion Engine: lifecycle state machine, evidence diff engine
      and synthetic snapshot generator.

    A shallow embedding of [app/models.py], [app/state.py],
    [app/services/diff.py] and [app/services/synthetic_data.py].

    Python code that reads or writes an object, draws random numbers or
    raises is embedded in a state-and-exception monad: a computation takes
    the mutable state and returns an outcome (a value or a raised
    exception) together with the state as it is at that point.  A raise
    does not roll the state back, exactly as in Python. *)

From Stdlib Require Import ZArith Ascii String Floats Uint63.
From stdpp Require Import base option list list_numbers gmap strings pretty.

Local Open Scope string_scope.
Local Open Scope list_scope.
Local Open Scope Z_scope.

(** ** Python effects *)

Module Py.

Inductive Exn : Type :=
| ValueError (msg : string)
| OverflowError (msg : string)
| IndexError (msg : string).

Inductive Outcome (A : Type) : Type :=
| Returned (a : A)
| Raised (e : Exn).
Arguments Returned {A} a.
Arguments Raised {A} e.

Definition M (St A : Type) : Type := St → Outcome A * St.

Definition raise {St A} (e : Exn) : M St A := λ s, (Raised e, s).
Definition gets {St A} (f : St → A) : M St A := λ s, (Returned (f s), s).
Definition modify {St} (f : St → St) : M St unit := λ s, (Returned tt, f s).

(** [for x in xs: body(x)]; the loop stops at the first raise. *)
Fixpoint for_each {St A} (xs : list A) (body : A → M St unit) : M St unit :=
  match xs with
  | [] => λ s, (Returned tt, s)
  | x :: xs' =>
      λ s, match body x s with
           | (Returned _, s') => for_each xs' body s'
           | (Raised e, s') => (Raised e, s')
           end
  end.

End Py.

Import Py.

#[global] Instance M_ret {St} : MRet (M St) := λ A a s, (Returned a, s).
#[global] Instance M_bind {St} : MBind (M St) := λ A B f m s,
  match m s with
  | (Returned a, s') => f a s'
  | (Raised e, s') => (Raised e, s')
  end.

(** ** app/models.py *)

Inductive Environment : Type := DEV | STAGE | PROD.
Inductive SnapshotType : Type := BEFORE | AFTER.
Inductive Severity : Type := CRITICAL | HIGH | MEDIUM | LOW.

#[global] Instance Environment_eq_dec : EqDecision Environment.
Proof. solve_decision. Defined.
#[global] Instance SnapshotType_eq_dec : EqDecision SnapshotType.
Proof. solve_decision. Defined.
#[global] Instance Severity_eq_dec : EqDecision Severity.
Proof. solve_decision. Defined.

(** [Environment.value] *)
Definition Environment_value (e : Environment) : string :=
  match e with DEV => "DEV" | STAGE => "STAGE" | PROD => "PROD" end.

(** The columns of [patch_events] (the two timestamps and the patch date
    play no part in the engine and are left out).  [current_state_code] is
    an attribute of a Python object: it can be [None] before the row's
    default is applied, hence the option. *)
Record PatchEvent : Type := {
  event_id : Z;
  service_id : Z;
  environment : Environment;
  ami_id : string;
  notes : option string;
  dev_evidence_available : bool;
  stage_cr_summary : option string;
  prod_cr_summary : option string;
  current_state_code : option string
}.

(** [event.current_state_code = code] *)
Definition set_current_state_code (c : string) (e : PatchEvent) : PatchEvent :=
  {| event_id := event_id e;
     service_id := service_id e;
     environment := environment e;
     ami_id := ami_id e;
     notes := notes e;
     dev_evidence_available := dev_evidence_available e;
     stage_cr_summary := stage_cr_summary e;
     prod_cr_summary := prod_cr_summary e;
     current_state_code := Some c |}.

Record ScanSnapshot : Type := {
  snapshot_id : Z;
  patch_event_id : Z;
  snapshot_type : SnapshotType
}.

Record Vulnerability : Type := {
  vulnerability_id : option Z;
  scan_snapshot_id : Z;
  synthetic_id : string;
  cve : option string;
  plugin_id : option string;
  severity : Severity;
  host : string;
  description : option string
}.

#[global] Instance ScanSnapshot_eq_dec : EqDecision ScanSnapshot.
Proof. solve_decision. Defined.
#[global] Instance Vulnerability_eq_dec : EqDecision Vulnerability.
Proof. solve_decision. Defined.

(** ** app/state.py *)

Module State.

Definition DEV_EVIDENCE_CAPTURED : string := "DEV_EVIDENCE_CAPTURED".
Definition DEV_VERIFIED : string := "DEV_VERIFIED".
Definition STAGE_CR_READY : string := "STAGE_CR_READY".
Definition STAGE_PATCHED : string := "STAGE_PATCHED".
Definition PROD_CR_READY : string := "PROD_CR_READY".
Definition PROD_PATCHED : string := "PROD_PATCHED".
Definition CLOSED : string := "CLOSED".

(** The concrete subclasses of [PatchState]. *)
Inductive PatchState : Type :=
| DevEvidenceCapturedState
| DevVerifiedState
| StageCrReadyState
| StagePatchedState
| ProdCrReadyState
| ProdPatchedState
| ClosedState.

(** [self.code], as set by each subclass's [__init__]. *)
Definition code (self : PatchState) : string :=
  match self with
  | DevEvidenceCapturedState => DEV_EVIDENCE_CAPTURED
  | DevVerifiedState => DEV_VERIFIED
  | StageCrReadyState => STAGE_CR_READY
  | StagePatchedState => STAGE_PATCHED
  | ProdCrReadyState => PROD_CR_READY
  | ProdPatchedState => PROD_PATCHED
  | ClosedState => CLOSED
  end.

Definition _has_dev_evidence : M PatchEvent bool :=
  gets dev_evidence_available.

Definition allowed_transitions (self : PatchState) : M PatchEvent (list string) :=
  match self with
  | DevEvidenceCapturedState => mret [DEV_VERIFIED]
  | DevVerifiedState =>
      ev ← _has_dev_evidence;
      if negb ev then mret [] else mret [STAGE_CR_READY]
  | StageCrReadyState =>
      ev ← _has_dev_evidence;
      if negb ev then mret [] else mret [STAGE_PATCHED]
  | StagePatchedState =>
      ev ← _has_dev_evidence;
      if negb ev then mret [] else mret [PROD_CR_READY]
  | ProdCrReadyState =>
      ev ← _has_dev_evidence;
      if negb ev then mret [] else mret [PROD_PATCHED]
  | ProdPatchedState => mret [CLOSED]
  | ClosedState => mret []
  end.

Definition can_transition_to (self : PatchState) (target_code : string)
  : M PatchEvent bool :=
  allowed ← allowed_transitions self;
  mret (bool_decide (target_code ∈ allowed)).

Definition on_enter (self : PatchState) : M PatchEvent unit := mret tt.

(** The dict literal of [get_state_for_event]. *)
Definition mapping : gmap string PatchState :=
  <[DEV_EVIDENCE_CAPTURED := DevEvidenceCapturedState]>
  (<[DEV_VERIFIED := DevVerifiedState]>
  (<[STAGE_CR_READY := StageCrReadyState]>
  (<[STAGE_PATCHED := StagePatchedState]>
  (<[PROD_CR_READY := ProdCrReadyState]>
  (<[PROD_PATCHED := ProdPatchedState]>
  (<[CLOSED := ClosedState]> ∅)))))).

(** [code or DEV_EVIDENCE_CAPTURED]: [None] and the empty string are falsy. *)
Definition or_default (c : option string) : string :=
  match c with
  | None => DEV_EVIDENCE_CAPTURED
  | Some EmptyString => DEV_EVIDENCE_CAPTURED
  | Some s => s
  end.

Definition get_state_for_event : M PatchEvent PatchState :=
  stored ← gets current_state_code;
  let state_code := or_default stored in
  mret (default DevEvidenceCapturedState (mapping !! state_code)).

Definition close_message : string :=
  "Cannot close patch event unless PROD is patched.".

(** ["Transition from {0} to {1} is not allowed.".format(current, target)] *)
Definition not_allowed_message (current target : string) : string :=
  "Transition from " +:+ current +:+ " to " +:+ target +:+ " is not allowed.".

Definition transition_patch_event (target_code : string) : M PatchEvent unit :=
  current_state ← get_state_for_event;
  stored ← gets current_state_code;
  if bool_decide (target_code = CLOSED) && bool_decide (stored ≠ Some PROD_PATCHED)
  then raise (ValueError close_message)
  else
    ok ← can_transition_to current_state target_code;
    if negb ok
    then raise (ValueError (not_allowed_message (code current_state) target_code))
    else
      modify (set_current_state_code target_code);;
      on_enter current_state.

End State.

(** ** app/services/diff.py *)

Module Diff.

(** The members of the [Severity] enum, in declaration order. *)
Definition Severity_members : list Severity := [CRITICAL; HIGH; MEDIUM; LOW].

Definition Severity_index (s : Severity) : nat :=
  match s with CRITICAL => 0 | HIGH => 1 | MEDIUM => 2 | LOW => 3 end%nat.

Definition Severity_of_index (n : nat) : option Severity := Severity_members !! n.

#[global] Program Instance Severity_countable : Countable Severity :=
  inj_countable Severity_index Severity_of_index _.
Next Obligation. by intros []. Qed.

Definition compute_fixed_vulnerabilities
    (before_vulnerabilities after_vulnerabilities : list Vulnerability)
  : list Vulnerability :=
  let after_ids : gset string :=
    list_to_set (synthetic_id <$> after_vulnerabilities) in
  filter (λ v, synthetic_id v ∉ after_ids) before_vulnerabilities.

(** [collections.Counter(iterable)]: one increment per element. *)
Definition Counter (xs : list Severity) : gmap Severity nat :=
  foldl (λ c x, <[x := S (default 0%nat (c !! x))]> c) ∅ xs.

(** [{severity: counter.get(severity, 0) for severity in Severity}] *)
Definition count_by_severity (vulnerabilities : list Vulnerability)
  : gmap Severity nat :=
  let counter := Counter (severity <$> vulnerabilities) in
  list_to_map ((λ s, (s, default 0%nat (counter !! s))) <$> Severity_members).

End Diff.

(** ** app/services/synthetic_data.py *)

Module SyntheticData.

(** The session's view of the two tables the generator touches, with the
    next primary keys the database hands out. *)
Record Session : Type := {
  snapshots : list ScanSnapshot;
  vulnerabilities : list Vulnerability;
  next_snapshot_id : Z;
  next_vulnerability_id : Z
}.

(** The generator's state: the database session and the draws that the
    global [random] module will produce, in order. *)
Record World : Type := {
  db : Session;
  random : list Z
}.

Definition with_db (f : Session → Session) (w : World) : World :=
  {| db := f (db w); random := random w |}.

(** *** The [random] module *)

(** [random._randbelow(n)]: the next draw, reduced to [0 <= r < n]; a
    source that has run out of draws gives 0. *)
Definition randbelow (n : Z) : M World Z := λ w,
  match random w with
  | [] => (Returned 0, w)
  | d :: rest => (Returned (d `mod` n), {| db := db w; random := rest |})
  end.

Definition randint (a b : Z) : M World Z :=
  if bool_decide (b < a)
  then raise (ValueError "empty range for randrange()")
  else r ← randbelow (b - a + 1); mret (a + r).

Definition choice {A} (seq : list A) : M World A :=
  r ← randbelow (Z.of_nat (length seq));
  match seq !! Z.to_nat r with
  | Some x => mret x
  | None => raise (IndexError "list index out of range")
  end.

(** Selection without replacement from a pool of the remaining items. *)
Fixpoint sample_pool {A} (pool : list A) (k : nat) : M World (list A) :=
  match k with
  | O => mret []
  | S k' =>
      j ← randbelow (Z.of_nat (length pool));
      match pool !! Z.to_nat j with
      | Some x => rest ← sample_pool (delete (Z.to_nat j) pool) k'; mret (x :: rest)
      | None => raise (IndexError "list index out of range")
      end
  end.

Definition sample {A} (population : list A) (k : Z) : M World (list A) :=
  if bool_decide (0 ≤ k ≤ Z.of_nat (length population))
  then sample_pool population (Z.to_nat k)
  else raise (ValueError "Sample larger than population or is negative").

(** *** Numbers and formatting *)

(** [float(n)] for a list length (below [2^63]). *)
Definition float_of_int (n : Z) : float := PrimFloat.of_uint63 (Uint63.of_Z n).

(** [int(x)]: truncation toward zero; raises on NaN and the infinities. *)
Definition int_of_float {St} (x : float) : M St Z :=
  match Prim2SF x with
  | S754_zero _ => mret 0
  | S754_infinity _ =>
      raise (OverflowError "cannot convert float infinity to integer")
  | S754_nan => raise (ValueError "cannot convert float NaN to integer")
  | S754_finite s m e =>
      let a := if bool_decide (0 ≤ e) then Z.pos m * 2 ^ e
               else Z.pos m `div` 2 ^ (- e) in
      mret (if s then - a else a)
  end.

(** [s.zfill(width)] for a string of digits. *)
Definition zfill (width : nat) (s : string) : string :=
  String.concat "" (replicate (width - String.length s) "0") +:+ s.

(** [f"{n:0{width}d}"] *)
Definition format_d (width : nat) (n : Z) : string :=
  if bool_decide (n < 0) then "-" +:+ zfill (width - 1) (pretty (Z.abs n))
  else zfill width (pretty n).

Definition lower_ascii (c : ascii) : ascii :=
  let n := nat_of_ascii c in
  if bool_decide (65 ≤ n ≤ 90)%nat then ascii_of_nat (n + 32) else c.

Fixpoint lower (s : string) : string :=
  match s with
  | EmptyString => EmptyString
  | String c s' => String (lower_ascii c) (lower s')
  end.

(** *** The session *)

Definition snapshots_of (pid : Z) (ty : SnapshotType) (s : Session)
  : list ScanSnapshot :=
  filter (λ x, patch_event_id x = pid ∧ snapshot_type x = ty) (snapshots s).

(** The [snapshot.vulnerabilities] relationship. *)
Definition vulnerabilities_of (snapshot : ScanSnapshot) (s : Session)
  : list Vulnerability :=
  filter (λ v, scan_snapshot_id v = snapshot_id snapshot) (vulnerabilities s).

(** [db.delete(snapshot)]; the relationship cascades to the snapshot's
    vulnerabilities. *)
Definition db_delete (snapshot : ScanSnapshot) : M World unit :=
  modify (with_db (λ s,
    {| snapshots := filter (λ x, snapshot_id x ≠ snapshot_id snapshot) (snapshots s);
       vulnerabilities :=
         filter (λ v, scan_snapshot_id v ≠ snapshot_id snapshot) (vulnerabilities s);
       next_snapshot_id := next_snapshot_id s;
       next_vulnerability_id := next_vulnerability_id s |})).

(** [snapshot = ScanSnapshot(...); db.add(snapshot); db.flush()] *)
Definition db_add_snapshot (pid : Z) (ty : SnapshotType) : M World ScanSnapshot :=
  λ w,
    let s := db w in
    let snapshot :=
      {| snapshot_id := next_snapshot_id s;
         patch_event_id := pid;
         snapshot_type := ty |} in
    (Returned snapshot,
     with_db (λ _,
       {| snapshots := snapshots s ++ [snapshot];
          vulnerabilities := vulnerabilities s;
          next_snapshot_id := next_snapshot_id s + 1;
          next_vulnerability_id := next_vulnerability_id s |}) w).

Definition with_vulnerability_id (i : Z) (v : Vulnerability) : Vulnerability :=
  {| vulnerability_id := Some i;
     scan_snapshot_id := scan_snapshot_id v;
     synthetic_id := synthetic_id v;
     cve := cve v;
     plugin_id := plugin_id v;
     severity := severity v;
     host := host v;
     description := description v |}.

(** [db.add(vuln)]; the row gets its primary key when it is written. *)
Definition db_add (vuln : Vulnerability) : M World unit :=
  modify (with_db (λ s,
    {| snapshots := snapshots s;
       vulnerabilities :=
         vulnerabilities s ++ [with_vulnerability_id (next_vulnerability_id s) vuln];
       next_snapshot_id := next_snapshot_id s;
       next_vulnerability_id := next_vulnerability_id s + 1 |})).

(** *** The generator *)

Definition _generate_synthetic_cve : M World string :=
  year ← randint 2090 2099;
  ident ← randint 1000 99999;
  mret ("CVE-" +:+ pretty year +:+ "-" +:+ format_d 5 ident).

Definition _generate_synthetic_plugin_id : M World string :=
  n ← randint 10000 99999;
  mret ("PLUG-" +:+ pretty n).

Definition _generate_synthetic_host (environment : Environment) : M World string :=
  let env_prefix := lower (Environment_value environment) in
  index ← randint 1 9;
  mret (env_prefix +:+ "-synthetic-" +:+ format_d 2 index).

Definition _choose_severity : M World Severity :=
  choice [CRITICAL; HIGH; HIGH; MEDIUM; MEDIUM; LOW; LOW; LOW].

(** [snapshot.patch_event] is the event the snapshot was created for; it
    is passed along instead of being looked up again. *)
Definition _build_vulnerability
    (patch_event : PatchEvent) (snapshot : ScanSnapshot) (index : Z)
  : M World Vulnerability :=
  let environment := environment patch_event in
  severity ← _choose_severity;
  let synthetic_id :=
    "VULN-" +:+ format_d 4 (snapshot_id snapshot) +:+ "-" +:+ format_d 4 index in
  cve ← _generate_synthetic_cve;
  plugin_id ← _generate_synthetic_plugin_id;
  host ← _generate_synthetic_host environment;
  mret {| vulnerability_id := None;
          scan_snapshot_id := snapshot_id snapshot;
          synthetic_id := synthetic_id;
          cve := Some cve;
          plugin_id := Some plugin_id;
          severity := severity;
          host := host;
          description :=
            Some "Synthetic vulnerability used for demonstration only." |}.

Definition _delete_existing_snapshots (patch_event_id : Z) (ty : SnapshotType)
  : M World unit :=
  existing ← gets (λ w, snapshots_of patch_event_id ty (db w));
  for_each existing db_delete.

(** The loop shared by [generate_before_snapshot] and the fallback branch
    of [generate_after_snapshot]. *)
Definition populate (patch_event : PatchEvent) (snapshot : ScanSnapshot) (count : Z)
  : M World unit :=
  for_each (seqZ 1 count) (λ index,
    vuln ← _build_vulnerability patch_event snapshot index;
    db_add vuln).

Definition generate_before_snapshot
    (patch_event : PatchEvent) (vulnerability_count : Z)
  : M World ScanSnapshot :=
  _delete_existing_snapshots (event_id patch_event) BEFORE;;
  snapshot ← db_add_snapshot (event_id patch_event) BEFORE;
  populate patch_event snapshot vulnerability_count;;
  mret snapshot.

(** The copy made of a BEFORE record for the AFTER snapshot. *)
Definition carry_over (snapshot : ScanSnapshot) (before_vuln : Vulnerability)
  : Vulnerability :=
  {| vulnerability_id := None;
     scan_snapshot_id := snapshot_id snapshot;
     synthetic_id := synthetic_id before_vuln;
     cve := cve before_vuln;
     plugin_id := plugin_id before_vuln;
     severity := severity before_vuln;
     host := host before_vuln;
     description := description before_vuln |}.

Definition remaining_bounds (total : Z) (min_remaining_ratio max_remaining_ratio : float)
  : M World (Z * Z) :=
  lo ← int_of_float (float_of_int total * min_remaining_ratio)%float;
  let min_remaining := Z.max 1 lo in
  hi ← int_of_float (float_of_int total * max_remaining_ratio)%float;
  let max_remaining := Z.max min_remaining hi in
  mret (min_remaining, max_remaining).

Definition generate_after_snapshot
    (patch_event : PatchEvent) (min_remaining_ratio max_remaining_ratio : float)
  : M World ScanSnapshot :=
  _delete_existing_snapshots (event_id patch_event) AFTER;;
  before_snapshot ← gets (λ w, head (snapshots_of (event_id patch_event) BEFORE (db w)));
  before_vulns ← gets (λ w,
    match before_snapshot with
    | Some b => vulnerabilities_of b (db w)
    | None => []
    end);
  if bool_decide (before_snapshot = None) || bool_decide (before_vulns = [])
  then
    let fallback_count := 10 in
    snapshot ← db_add_snapshot (event_id patch_event) AFTER;
    populate patch_event snapshot fallback_count;;
    mret snapshot
  else
    let total := Z.of_nat (length before_vulns) in
    '(min_remaining, max_remaining) ←
      remaining_bounds total min_remaining_ratio max_remaining_ratio;
    remaining_count ← randint min_remaining max_remaining;
    remaining_vulns ← sample before_vulns remaining_count;
    snapshot ← db_add_snapshot (event_id patch_event) AFTER;
    for_each remaining_vulns (λ before_vuln, db_add (carry_over snapshot before_vuln));;
    mret snapshot.

End SyntheticData.

(** ** app/services/diff.py: splitting snapshots by tag *)

Module DiffSplit.

(** A [ScanSnapshot] object as [extract_before_after_vulnerabilities] reads
    it: its row and what its [vulnerabilities] relationship holds. *)
Record SnapshotObject : Type := {
  row : ScanSnapshot;
  loaded_vulnerabilities : list Vulnerability
}.

Definition SnapshotType_index (ty : SnapshotType) : nat :=
  match ty with BEFORE => 0 | AFTER => 1 end%nat.

Definition SnapshotType_of_index (n : nat) : option SnapshotType :=
  [BEFORE; AFTER] !! n.

#[global] Program Instance SnapshotType_countable : Countable SnapshotType :=
  inj_countable SnapshotType_index SnapshotType_of_index _.
Next Obligation. by intros []. Qed.

Definition extract_before_after_vulnerabilities (snapshots : list SnapshotObject)
  : gmap SnapshotType (list Vulnerability) :=
  foldl
    (λ result snapshot,
       let ty := snapshot_type (row snapshot) in
       match result !! ty with
       | Some bucket => <[ty := bucket ++ loaded_vulnerabilities snapshot]> result
       | None => result
       end)
    (<[BEFORE := []]> (<[AFTER := []]> ∅))
    snapshots.

End DiffSplit.

(** ** app/services/cr_text.py *)

Module CrText.
Import SyntheticData.

(** [Severity.value] *)
Definition Severity_value (s : Severity) : string :=
  match s with
  | CRITICAL => "CRITICAL" | HIGH => "HIGH" | MEDIUM => "MEDIUM" | LOW => "LOW"
  end.

Definition is_upper (c : ascii) : bool :=
  bool_decide (65 ≤ nat_of_ascii c ≤ 90)%nat.
Definition is_lower (c : ascii) : bool :=
  bool_decide (97 ≤ nat_of_ascii c ≤ 122)%nat.
Definition upper_ascii (c : ascii) : ascii :=
  if is_lower c then ascii_of_nat (nat_of_ascii c - 32) else c.

(** [str.title] on ASCII text: a letter that follows a letter is made lower
    case, any other letter upper case. *)
Fixpoint title_from (previous_is_cased : bool) (s : string) : string :=
  match s with
  | EmptyString => EmptyString
  | String c s' =>
      if is_upper c || is_lower c
      then String (if previous_is_cased then lower_ascii c else upper_ascii c)
                  (title_from true s')
      else String c (title_from false s')
  end.

Definition title (s : string) : string := title_from false s.

Definition _format_severity_counts (severity_counts : gmap Severity nat) : string :=
  let parts :=
    (λ severity,
       title (Severity_value severity) +:+ ": "
       +:+ pretty (default 0%nat (severity_counts !! severity)))
    <$> [CRITICAL; HIGH; MEDIUM; LOW] in
  String.concat ", " parts.

(** A [datetime.date]; formatted into text by [isoformat]. *)
Record Date : Type := { year : Z; month : Z; day : Z }.

Definition isoformat (d : Date) : string :=
  format_d 4 (year d) +:+ "-" +:+ format_d 2 (month d) +:+ "-" +:+ format_d 2 (day d).

(** The line separator of ["\n".join(lines)]. *)
Definition newline : string := String (ascii_of_nat 10) EmptyString.

(** [service_name] is [patch_event.service.name] and [patch_date] the
    event's [patch_date] column, both loaded by the caller. *)
Definition build_stage_cr_text
    (service_name : string) (patch_date : Date) (patch_event : PatchEvent)
    (fixed_vulnerabilities : list Vulnerability)
    (severity_counts : gmap Severity nat) : string :=
  let fixed_list := fixed_vulnerabilities in
  let total_fixed := length fixed_list in
  let severity_summary := _format_severity_counts severity_counts in
  let lines :=
    [ "Service: " +:+ service_name;
      "Environment promotion: DEV -> STAGE";
      "AMI ID: " +:+ ami_id patch_event;
      "DEV patch date: " +:+ isoformat patch_date;
      "";
      "Total fixed vulnerabilities in DEV: " +:+ pretty total_fixed;
      "Breakdown by severity: " +:+ severity_summary;
      "";
      "Summary:";
      "This change promotes a synthetic AMI patch from DEV to "
      +:+ "STAGE. The DEV run demonstrated remediation of the "
      +:+ "vulnerabilities listed above.";
      "";
      "Note: This summary is generated from synthetic, "
      +:+ "non-production data and does not reflect any real "
      +:+ "systems, scans, or vulnerabilities." ] in
  String.concat newline lines.

Definition build_prod_cr_text
    (service_name : string) (patch_event : PatchEvent)
    (fixed_vulnerabilities : list Vulnerability)
    (severity_counts : gmap Severity nat) : string :=
  let fixed_list := fixed_vulnerabilities in
  let total_fixed := length fixed_list in
  let severity_summary := _format_severity_counts severity_counts in
  let lines :=
    [ "Service: " +:+ service_name;
      "Environment promotion: STAGE -> PROD";
      "AMI ID: " +:+ ami_id patch_event;
      "Current lifecycle state: " +:+ default "None" (current_state_code patch_event);
      "";
      "Total fixed vulnerabilities validated in DEV: " +:+ pretty total_fixed;
      "Breakdown by severity: " +:+ severity_summary;
      "";
      "Summary:";
      "This change promotes a synthetic AMI patch from STAGE to "
      +:+ "PROD, based on DEV evidence that the vulnerabilities above "
      +:+ "were remediated.";
      "";
      "Note: This summary is generated from synthetic, "
      +:+ "non-production data and does not reflect any real "
      +:+ "systems, scans, or vulnerabilities." ] in
  String.concat newline lines.

End CrText.

(** ** app/web/routes.py: the handlers of the patch-event pages

    A handler is a function of the application state; the HTML template and
    the redirect URL are left out, the context and the message they carry
    are kept.  The session commits at the end of a handler that succeeds;
    when an exception escapes a handler the session is closed without a
    commit, so the stored state is the one the handler started from. *)

Module Routes.
Import State Diff DiffSplit SyntheticData CrText.

Record Service : Type := { service_key : Z; name : string }.

(** A row of [patch_events]: the columns of [PatchEvent] and the patch date. *)
Record PatchEventRow : Type := {
  event : PatchEvent;
  patch_date : Date
}.

Record App : Type := {
  world : World;
  services : list Service;
  patch_events : list PatchEventRow
}.

(** What can escape a handler. *)
Inductive Crash : Type :=
| Core (e : Exn)
| AttributeError (msg : string)
| KeyError (key : SnapshotType).

Inductive Response : Type :=
| RedirectResponse (message : string)
| HTTPException (status_code : Z) (detail : string)
| InternalServerError (crash : Crash).

Definition with_event (e : PatchEvent) (r : PatchEventRow) : PatchEventRow :=
  {| event := e; patch_date := patch_date r |}.

Definition set_dev_evidence_available (b : bool) (e : PatchEvent) : PatchEvent :=
  {| event_id := event_id e;
     service_id := service_id e;
     environment := environment e;
     ami_id := ami_id e;
     notes := notes e;
     dev_evidence_available := b;
     stage_cr_summary := stage_cr_summary e;
     prod_cr_summary := prod_cr_summary e;
     current_state_code := current_state_code e |}.

Definition set_stage_cr_summary (text : string) (e : PatchEvent) : PatchEvent :=
  {| event_id := event_id e;
     service_id := service_id e;
     environment := environment e;
     ami_id := ami_id e;
     notes := notes e;
     dev_evidence_available := dev_evidence_available e;
     stage_cr_summary := Some text;
     prod_cr_summary := prod_cr_summary e;
     current_state_code := current_state_code e |}.

Definition set_prod_cr_summary (text : string) (e : PatchEvent) : PatchEvent :=
  {| event_id := event_id e;
     service_id := service_id e;
     environment := environment e;
     ami_id := ami_id e;
     notes := notes e;
     dev_evidence_available := dev_evidence_available e;
     stage_cr_summary := stage_cr_summary e;
     prod_cr_summary := Some text;
     current_state_code := current_state_code e |}.

(** [db.query(PatchEvent).filter(PatchEvent.id == patch_event_id).first()] *)
Definition find_patch_event (patch_event_id : Z) (app : App) : option PatchEventRow :=
  head (filter (λ r, event_id (event r) = patch_event_id) (patch_events app)).

(** [db.add(patch_event); db.commit()]: the row of the event is written. *)
Definition commit_event (r : PatchEventRow) (app : App) : App :=
  {| world := world app;
     services := services app;
     patch_events :=
       (λ r', if decide (event_id (event r') = event_id (event r)) then r else r')
       <$> patch_events app |}.

Definition with_world (w : World) (app : App) : App :=
  {| world := w; services := services app; patch_events := patch_events app |}.

(** [list(patch_event.snapshots)], each with its vulnerabilities. *)
Definition snapshots_loaded (e : PatchEvent) (app : App) : list SnapshotObject :=
  (λ s, {| row := s; loaded_vulnerabilities := vulnerabilities_of s (db (world app)) |})
  <$> filter (λ s, patch_event_id s = event_id e) (snapshots (db (world app))).

(** [patch_event.service.name] *)
Definition service_name (e : PatchEvent) (app : App) : option string :=
  name <$> head (filter (λ s, service_key s = service_id e) (services app)).

Definition not_found : Response := HTTPException 404 "Patch event not found".

(** The two buckets of the event's snapshots, or the key whose lookup fails. *)
Definition split_snapshots (e : PatchEvent) (app : App)
  : Crash + list Vulnerability * list Vulnerability :=
  let split := extract_before_after_vulnerabilities (snapshots_loaded e app) in
  match split !! BEFORE with
  | None => inl (KeyError BEFORE)
  | Some before_vulns =>
      match split !! AFTER with
      | None => inl (KeyError AFTER)
      | Some after_vulns => inr (before_vulns, after_vulns)
      end
  end.

Definition generate_before (patch_event_id : Z) (app : App) : Response * App :=
  match find_patch_event patch_event_id app with
  | None => (not_found, app)
  | Some r =>
      match generate_before_snapshot (event r) 20 (world app) with
      | (Returned _, w') =>
          (RedirectResponse "Synthetic BEFORE snapshot generated with vulnerabilities.",
           with_world w' app)
      | (Raised e, w') =>
          (InternalServerError (Core e),
           with_world {| db := db (world app); random := random w' |} app)
      end
  end.

Definition generate_after (patch_event_id : Z) (app : App) : Response * App :=
  match find_patch_event patch_event_id app with
  | None => (not_found, app)
  | Some r =>
      let has_before_snapshot :=
        bool_decide
          (Exists (λ s, snapshot_type (row s) = BEFORE) (snapshots_loaded (event r) app)) in
      if negb has_before_snapshot
      then (RedirectResponse "Generate BEFORE snapshot first for this event.", app)
      else
        match generate_after_snapshot (event r) 0x1.3333333333333p-2 0x1.6666666666666p-1
                (world app) with
        | (Returned _, w') =>
            (RedirectResponse "Synthetic AFTER snapshot generated with vulnerabilities.",
             with_world w' app)
        | (Raised e, w') =>
            (InternalServerError (Core e),
             with_world {| db := db (world app); random := random w' |} app)
        end
  end.

Definition compute_evidence (patch_event_id : Z) (app : App) : Response * App :=
  match find_patch_event patch_event_id app with
  | None => (not_found, app)
  | Some r =>
      match split_snapshots (event r) app with
      | inl crash => (InternalServerError crash, app)
      | inr (before_vulns, after_vulns) =>
          if bool_decide (before_vulns = []) || bool_decide (after_vulns = [])
          then
            (RedirectResponse
               ("Cannot compute fixed vulnerabilities: synthetic BEFORE and AFTER "
                +:+ "snapshots are required."), app)
          else
            let _ := compute_fixed_vulnerabilities before_vulns after_vulns in
            let patch_event := set_dev_evidence_available true (event r) in
            (RedirectResponse "DEV evidence computed from synthetic snapshots.",
             commit_event (with_event patch_event r) app)
      end
  end.

Definition transition_state (patch_event_id : Z) (target_state : string) (app : App)
  : Response * App :=
  match find_patch_event patch_event_id app with
  | None => (not_found, app)
  | Some r =>
      match transition_patch_event target_state (event r) with
      | (Returned _, patch_event) =>
          (RedirectResponse ("State updated to " +:+ target_state +:+ "."),
           commit_event (with_event patch_event r) app)
      | (Raised (ValueError msg), _) => (RedirectResponse msg, app)
      | (Raised e, _) => (InternalServerError (Core e), app)
      end
  end.

Definition generate_stage_cr (patch_event_id : Z) (app : App) : Response * App :=
  match find_patch_event patch_event_id app with
  | None => (not_found, app)
  | Some r =>
      if negb (dev_evidence_available (event r))
      then
        (RedirectResponse
           ("DEV evidence must be computed before generating a "
            +:+ "STAGE CR summary."), app)
      else
        match split_snapshots (event r) app with
        | inl crash => (InternalServerError crash, app)
        | inr (before_vulns, after_vulns) =>
            if bool_decide (before_vulns = []) || bool_decide (after_vulns = [])
            then
              (RedirectResponse
                 ("Synthetic BEFORE and AFTER snapshots are required to build a "
                  +:+ "STAGE CR summary."), app)
            else
              let fixed_vulnerabilities :=
                compute_fixed_vulnerabilities before_vulns after_vulns in
              let severity_counts := count_by_severity fixed_vulnerabilities in
              match service_name (event r) app with
              | None =>
                  (InternalServerError
                     (AttributeError "'NoneType' object has no attribute 'name'"), app)
              | Some service =>
                  let text :=
                    build_stage_cr_text service (patch_date r) (event r)
                      fixed_vulnerabilities severity_counts in
                  (RedirectResponse
                     "STAGE CR summary generated from synthetic DEV evidence.",
                   commit_event (with_event (set_stage_cr_summary text (event r)) r) app)
              end
        end
  end.

(** The set literal of [generate_prod_cr] and of the detail page. *)
Definition prod_cr_allowed_states : gset string :=
  {[ "STAGE_PATCHED"; "PROD_CR_READY"; "PROD_PATCHED"; "CLOSED" ]}.

(** [patch_event.current_state_code in allowed_states] *)
Definition in_prod_cr_allowed_states (stored : option string) : bool :=
  match stored with
  | Some c => bool_decide (c ∈ prod_cr_allowed_states)
  | None => false
  end.

Definition generate_prod_cr (patch_event_id : Z) (app : App) : Response * App :=
  match find_patch_event patch_event_id app with
  | None => (not_found, app)
  | Some r =>
      if negb (in_prod_cr_allowed_states (current_state_code (event r)))
      then
        (RedirectResponse
           ("Patch event must be at least in STAGE_PATCHED state before "
            +:+ "generating a PROD CR summary."), app)
      else
        match split_snapshots (event r) app with
        | inl crash => (InternalServerError crash, app)
        | inr (before_vulns, after_vulns) =>
            if bool_decide (before_vulns = []) || bool_decide (after_vulns = [])
            then
              (RedirectResponse
                 ("Synthetic BEFORE and AFTER snapshots are required to build a "
                  +:+ "PROD CR summary."), app)
            else
              let fixed_vulnerabilities :=
                compute_fixed_vulnerabilities before_vulns after_vulns in
              let severity_counts := count_by_severity fixed_vulnerabilities in
              match service_name (event r) app with
              | None =>
                  (InternalServerError
                     (AttributeError "'NoneType' object has no attribute 'name'"), app)
              | Some service =>
                  let text :=
                    build_prod_cr_text service (event r)
                      fixed_vulnerabilities severity_counts in
                  (RedirectResponse "PROD CR summary generated from synthetic evidence.",
                   commit_event (with_event (set_prod_cr_summary text (event r)) r) app)
              end
        end
  end.

(** The part of the detail page's template context that is computed. *)
Record DetailContext : Type := {
  before_count : nat;
  after_count : nat;
  fixed_vulnerabilities : list Vulnerability;
  severity_counts : gmap Severity nat;
  allowed_next_states : list string;
  prod_cr_allowed : bool
}.

Definition get_patch_event_detail (patch_event_id : Z) (app : App)
  : Response + DetailContext :=
  match find_patch_event patch_event_id app with
  | None => inl not_found
  | Some r =>
      match split_snapshots (event r) app with
      | inl crash => inl (InternalServerError crash)
      | inr (before_vulns, after_vulns) =>
          let computed :=
            dev_evidence_available (event r)
            && negb (bool_decide (before_vulns = []))
            && negb (bool_decide (after_vulns = [])) in
          let fixed :=
            if computed then compute_fixed_vulnerabilities before_vulns after_vulns
            else [] in
          let counts := if computed then count_by_severity fixed else ∅ in
          match get_state_for_event (event r) with
          | (Raised e, _) => inl (InternalServerError (Core e))
          | (Returned state_obj, e1) =>
              match allowed_transitions state_obj e1 with
              | (Raised e, _) => inl (InternalServerError (Core e))
              | (Returned allowed, e2) =>
                  inr {| before_count := length before_vulns;
                         after_count := length after_vulns;
                         fixed_vulnerabilities := fixed;
                         severity_counts := counts;
                         allowed_next_states := allowed;
                         prod_cr_allowed :=
                           in_prod_cr_allowed_states (current_state_code e2) |}
              end
          end
      end
  end.

End Routes.

(** * Vocabulary of the properties *)

(** ** Lifecycle state machine *)

Module StateSpec.
Import State.

(** The promotion chain, in the order the codes are declared and linked. *)
Definition chain : list string :=
  [DEV_EVIDENCE_CAPTURED; DEV_VERIFIED; STAGE_CR_READY; STAGE_PATCHED;
   PROD_CR_READY; PROD_PATCHED; CLOSED].

Definition all_states : list PatchState :=
  [DevEvidenceCapturedState; DevVerifiedState; StageCrReadyState;
   StagePatchedState; ProdCrReadyState; ProdPatchedState; ClosedState].

(** A code lies at or after [STAGE_CR_READY] when it is one of the last
    five codes of the chain. *)
Definition at_or_after_stage_cr_ready (c : string) : Prop :=
  c ∈ drop 2 chain.

#[global] Instance at_or_after_stage_cr_ready_dec c :
  Decision (at_or_after_stage_cr_ready c).
Proof. unfold at_or_after_stage_cr_ready. apply _. Defined.

(** An event that reached PROD_PATCHED and whose evidence flag is off. *)
Definition patched_without_evidence : PatchEvent :=
  {| event_id := 1; service_id := 1; environment := PROD; ami_id := "ami-0001";
     notes := None; dev_evidence_available := false;
     stage_cr_summary := None; prod_cr_summary := None;
     current_state_code := Some PROD_PATCHED |}.

(** An event that was never given a state code. *)
Definition uncoded_event : PatchEvent :=
  {| event_id := 2; service_id := 1; environment := DEV; ami_id := "ami-0002";
     notes := None; dev_evidence_available := true;
     stage_cr_summary := None; prod_cr_summary := None;
     current_state_code := None |}.

(** The stored code is missing, empty, or none of the seven codes. *)
Definition unknown_code (c : option string) : Prop :=
  match c with
  | None => True
  | Some s => s = "" ∨ s ∉ chain
  end.

(** The attributes of an event other than its state code: a transition
    leaves every one of them as it was. *)
Definition keeps_other_attributes (e e' : PatchEvent) : Prop :=
  event_id e' = event_id e
  ∧ service_id e' = service_id e
  ∧ environment e' = environment e
  ∧ ami_id e' = ami_id e
  ∧ notes e' = notes e
  ∧ dev_evidence_available e' = dev_evidence_available e
  ∧ stage_cr_summary e' = stage_cr_summary e
  ∧ prod_cr_summary e' = prod_cr_summary e.

End StateSpec.

(** ** Evidence diff engine *)

Module DiffSpec.
Import Diff.

(** [sum(d.values())] *)
Definition sum_values (d : gmap Severity nat) : nat :=
  map_fold (λ _ n acc, (n + acc)%nat) 0%nat d.

(** The spec's reading of [computeFixed]: the BEFORE records whose id is
    not the id of any AFTER record, by a scan of the AFTER list. *)
Definition fixed_by_scan (before after : list Vulnerability) : list Vulnerability :=
  List.filter
    (λ v, negb (existsb (String.eqb (synthetic_id v)) (map synthetic_id after)))
    before.

Definition vuln (sid : string) (sev : Severity) : Vulnerability :=
  {| vulnerability_id := None; scan_snapshot_id := 1; synthetic_id := sid;
     cve := None; plugin_id := None; severity := sev;
     host := "dev-synthetic-01"; description := None |}.

(** How many elements of [xs] equal [s]. *)
Definition occurrences (s : Severity) (xs : list Severity) : nat :=
  length (filter (λ x, x = s) xs).

End DiffSpec.

(** ** Synthetic snapshot generator *)

Module SyntheticDataSpec.
Import SyntheticData.

(** Primary keys are unique and below the next key to be handed out, and
    a vulnerability refers to a key that has been handed out. *)
Definition consistent (s : Session) : Prop :=
  NoDup (snapshot_id <$> snapshots s)
  ∧ Forall (λ x, snapshot_id x < next_snapshot_id s) (snapshots s)
  ∧ Forall (λ v, scan_snapshot_id v < next_snapshot_id s) (vulnerabilities s).

(** The session once the snapshots with the given keys, and the
    vulnerabilities that refer to them, are gone. *)
Definition purge (ids : list Z) (s : Session) : Session :=
  {| snapshots := filter (λ x, snapshot_id x ∉ ids) (snapshots s);
     vulnerabilities := filter (λ v, scan_snapshot_id v ∉ ids) (vulnerabilities s);
     next_snapshot_id := next_snapshot_id s;
     next_vulnerability_id := next_vulnerability_id s |}.

Definition adds_one {A} (P : A → Vulnerability → Prop) (body : A → M World unit)
  : Prop :=
  ∀ x w, ∃ v w',
    body x w = (Returned tt, w')
    ∧ snapshots (db w') = snapshots (db w)
    ∧ next_snapshot_id (db w') = next_snapshot_id (db w)
    ∧ vulnerabilities (db w') = vulnerabilities (db w) ++ [v]
    ∧ P x v.

(** [s'] is [s] with one more snapshot, of the given event and tag, and the
    rows [new] that belong to it. *)
Definition grown (pid : Z) (ty : SnapshotType) (new : list Vulnerability)
    (s s' : Session) : Prop :=
  snapshots s' = snapshots s
                 ++ [{| snapshot_id := next_snapshot_id s;
                        patch_event_id := pid; snapshot_type := ty |}]
  ∧ vulnerabilities s' = vulnerabilities s ++ new
  ∧ next_snapshot_id s' = next_snapshot_id s + 1
  ∧ Forall (λ v, scan_snapshot_id v = next_snapshot_id s) new.

(** The six attributes that a carried-over record shares with its original. *)
Definition same_record (before_vuln v : Vulnerability) : Prop :=
  synthetic_id v = synthetic_id before_vuln
  ∧ cve v = cve before_vuln
  ∧ plugin_id v = plugin_id before_vuln
  ∧ severity v = severity before_vuln
  ∧ host v = host before_vuln
  ∧ description v = description before_vuln.

(** The branch of [generate_after_snapshot] taken when BEFORE data exists,
    from the drawing of the remaining count on. *)
Definition carry_branch (patch_event : PatchEvent)
    (before_vulns : list Vulnerability) (min_remaining max_remaining : Z)
  : M World ScanSnapshot :=
  remaining_count ← randint min_remaining max_remaining;
  remaining_vulns ← sample before_vulns remaining_count;
  snapshot ← db_add_snapshot (event_id patch_event) AFTER;
  for_each remaining_vulns (λ before_vuln, db_add (carry_over snapshot before_vuln));;
  mret snapshot.

(** The default ratios of [generate_after_snapshot]: the doubles that the
    literals [0.3] and [0.7] denote. *)
Definition default_min_remaining_ratio : float := 0x1.3333333333333p-2%float.
Definition default_max_remaining_ratio : float := 0x1.6666666666666p-1%float.

Definition empty_session : Session :=
  {| snapshots := []; vulnerabilities := [];
     next_snapshot_id := 1; next_vulnerability_id := 1 |}.

Definition an_event : PatchEvent :=
  {| event_id := 7; service_id := 1; environment := DEV; ami_id := "ami-0007";
     notes := None; dev_evidence_available := false;
     stage_cr_summary := None; prod_cr_summary := None;
     current_state_code := Some "DEV_EVIDENCE_CAPTURED" |}.

Definition fresh_world (draws : list Z) : World :=
  {| db := empty_session; random := draws |}.

#[global] Instance consistent_dec (s : Session) : Decision (consistent s).
Proof. unfold consistent. apply _. Defined.

(** A world in which [an_event] has a BEFORE snapshot of 20 vulnerabilities:
    the outcome of [generate_before_snapshot] on an empty session. *)
Definition twenty_before : World :=
  (generate_before_snapshot an_event 20 (fresh_world [4; 8; 15; 16; 23; 42])).2.

Definition the_before_snapshot : ScanSnapshot :=
  {| snapshot_id := 1; patch_event_id := 7; snapshot_type := BEFORE |}.

(** Both products [total * ratio] are numbers: neither NaN nor an infinity. *)
Definition products_finite (total : Z) (r1 r2 : float) : bool :=
  is_finite (float_of_int total * r1) && is_finite (float_of_int total * r2).

(** The two errors of [int] on a float. *)
Definition int_error (e : Exn) : Prop :=
  e = ValueError "cannot convert float NaN to integer"
  ∨ e = OverflowError "cannot convert float infinity to integer".

End SyntheticDataSpec.

(** ** Lifecycle state machine: sequences of transitions *)

Module StateSteps.
Import State StateSpec.

#[global] Instance PatchState_eq_dec : EqDecision PatchState.
Proof. solve_decision. Defined.

(** The state that [get_state_for_event] resolves an event to. *)
Definition state_of (e : PatchEvent) : PatchState :=
  default DevEvidenceCapturedState (mapping !! or_default (current_state_code e)).

(** The position of a state in the promotion chain. *)
Definition rank (st : PatchState) : nat :=
  match st with
  | DevEvidenceCapturedState => 0
  | DevVerifiedState => 1
  | StageCrReadyState => 2
  | StagePatchedState => 3
  | ProdCrReadyState => 4
  | ProdPatchedState => 5
  | ClosedState => 6
  end%nat.

(** The codes that the event's state offers to the event. *)
Definition offered (e : PatchEvent) : list string :=
  match (allowed_transitions (state_of e) e).1 with
  | Returned l => l
  | Raised _ => []
  end.

(** [for target in targets: transition_patch_event(event, target)] *)
Definition transitions (targets : list string) : M PatchEvent unit :=
  for_each targets transition_patch_event.

(** The event cannot move: it is closed, or it waits for evidence in one of
    the four guarded states. *)
Definition stuck (e : PatchEvent) : Prop :=
  current_state_code e = Some CLOSED
  ∨ (dev_evidence_available e = false
     ∧ ∃ c, c ∈ [DEV_VERIFIED; STAGE_CR_READY; STAGE_PATCHED; PROD_CR_READY]
            ∧ current_state_code e = Some c).

(** An event waiting in STAGE_PATCHED, with and without evidence. *)
Definition staged (evidence : bool) : PatchEvent :=
  {| event_id := 3; service_id := 2; environment := STAGE; ami_id := "ami-0003";
     notes := Some "second wave"; dev_evidence_available := evidence;
     stage_cr_summary := None; prod_cr_summary := None;
     current_state_code := Some STAGE_PATCHED |}.

End StateSteps.

(** ** Evidence diff engine: what is fixed and what remains *)

Module DiffParts.
Import Diff DiffSplit.

(** The identity keys of a list of records. *)
Definition ids (vs : list Vulnerability) : list string := synthetic_id <$> vs.

(** The BEFORE records that are not fixed: their key is still among the
    AFTER keys. *)
Definition still_present (before after : list Vulnerability) : list Vulnerability :=
  filter (λ v, synthetic_id v ∈ ids after) before.

(** The records of a severity. *)
Definition of_severity (s : Severity) (vs : list Vulnerability) : list Vulnerability :=
  filter (λ v, severity v = s) vs.

(** The vulnerabilities of the snapshots of one tag, in snapshot order. *)
Definition tagged (ty : SnapshotType) (snapshots : list SnapshotObject)
  : list Vulnerability :=
  concat ((λ s, if decide (snapshot_type (row s) = ty)
                then loaded_vulnerabilities s else []) <$> snapshots).

End DiffParts.

(** ** Synthetic snapshot generator: the records it writes *)

Module GeneratorShape.
Import SyntheticData SyntheticDataSpec.

(** The value of a decimal digit. *)
Definition digit_of (c : ascii) : option N :=
  let n := N_of_ascii c in
  if bool_decide (48 ≤ n ≤ 57)%N then Some (n - 48)%N else None.

(** Reading back the decimal number a string starts with. *)
Fixpoint read_number (acc : N) (s : string) : N :=
  match s with
  | EmptyString => acc
  | String c s' =>
      match digit_of c with
      | Some d => read_number (acc * 10 + d) s'
      | None => acc
      end
  end.

(** [v] is what [_build_vulnerability] makes for the record at [index] of
    [snapshot]: the key, the reserved ranges of the random parts, the host
    of the event's environment and the fixed description. *)
Definition generated (patch_event : PatchEvent) (snapshot : ScanSnapshot)
    (index : Z) (v : Vulnerability) : Prop :=
  scan_snapshot_id v = snapshot_id snapshot
  ∧ synthetic_id v
    = "VULN-" +:+ format_d 4 (snapshot_id snapshot) +:+ "-" +:+ format_d 4 index
  ∧ (∃ year ident, 2090 ≤ year ≤ 2099 ∧ 1000 ≤ ident ≤ 99999
       ∧ cve v = Some ("CVE-" +:+ pretty year +:+ "-" +:+ format_d 5 ident))
  ∧ (∃ n, 10000 ≤ n ≤ 99999 ∧ plugin_id v = Some ("PLUG-" +:+ pretty n))
  ∧ (∃ k, 1 ≤ k ≤ 9
       ∧ host v = lower (Environment_value (environment patch_event))
                  +:+ "-synthetic-" +:+ format_d 2 k)
  ∧ description v = Some "Synthetic vulnerability used for demonstration only.".

(** The session [s'] is [s] after the event's snapshots of a tag were
    replaced: the old ones and their rows are gone and, unless the
    generator stopped early, one new snapshot with rows [new] was added. *)
Definition regenerated (pid : Z) (ty : SnapshotType) (s s' : Session) : Prop :=
  let old := snapshot_id <$> snapshots_of pid ty s in
  s' = purge old s ∨ ∃ new, grown pid ty new (purge old s) s'.

(** The event has no BEFORE data: no BEFORE snapshot, or an empty one. *)
Definition no_before_data (pid : Z) (s : Session) : Prop :=
  match head (snapshots_of pid BEFORE s) with
  | None => True
  | Some b => vulnerabilities_of b s = []
  end.

End GeneratorShape.

(** ** Handlers: what they see and what they keep *)

Module RoutesSpec.
Import State StateSpec StateSteps Diff DiffSplit DiffParts.
Import SyntheticData SyntheticDataSpec CrText Routes.

(** The vulnerabilities of the event's snapshots of a tag, as a handler
    gets them from [extract_before_after_vulnerabilities]. *)
Definition bucket (ty : SnapshotType) (e : PatchEvent) (app : App)
  : list Vulnerability :=
  tagged ty (snapshots_loaded e app).

(** The event has BEFORE and AFTER vulnerabilities. *)
Definition has_evidence_data (e : PatchEvent) (app : App) : bool :=
  negb (bool_decide (bucket BEFORE e app = []))
  && negb (bool_decide (bucket AFTER e app = [])).


(** The fixed vulnerabilities of the event, as the handlers compute them. *)
Definition fixed_of (e : PatchEvent) (app : App) : list Vulnerability :=
  compute_fixed_vulnerabilities (bucket BEFORE e app) (bucket AFTER e app).

(** The answers of the two change-report handlers that stored a summary. *)
Definition stage_done : string :=
  "STAGE CR summary generated from synthetic DEV evidence.".

Definition prod_done : string :=
  "PROD CR summary generated from synthetic evidence.".

(** An application with one service and one new event. *)
Definition a_row : PatchEventRow :=
  {| event := an_event; patch_date := {| year := 2026; month := 3; day := 9 |} |}.

Definition an_app : App :=
  {| world := fresh_world [11; 5; 7; 2; 9; 4];
     services := [{| service_key := 1; name := "Nessus Manager" |}];
     patch_events := [a_row] |}.

(** The row of event 7. *)
Definition the_row (app : App) : PatchEventRow :=
  default a_row (find_patch_event 7 app).

(** [an_app] once the BEFORE and the AFTER handler ran for event 7. *)
Definition an_app_with_snapshots : App :=
  (generate_after 7 (generate_before 7 an_app).2).2.

(** ... and once the evidence was computed. *)
Definition an_app_with_evidence : App :=
  (compute_evidence 7 an_app_with_snapshots).2.

(** ... and once the event was moved, state by state, to STAGE_PATCHED. *)
Definition a_stage_patched_app : App :=
  (transition_state 7 STAGE_PATCHED
     (transition_state 7 STAGE_CR_READY
        (transition_state 7 DEV_VERIFIED an_app_with_evidence).2).2).2.

(** [an_app] where event 7 has a BEFORE snapshot without vulnerabilities. *)
Definition an_app_with_empty_before : App :=
  with_world (generate_before_snapshot an_event 0 (world an_app)).2 an_app.

End RoutesSpec.

(** * Properties *)

(** ** Lifecycle state machine *)

Module StateFacts.
Import State StateSpec.

Lemma mapping_lookup_outside s : s ∉ chain → mapping !! s = None.
Proof.
  unfold chain, mapping. intros Hs.
  repeat (rewrite not_elem_of_cons in Hs; destruct Hs as [? Hs]).
  by rewrite !lookup_insert_ne, lookup_empty.
Qed.

Lemma or_default_unknown c :
  unknown_code c → mapping !! or_default c = Some DevEvidenceCapturedState
                   ∨ mapping !! or_default c = None.
Proof.
  destruct c as [s|]; simpl; [|by left].
  intros [->|Hs]; [by left|].
  destruct s; [by left|]. right. by apply mapping_lookup_outside.
Qed.

Lemma allowed_transitions_pure st e : ∃ l, allowed_transitions st e = (Returned l, e).
Proof.
  destruct st; cbn; unfold mbind, M_bind, _has_dev_evidence, gets;
    try destruct (dev_evidence_available e); by eexists.
Qed.

Lemma get_state_for_event_unknown e :
  unknown_code (current_state_code e) →
  get_state_for_event e = (Returned DevEvidenceCapturedState, e).
Proof.
  intros Hc. unfold get_state_for_event, mbind, M_bind, gets, mret, M_ret.
  by destruct (or_default_unknown _ Hc) as [-> | ->].
Qed.

Lemma transition_patch_event_close e :
  transition_patch_event CLOSED e =
    if decide (current_state_code e = Some PROD_PATCHED)
    then (Returned tt, set_current_state_code CLOSED e)
    else (Raised (ValueError close_message), e).
Proof.
  unfold transition_patch_event, get_state_for_event,
    mbind, M_bind, gets, mret, M_ret, raise.
  destruct (decide (current_state_code e = Some PROD_PATCHED)) as [Heq|Hne].
  - rewrite Heq. reflexivity.
  - rewrite (bool_decide_eq_true_2 (CLOSED = CLOSED)) by done.
    by rewrite (bool_decide_eq_true_2 _ Hne).
Qed.

(** C1 fails at PROD_PATCHED: with the evidence flag off, the state still
    offers CLOSED, which lies after STAGE_CR_READY in the chain. *)
Lemma prod_patched_offers_closed_without_evidence :
  dev_evidence_available patched_without_evidence = false
  ∧ ProdPatchedState ∈ all_states
  ∧ allowed_transitions ProdPatchedState patched_without_evidence
    = (Returned [CLOSED], patched_without_evidence)
  ∧ CLOSED ∈ [CLOSED]
  ∧ at_or_after_stage_cr_ready CLOSED.
Proof.
  split; [done|]. split; [by vm_compute; set_solver|].
  split; [done|]. split; [set_solver|].
  unfold at_or_after_stage_cr_ready. simpl. set_solver.
Qed.

(** C1 (amended): with the evidence flag off, [allowed_transitions] returns
    [DEV_VERIFIED] for DEV_EVIDENCE_CAPTURED, [CLOSED] for PROD_PATCHED and
    the empty list for the five other states; hence for every state other
    than PROD_PATCHED the list holds no code at or after STAGE_CR_READY. *)
Theorem allowed_transitions_without_evidence (e : PatchEvent) (st : PatchState) :
  dev_evidence_available e = false →
  allowed_transitions st e =
    (Returned match st with
              | DevEvidenceCapturedState => [DEV_VERIFIED]
              | ProdPatchedState => [CLOSED]
              | _ => []
              end, e)
  ∧ (st ≠ ProdPatchedState →
     ∀ l e', allowed_transitions st e = (Returned l, e') →
             Forall (λ c, ¬ at_or_after_stage_cr_ready c) l).
Proof.
  intros Hev.
  assert (allowed_transitions st e =
    (Returned match st with
              | DevEvidenceCapturedState => [DEV_VERIFIED]
              | ProdPatchedState => [CLOSED]
              | _ => []
              end, e)) as Heq.
  { destruct st; cbn; unfold mbind, M_bind, _has_dev_evidence, gets;
      rewrite ?Hev; reflexivity. }
  split; [exact Heq|].
  intros Hst l e' Hl. rewrite Heq in Hl. inversion Hl; subst.
  destruct st; try done; try apply Forall_nil_2.
  apply Forall_singleton. unfold at_or_after_stage_cr_ready. simpl.
  intros Hin. rewrite !elem_of_cons in Hin.
  destruct Hin as [?|[?|[?|[?|[?|Hin]]]]]; try discriminate.
  by apply not_elem_of_nil in Hin.
Qed.

Lemma allowed_transitions_without_evidence_witness :
  allowed_transitions DevVerifiedState patched_without_evidence
    = (Returned [], patched_without_evidence)
  ∧ (DevVerifiedState ≠ ProdPatchedState →
     ∀ l e', allowed_transitions DevVerifiedState patched_without_evidence
             = (Returned l, e') →
             Forall (λ c, ¬ at_or_after_stage_cr_ready c) l).
Proof.
  apply (allowed_transitions_without_evidence
           patched_without_evidence DevVerifiedState).
  reflexivity.
Defined.

(** C2: a transition to CLOSED succeeds exactly when the stored code is
    PROD_PATCHED: the stored code of the event is then CLOSED and every other
    attribute is as it was.  From any other stored code it raises, and the
    error is the one of the standalone close check, never the not-allowed
    error of the per-state transitions: the close check comes first.  The
    event is then left as it was. *)
Theorem transition_to_closed_only_from_prod_patched (e : PatchEvent) :
  (current_state_code e = Some PROD_PATCHED →
   ∃ e', transition_patch_event CLOSED e = (Returned tt, e')
         ∧ current_state_code e' = Some CLOSED
         ∧ keeps_other_attributes e e')
  ∧ (current_state_code e ≠ Some PROD_PATCHED →
     transition_patch_event CLOSED e = (Raised (ValueError close_message), e))
  ∧ (∀ st : PatchState, close_message ≠ not_allowed_message (code st) CLOSED).
Proof.
  rewrite transition_patch_event_close. split; [|split].
  - intros Hcode. rewrite decide_True by done.
    eexists. split; [reflexivity|]. split; [reflexivity|].
    unfold keeps_other_attributes. simpl. tauto.
  - intros Hcode. by rewrite decide_False.
  - intros st. destruct st; vm_compute; discriminate.
Qed.

(** C9: an event whose stored code is missing, empty or unknown resolves to
    the initial state and is offered that state's transitions; computing
    them leaves the event untouched; and the close check of a transition
    attempt looks at the stored code: the attempt raises the close error
    exactly when the stored code is not PROD_PATCHED, and the stored code
    stays what it was. *)
Theorem unknown_code_defaults_without_repair (e : PatchEvent) :
  unknown_code (current_state_code e) →
  get_state_for_event e = (Returned DevEvidenceCapturedState, e)
  ∧ (st ← get_state_for_event; allowed_transitions st) e
    = allowed_transitions DevEvidenceCapturedState e
  ∧ (st ← get_state_for_event; allowed_transitions st) e
    = (Returned [DEV_VERIFIED], e)
  ∧ transition_patch_event CLOSED e = (Raised (ValueError close_message), e)
  ∧ (∀ e' : PatchEvent,
       (transition_patch_event CLOSED e').1 = Raised (ValueError close_message)
       ↔ current_state_code e' ≠ Some PROD_PATCHED).
Proof.
  intros Hc. pose proof (get_state_for_event_unknown e Hc) as Hg.
  split; [exact Hg|].
  assert ((st ← get_state_for_event; allowed_transitions st) e
          = allowed_transitions DevEvidenceCapturedState e) as Ha.
  { unfold mbind at 1. unfold M_bind. by rewrite Hg. }
  split; [exact Ha|]. split; [by rewrite Ha|].
  split.
  - rewrite transition_patch_event_close. case_decide as Hp; [|done].
    rewrite Hp in Hc. destruct Hc as [?|Hc]; [done|].
    exfalso. apply Hc. unfold chain. set_solver.
  - intros e'. rewrite transition_patch_event_close.
    case_decide; simpl; split; first [done | intros; congruence].
Qed.

Lemma unknown_code_defaults_without_repair_witness :
  get_state_for_event uncoded_event = (Returned DevEvidenceCapturedState, uncoded_event)
  ∧ (st ← get_state_for_event; allowed_transitions st) uncoded_event
    = allowed_transitions DevEvidenceCapturedState uncoded_event
  ∧ (st ← get_state_for_event; allowed_transitions st) uncoded_event
    = (Returned [DEV_VERIFIED], uncoded_event)
  ∧ transition_patch_event CLOSED uncoded_event
    = (Raised (ValueError close_message), uncoded_event)
  ∧ (∀ e' : PatchEvent,
       (transition_patch_event CLOSED e').1 = Raised (ValueError close_message)
       ↔ current_state_code e' ≠ Some PROD_PATCHED).
Proof.
  apply (unknown_code_defaults_without_repair uncoded_event). exact I.
Defined.

(** C10: when [transition_patch_event] raises, whichever of its two checks
    raised, the event is left exactly as it was. *)
Theorem failed_transition_leaves_event_unchanged
    (e e' : PatchEvent) (target_code : string) (exn : Exn) :
  transition_patch_event target_code e = (Raised exn, e') → e' = e.
Proof.
  unfold transition_patch_event, get_state_for_event, can_transition_to.
  unfold mbind, M_bind, gets, mret, M_ret, raise, modify, on_enter.
  destruct (_ && _); [by inversion 1|].
  destruct (allowed_transitions_pure
              (default DevEvidenceCapturedState
                 (mapping !! or_default (current_state_code e))) e) as [l ->].
  destruct (negb _); by inversion 1.
Qed.

Lemma failed_transition_leaves_event_unchanged_witness :
  transition_patch_event STAGE_PATCHED uncoded_event
    = (Raised (ValueError
         "Transition from DEV_EVIDENCE_CAPTURED to STAGE_PATCHED is not allowed."),
       uncoded_event)
  ∧ uncoded_event = uncoded_event.
Proof.
  split; [reflexivity|].
  apply (failed_transition_leaves_event_unchanged uncoded_event uncoded_event
           STAGE_PATCHED
           (ValueError
              "Transition from DEV_EVIDENCE_CAPTURED to STAGE_PATCHED is not allowed.")).
  reflexivity.
Defined.

End StateFacts.

(** ** Evidence diff engine *)

Module DiffFacts.
Import Diff DiffSpec.

Section compute_fixed.
Implicit Types before after : list Vulnerability.

Lemma not_in_after_ids after (v : Vulnerability) :
  synthetic_id v ∉ (list_to_set (synthetic_id <$> after) : gset string)
  ↔ synthetic_id v ∉ synthetic_id <$> after.
Proof. by rewrite elem_of_list_to_set. Qed.

Lemma compute_fixed_as_list_filter before after :
  compute_fixed_vulnerabilities before after
  = filter (λ v, synthetic_id v ∉ synthetic_id <$> after) before.
Proof.
  unfold compute_fixed_vulnerabilities.
  apply list_filter_iff. intros v. apply not_in_after_ids.
Qed.

Lemma scan_finds_id (sid : string) (ids : list string) :
  existsb (String.eqb sid) ids = true ↔ sid ∈ ids.
Proof.
  rewrite existsb_exists, list_elem_of_In. split.
  - intros (y & Hy & Heq). apply String.eqb_eq in Heq. by subst.
  - intros Hin. exists sid. split; [done|]. apply String.eqb_refl.
Qed.

Lemma fixed_by_scan_as_list_filter before after :
  fixed_by_scan before after
  = filter (λ v, synthetic_id v ∉ synthetic_id <$> after) before.
Proof.
  unfold fixed_by_scan.
  change (map synthetic_id after) with (synthetic_id <$> after).
  induction before as [|v before IH]; [done|].
  cbn [List.filter]. rewrite filter_cons, IH.
  destruct (existsb _ _) eqn:Hscan; cbn [negb].
  - apply scan_finds_id in Hscan. rewrite decide_False; [done|].
    intros Hout. by apply Hout.
  - rewrite decide_True; [done|].
    intros Hin. apply scan_finds_id in Hin. congruence.
Qed.

Lemma compute_fixed_nil_after before :
  compute_fixed_vulnerabilities before [] = before.
Proof.
  rewrite compute_fixed_as_list_filter.
  induction before as [|v before IH]; [done|].
  rewrite filter_cons_True; [by rewrite IH|]. apply not_elem_of_nil.
Qed.

Lemma compute_fixed_nil_before after :
  compute_fixed_vulnerabilities [] after = [].
Proof. done. Qed.

End compute_fixed.

Section count_by_severity.

Lemma Counter_lookup_from (c : gmap Severity nat) (xs : list Severity) (s : Severity) :
  default 0%nat
    (foldl (λ c x, <[x := S (default 0%nat (c !! x))]> c) c xs !! s)
  = (default 0%nat (c !! s) + occurrences s xs)%nat.
Proof.
  revert c. induction xs as [|x xs IH]; intros c; cbn [foldl].
  - unfold occurrences. simpl. lia.
  - rewrite IH. unfold occurrences. rewrite filter_cons.
    destruct (decide (x = s)) as [->|Hne].
    + rewrite lookup_insert_eq. simpl. lia.
    + by rewrite lookup_insert_ne.
Qed.

Lemma Counter_get (xs : list Severity) (s : Severity) :
  default 0%nat (Counter xs !! s) = occurrences s xs.
Proof. unfold Counter. by rewrite Counter_lookup_from, lookup_empty. Qed.

Lemma occurrences_total (xs : list Severity) :
  (occurrences CRITICAL xs + occurrences HIGH xs
   + occurrences MEDIUM xs + occurrences LOW xs)%nat = length xs.
Proof.
  unfold occurrences. induction xs as [|x xs IH]; [done|].
  rewrite !filter_cons. destruct x; simpl in *; lia.
Qed.

Lemma count_by_severity_unfold (vs : list Vulnerability) :
  count_by_severity vs =
    <[CRITICAL := occurrences CRITICAL (severity <$> vs)]>
    (<[HIGH := occurrences HIGH (severity <$> vs)]>
    (<[MEDIUM := occurrences MEDIUM (severity <$> vs)]>
    (<[LOW := occurrences LOW (severity <$> vs)]> ∅))).
Proof.
  unfold count_by_severity, Severity_members. cbn [fmap list_fmap list_to_map foldr].
  by rewrite !Counter_get.
Qed.

Lemma sum_values_four (a b c d : nat) :
  sum_values (<[CRITICAL := a]> (<[HIGH := b]> (<[MEDIUM := c]> (<[LOW := d]> ∅))))
  = (a + b + c + d)%nat.
Proof.
  unfold sum_values.
  rewrite !map_fold_insert_L, map_fold_empty;
    first lia; try (intros; lia);
    by rewrite ?lookup_insert_ne, ?lookup_empty.
Qed.

End count_by_severity.

(** C3: [compute_fixed_vulnerabilities] returns the BEFORE records whose
    [synthetic_id] is not the id of any AFTER record: it agrees with the
    scan-based reading, it is the order-preserving filter of BEFORE by that
    test, hence a sublist of BEFORE in BEFORE's order, and a record is in
    the result exactly when it is in BEFORE and its id is not in AFTER. *)
Theorem compute_fixed_is_stable_filter (before after : list Vulnerability) :
  compute_fixed_vulnerabilities before after = fixed_by_scan before after
  ∧ compute_fixed_vulnerabilities before after
    = filter (λ v, synthetic_id v ∉ synthetic_id <$> after) before
  ∧ compute_fixed_vulnerabilities before after `sublist_of` before
  ∧ ∀ v, v ∈ compute_fixed_vulnerabilities before after
         ↔ v ∈ before ∧ synthetic_id v ∉ synthetic_id <$> after.
Proof.
  split; [by rewrite compute_fixed_as_list_filter, fixed_by_scan_as_list_filter|].
  split; [apply compute_fixed_as_list_filter|].
  rewrite compute_fixed_as_list_filter.
  split; [apply sublist_filter|].
  intros v. rewrite list_elem_of_filter. tauto.
Qed.

(** C7: the mapping returned by [count_by_severity] has exactly the four
    severities as keys, each of them present, and its values add up to the
    number of records. *)
Theorem count_by_severity_total (vs : list Vulnerability) :
  dom (count_by_severity vs) = ({[CRITICAL; HIGH; MEDIUM; LOW]} : gset Severity)
  ∧ (∀ s : Severity, is_Some (count_by_severity vs !! s))
  ∧ size (count_by_severity vs) = 4%nat
  ∧ sum_values (count_by_severity vs) = length vs.
Proof.
  rewrite count_by_severity_unfold.
  assert (dom (<[CRITICAL := occurrences CRITICAL (severity <$> vs)]>
               (<[HIGH := occurrences HIGH (severity <$> vs)]>
               (<[MEDIUM := occurrences MEDIUM (severity <$> vs)]>
               (<[LOW := occurrences LOW (severity <$> vs)]>
                  (∅ : gmap Severity nat)))))
          = ({[CRITICAL; HIGH; MEDIUM; LOW]} : gset Severity)) as Hdom.
  { rewrite !dom_insert_L, dom_empty_L. set_solver. }
  split; [exact Hdom|]. split; [|split].
  - intros s. apply elem_of_dom. rewrite Hdom. destruct s; set_solver.
  - rewrite <- size_dom, Hdom. reflexivity.
  - rewrite sum_values_four, occurrences_total. apply length_fmap.
Qed.

(** C8 fails when exactly one side is empty: with a single record on one
    side and nothing on the other, the two orders differ. *)
Lemma compute_fixed_differs_with_one_side_empty :
  ([vuln "VULN-0001-0001" HIGH] = [] ∨ ([] : list Vulnerability) = [])
  ∧ compute_fixed_vulnerabilities [vuln "VULN-0001-0001" HIGH] []
    = [vuln "VULN-0001-0001" HIGH]
  ∧ compute_fixed_vulnerabilities [] [vuln "VULN-0001-0001" HIGH] = []
  ∧ compute_fixed_vulnerabilities [vuln "VULN-0001-0001" HIGH] []
    ≠ compute_fixed_vulnerabilities [] [vuln "VULN-0001-0001" HIGH].
Proof.
  split; [by right|].
  rewrite compute_fixed_nil_after, compute_fixed_nil_before. done.
Qed.

(** C8 (amended): [compute_fixed_vulnerabilities] is not symmetric, and an
    empty side does not make it so: against an empty AFTER it returns all of
    BEFORE, from an empty BEFORE it returns nothing, so when one side is
    empty the two orders agree only if the other side is empty too. *)
Theorem compute_fixed_not_symmetric :
  (∃ A B, compute_fixed_vulnerabilities A B ≠ compute_fixed_vulnerabilities B A)
  ∧ (∀ A, compute_fixed_vulnerabilities A [] = A
          ∧ compute_fixed_vulnerabilities [] A = [])
  ∧ (∀ A B, A = [] ∨ B = [] →
            (compute_fixed_vulnerabilities A B = compute_fixed_vulnerabilities B A
             ↔ A = [] ∧ B = [])).
Proof.
  split; [|split].
  - exists [vuln "VULN-0001-0001" HIGH], [].
    by rewrite compute_fixed_nil_after, compute_fixed_nil_before.
  - intros A. by rewrite compute_fixed_nil_after, compute_fixed_nil_before.
  - intros A B [-> | ->];
      rewrite compute_fixed_nil_after, compute_fixed_nil_before;
      intuition congruence.
Qed.

Lemma compute_fixed_not_symmetric_witness :
  ([vuln "VULN-0001-0002" LOW] = [] ∨ ([] : list Vulnerability) = [])
  ∧ (compute_fixed_vulnerabilities [vuln "VULN-0001-0002" LOW] []
       = compute_fixed_vulnerabilities [] [vuln "VULN-0001-0002" LOW]
     ↔ [vuln "VULN-0001-0002" LOW] = [] ∧ ([] : list Vulnerability) = []).
Proof.
  split; [by right|].
  apply (proj2 (proj2 compute_fixed_not_symmetric)). by right.
Defined.

End DiffFacts.

(** ** Synthetic snapshot generator *)

Module SyntheticDataFacts.
Import SyntheticData SyntheticDataSpec.

(** *** Running a computation step by step *)

Lemma bind_returned {St A B} (m : M St A) (f : A → M St B) (s s' : St) (a : A) :
  m s = (Returned a, s') → (m ≫= f) s = f a s'.
Proof. intros Hm. unfold mbind, M_bind. by rewrite Hm. Qed.

Lemma bind_raised {St A B} (m : M St A) (f : A → M St B) (s s' : St) (e : Exn) :
  m s = (Raised e, s') → (m ≫= f) s = (Raised e, s').
Proof. intros Hm. unfold mbind, M_bind. by rewrite Hm. Qed.

(** *** The random source never touches the session *)

Lemma randbelow_returns (n : Z) (w : World) :
  0 < n →
  ∃ r w', randbelow n w = (Returned r, w') ∧ db w' = db w ∧ 0 ≤ r < n.
Proof.
  intros Hn. unfold randbelow. destruct (random w) as [|d rest].
  - exists 0, w. repeat split; lia.
  - eexists _, _. split; [reflexivity|]. split; [done|].
    apply Z.mod_pos_bound. lia.
Qed.

(** Every value below [n] is the outcome of some draw. *)
Lemma randbelow_covers (n r : Z) (s : Session) (rest : list Z) :
  0 ≤ r < n →
  randbelow n {| db := s; random := r :: rest |}
  = (Returned r, {| db := s; random := rest |}).
Proof. intros Hr. unfold randbelow. simpl. by rewrite Z.mod_small. Qed.

Lemma randint_returns (a b : Z) (w : World) :
  a ≤ b →
  ∃ r w', randint a b w = (Returned r, w') ∧ db w' = db w ∧ a ≤ r ≤ b.
Proof.
  intros Hab. unfold randint. rewrite bool_decide_eq_false_2 by lia.
  destruct (randbelow_returns (b - a + 1) w) as (r & w' & Hr & Hdb & Hb); [lia|].
  exists (a + r), w'. rewrite (bind_returned _ _ _ _ _ Hr).
  repeat split; [done|lia|lia].
Qed.

Lemma choice_returns {A} (seq : list A) (w : World) :
  seq ≠ [] →
  ∃ x w', choice seq w = (Returned x, w') ∧ db w' = db w ∧ x ∈ seq.
Proof.
  intros Hseq. unfold choice.
  destruct (randbelow_returns (Z.of_nat (length seq)) w)
    as (r & w' & Hr & Hdb & Hb); [destruct seq; simpl; [done|lia]|].
  rewrite (bind_returned _ _ _ _ _ Hr).
  destruct (lookup_lt_is_Some_2 seq (Z.to_nat r)) as [x Hx]; [lia|].
  exists x, w'. rewrite Hx. repeat split; [done|].
  by eapply list_elem_of_lookup_2.
Qed.

Lemma sample_pool_returns {A} (k : nat) (pool : list A) (w : World) :
  (k ≤ length pool)%nat →
  ∃ res w', sample_pool pool k w = (Returned res, w')
            ∧ db w' = db w ∧ length res = k ∧ res ⊆+ pool.
Proof.
  revert pool w. induction k as [|k IH]; intros pool w Hk.
  - exists [], w. repeat split. apply submseteq_nil_l.
  - cbn [sample_pool].
    destruct (randbelow_returns (Z.of_nat (length pool)) w)
      as (j & w1 & Hj & Hdb1 & Hb); [lia|].
    rewrite (bind_returned _ _ _ _ _ Hj).
    destruct (lookup_lt_is_Some_2 pool (Z.to_nat j)) as [x Hx]; [lia|].
    rewrite Hx.
    destruct (IH (delete (Z.to_nat j) pool) w1) as (rest & w2 & Hrest & Hdb2 & Hlen & Hsub).
    { rewrite length_delete by eauto. lia. }
    exists (x :: rest), w2. rewrite (bind_returned _ _ _ _ _ Hrest).
    split; [done|]. split; [congruence|]. split; [simpl; lia|].
    rewrite (delete_Permutation pool _ _ Hx). by apply submseteq_skip.
Qed.

Lemma sample_returns {A} (population : list A) (k : Z) (w : World) :
  0 ≤ k ≤ Z.of_nat (length population) →
  ∃ res w', sample population k w = (Returned res, w')
            ∧ db w' = db w ∧ Z.of_nat (length res) = k ∧ res ⊆+ population.
Proof.
  intros Hk. unfold sample. rewrite bool_decide_eq_true_2 by done.
  destruct (sample_pool_returns (Z.to_nat k) population w)
    as (res & w' & Hres & Hdb & Hlen & Hsub); [lia|].
  exists res, w'. repeat split; [done|done|lia|done].
Qed.

Lemma sample_raises {A} (population : list A) (k : Z) (w : World) :
  Z.of_nat (length population) < k →
  sample population k w
  = (Raised (ValueError "Sample larger than population or is negative"), w).
Proof. intros Hk. unfold sample. by rewrite bool_decide_eq_false_2 by lia. Qed.

Lemma _build_vulnerability_returns
    (patch_event : PatchEvent) (snapshot : ScanSnapshot) (index : Z) (w : World) :
  ∃ v w', _build_vulnerability patch_event snapshot index w = (Returned v, w')
          ∧ db w' = db w ∧ scan_snapshot_id v = snapshot_id snapshot.
Proof.
  unfold _build_vulnerability, _choose_severity, _generate_synthetic_cve,
    _generate_synthetic_plugin_id, _generate_synthetic_host.
  destruct (choice_returns [CRITICAL; HIGH; HIGH; MEDIUM; MEDIUM; LOW; LOW; LOW] w)
    as (sev & w1 & H1 & Hdb1 & _); [done|].
  rewrite (bind_returned _ _ _ _ _ H1).
  destruct (randint_returns 2090 2099 w1) as (year & w2 & H2 & Hdb2 & _); [lia|].
  destruct (randint_returns 1000 99999 w2) as (ident & w3 & H3 & Hdb3 & _); [lia|].
  destruct (randint_returns 10000 99999 w3) as (plug & w4 & H4 & Hdb4 & _); [lia|].
  destruct (randint_returns 1 9 w4) as (idx & w5 & H5 & Hdb5 & _); [lia|].
  eexists _, w5.
  rewrite (bind_returned (year ← randint 2090 2099; _) _ w1 w3
             ("CVE-" +:+ pretty year +:+ "-" +:+ format_d 5 ident)).
  2:{ rewrite (bind_returned _ _ _ _ _ H2). by rewrite (bind_returned _ _ _ _ _ H3). }
  rewrite (bind_returned (n ← randint 10000 99999; _) _ w3 w4 ("PLUG-" +:+ pretty plug)).
  2:{ by rewrite (bind_returned _ _ _ _ _ H4). }
  rewrite (bind_returned (index ← randint 1 9; _) _ w4 w5
             (lower (Environment_value (environment patch_event))
              +:+ "-synthetic-" +:+ format_d 2 idx)).
  2:{ by rewrite (bind_returned _ _ _ _ _ H5). }
  split; [reflexivity|]. split; [congruence|done].
Qed.

(** *** Loops that add one row per item *)

Lemma for_each_adds {A} (P : A → Vulnerability → Prop)
    (body : A → M World unit) (xs : list A) (w : World) :
  adds_one P body →
  ∃ new w',
    for_each xs body w = (Returned tt, w')
    ∧ snapshots (db w') = snapshots (db w)
    ∧ next_snapshot_id (db w') = next_snapshot_id (db w)
    ∧ vulnerabilities (db w') = vulnerabilities (db w) ++ new
    ∧ Forall2 P xs new.
Proof.
  intros Hbody. revert w. induction xs as [|x xs IH]; intros w.
  - exists [], w. rewrite app_nil_r. repeat split. constructor.
  - destruct (Hbody x w) as (v & w1 & Hrun & Hs & Hn & Hv & HP).
    destruct (IH w1) as (new & w' & Hrun' & Hs' & Hn' & Hv' & HP').
    exists (v :: new), w'. cbn [for_each]. rewrite Hrun, Hrun'.
    split; [done|]. split; [congruence|]. split; [congruence|].
    split; [|by constructor].
    rewrite Hv', Hv, <- app_assoc. done.
Qed.

Lemma build_and_add_adds_one (patch_event : PatchEvent) (snapshot : ScanSnapshot) :
  adds_one (λ (_ : Z) v, scan_snapshot_id v = snapshot_id snapshot ∧ True)
    (λ index, vuln ← _build_vulnerability patch_event snapshot index; db_add vuln).
Proof.
  intros index w.
  destruct (_build_vulnerability_returns patch_event snapshot index w)
    as (v & w1 & Hv & Hdb & Hsid).
  eexists _, _. rewrite (bind_returned _ _ _ _ _ Hv).
  split; [reflexivity|]. simpl. rewrite Hdb. repeat split. exact Hsid.
Qed.

Lemma carry_over_adds_one (snapshot : ScanSnapshot) :
  adds_one (λ before_vuln v,
              scan_snapshot_id v = snapshot_id snapshot
              ∧ ∃ i, v = with_vulnerability_id i (carry_over snapshot before_vuln))
    (λ before_vuln, db_add (carry_over snapshot before_vuln)).
Proof. intros x w. eexists _, _. repeat split. by eexists. Qed.

(** *** Deleting snapshots *)

Lemma filter_keep_all {A} (P : A → Prop) `{!∀ x, Decision (P x)} (l : list A) :
  Forall P l → filter P l = l.
Proof.
  induction 1 as [|x l Hx _ IH]; [done|]. by rewrite filter_cons_True, IH.
Qed.

Lemma purge_nil (s : Session) : purge [] s = s.
Proof.
  destruct s as [ss vs n m]. unfold purge. simpl. f_equal;
    apply filter_keep_all, Forall_forall; intros ? _; apply not_elem_of_nil.
Qed.

Lemma purge_cons (i : Z) (ids : list Z) (s : Session) :
  purge ids (purge [i] s) = purge (i :: ids) s.
Proof.
  unfold purge. simpl.
  f_equal;
    (rewrite list_filter_filter; apply list_filter_iff; intros x;
     rewrite !not_elem_of_cons; split; [tauto|];
     intros [? ?]; repeat split; try done; apply not_elem_of_nil).
Qed.

Lemma db_delete_purges (x : ScanSnapshot) (w : World) :
  db_delete x w = (Returned tt, with_db (purge [snapshot_id x]) w).
Proof.
  unfold db_delete, modify, with_db, purge. do 3 f_equal;
    apply list_filter_iff; intros y; rewrite list_elem_of_singleton; tauto.
Qed.

Lemma delete_each_purges (xs : list ScanSnapshot) (w : World) :
  for_each xs db_delete w = (Returned tt, with_db (purge (snapshot_id <$> xs)) w).
Proof.
  revert w. induction xs as [|x xs IH]; intros w; cbn [for_each].
  - unfold with_db. rewrite purge_nil. by destruct w.
  - rewrite db_delete_purges, IH. unfold with_db. simpl. by rewrite purge_cons.
Qed.

Lemma _delete_existing_snapshots_purges (pid : Z) (ty : SnapshotType) (w : World) :
  _delete_existing_snapshots pid ty w
  = (Returned tt,
     with_db (purge (snapshot_id <$> snapshots_of pid ty (db w))) w).
Proof.
  unfold _delete_existing_snapshots.
  rewrite (bind_returned _ _ w w (snapshots_of pid ty (db w))) by done.
  apply delete_each_purges.
Qed.

Lemma filter_drop_all {A} (P : A → Prop) `{!∀ x, Decision (P x)} (l : list A) :
  Forall (λ x, ¬ P x) l → filter P l = [].
Proof.
  induction 1 as [|x l Hx _ IH]; [done|]. by rewrite filter_cons_False.
Qed.

Lemma filter_agree {A} (P Q : A → Prop)
    `{!∀ x, Decision (P x)} `{!∀ x, Decision (Q x)} (l : list A) :
  (∀ x, x ∈ l → P x ↔ Q x) → filter P l = filter Q l.
Proof.
  induction l as [|x l IH]; intros HPQ; [done|].
  rewrite !filter_cons, IH by (intros; apply HPQ; by right).
  destruct (decide (P x)) as [HP|HP], (decide (Q x)) as [HQ|HQ];
    try done; exfalso; apply (HPQ x) in HP || apply (HPQ x) in HQ;
    done || by left.
Qed.

Lemma Forall_filter_keeps {A} (P Q : A → Prop) `{!∀ x, Decision (Q x)} (l : list A) :
  Forall P l → Forall P (filter Q l).
Proof.
  rewrite !Forall_forall. intros HP x Hx.
  apply list_elem_of_filter in Hx as [_ Hx]. by apply HP.
Qed.

Lemma NoDup_fmap_same {A B} (f : A → B) (l : list A) (x y : A) :
  NoDup (f <$> l) → x ∈ l → y ∈ l → f x = f y → x = y.
Proof.
  induction l as [|a l IH]; intros Hnd Hx Hy Heq.
  - by apply not_elem_of_nil in Hx.
  - rewrite fmap_cons in Hnd. apply NoDup_cons in Hnd as [Hfresh Hnd].
    apply elem_of_cons in Hx as [->|Hx]; apply elem_of_cons in Hy as [->|Hy].
    + done.
    + exfalso. apply Hfresh. rewrite Heq. by apply list_elem_of_fmap_2.
    + exfalso. apply Hfresh. rewrite <- Heq. by apply list_elem_of_fmap_2.
    + by apply IH.
Qed.

Section purge.
Variables (pid : Z) (ty : SnapshotType) (s : Session).
Let ids : list Z := snapshot_id <$> snapshots_of pid ty s.

Lemma purge_removes_tag : snapshots_of pid ty (purge ids s) = [].
Proof.
  unfold snapshots_of at 1. unfold purge. simpl.
  apply filter_drop_all, Forall_forall. intros x Hx Hkey.
  apply list_elem_of_filter in Hx as [Hout Hx]. apply Hout.
  apply list_elem_of_fmap_2. unfold snapshots_of.
  by apply list_elem_of_filter.
Qed.

Lemma purge_drops_rows (x : ScanSnapshot) :
  x ∈ snapshots_of pid ty s →
  (x ∉ snapshots (purge ids s)) ∧ vulnerabilities_of x (purge ids s) = [].
Proof.
  intros Hx. assert (snapshot_id x ∈ ids) as Hid by (by apply list_elem_of_fmap_2).
  split.
  - unfold purge. simpl. rewrite list_elem_of_filter. tauto.
  - unfold vulnerabilities_of, purge. simpl.
    apply filter_drop_all, Forall_forall. intros v Hv Heq.
    apply list_elem_of_filter in Hv as [Hout _]. by rewrite Heq in Hout.
Qed.

Lemma purge_consistent (l : list Z) : consistent s → consistent (purge l s).
Proof.
  intros (Hnd & Hs & Hv). unfold consistent, purge. simpl.
  split; [|split]; [|by apply Forall_filter_keeps..].
  eapply sublist_NoDup; [exact Hnd|]. apply fmap_sublist, sublist_filter.
Qed.

Hypothesis Hs : consistent s.

Lemma other_tag_not_purged (b : ScanSnapshot) :
  b ∈ snapshots s →
  ¬ (patch_event_id b = pid ∧ snapshot_type b = ty) →
  snapshot_id b ∉ ids.
Proof.
  intros Hb Hkey Hin. apply list_elem_of_fmap in Hin as (y & Heq & Hy).
  unfold snapshots_of in Hy. apply list_elem_of_filter in Hy as [Hykey Hy].
  destruct Hs as (Hnd & _).
  assert (b = y) as -> by (by eapply NoDup_fmap_same).
  by apply Hkey.
Qed.

Lemma purge_keeps_other_tag (pid' : Z) (ty' : SnapshotType) :
  (pid', ty') ≠ (pid, ty) →
  snapshots_of pid' ty' (purge ids s) = snapshots_of pid' ty' s.
Proof.
  intros Hne. unfold snapshots_of at 1 2. unfold purge. simpl.
  rewrite list_filter_filter. apply filter_agree. intros x Hx.
  split; [tauto|]. intros [<- <-]. split; [done|].
  apply other_tag_not_purged; [done|]. intros [? ?]. apply Hne. congruence.
Qed.

Lemma purge_keeps_vulnerabilities (b : ScanSnapshot) :
  b ∈ snapshots s →
  ¬ (patch_event_id b = pid ∧ snapshot_type b = ty) →
  vulnerabilities_of b (purge ids s) = vulnerabilities_of b s.
Proof.
  intros Hb Hkey. pose proof (other_tag_not_purged b Hb Hkey) as Hout.
  unfold vulnerabilities_of, purge. simpl.
  rewrite list_filter_filter. apply list_filter_iff. intros v.
  split; [tauto|]. intros Heq. split; [done|]. by rewrite Heq.
Qed.

End purge.

(** *** Adding a snapshot and its rows *)

(** The rows of a freshly added snapshot, once [new] rows that refer to it
    have been appended to a consistent session. *)
Lemma fresh_snapshot_rows (s s' : Session) (new : list Vulnerability) :
  Forall (λ v, scan_snapshot_id v < next_snapshot_id s) (vulnerabilities s) →
  vulnerabilities s' = vulnerabilities s ++ new →
  Forall (λ v, scan_snapshot_id v = next_snapshot_id s) new →
  filter (λ v, scan_snapshot_id v = next_snapshot_id s) (vulnerabilities s') = new.
Proof.
  intros Hold -> Hnew. rewrite filter_app.
  rewrite filter_drop_all, filter_keep_all; [done|done|].
  eapply Forall_impl; [exact Hold|]. simpl. intros; lia.
Qed.

Section grown.
Variables (pid : Z) (ty : SnapshotType) (new : list Vulnerability).
Variables (s s' : Session).
Hypothesis Hgrown : grown pid ty new s s'.
Let snapshot : ScanSnapshot :=
  {| snapshot_id := next_snapshot_id s; patch_event_id := pid; snapshot_type := ty |}.

Lemma grown_tag : snapshots_of pid ty s = [] → snapshots_of pid ty s' = [snapshot].
Proof.
  destruct Hgrown as (Hs & _). unfold snapshots_of. rewrite Hs, filter_app.
  intros ->. by rewrite filter_cons_True.
Qed.

Lemma grown_keeps_other_tag (pid' : Z) (ty' : SnapshotType) :
  (pid', ty') ≠ (pid, ty) →
  snapshots_of pid' ty' s' = snapshots_of pid' ty' s.
Proof.
  destruct Hgrown as (Hs & _). intros Hne. unfold snapshots_of.
  rewrite Hs, filter_app, filter_cons_False, app_nil_r; [done|].
  simpl. intros [? ?]. apply Hne. congruence.
Qed.

Lemma grown_keeps_rows (b : ScanSnapshot) :
  snapshot_id b < next_snapshot_id s →
  vulnerabilities_of b s' = vulnerabilities_of b s.
Proof.
  destruct Hgrown as (_ & Hv & _ & Hnew). intros Hb. unfold vulnerabilities_of.
  rewrite Hv, filter_app, (filter_drop_all _ new), app_nil_r; [done|].
  eapply Forall_impl; [exact Hnew|]. simpl. intros; lia.
Qed.

Hypothesis Hs : consistent s.

Lemma grown_rows : vulnerabilities_of snapshot s' = new.
Proof.
  destruct Hgrown as (_ & Hv & _ & Hnew). destruct Hs as (_ & _ & Hold).
  unfold vulnerabilities_of. simpl. by eapply fresh_snapshot_rows.
Qed.

Lemma grown_consistent : consistent s'.
Proof.
  destruct Hgrown as (Hsn & Hv & Hn & Hnew). destruct Hs as (Hnd & Hlt & Hold).
  unfold consistent. rewrite Hsn, Hv, Hn. split; [|split].
  - rewrite fmap_app. apply NoDup_app. split; [done|]. split.
    + intros i Hi Hin. apply list_elem_of_singleton in Hin. subst i.
      apply list_elem_of_fmap in Hi as (x & Heq & Hx).
      rewrite Forall_forall in Hlt. specialize (Hlt x Hx). simpl in Heq. lia.
    + apply NoDup_singleton.
  - apply Forall_app. split.
    + eapply Forall_impl; [exact Hlt|]. simpl. intros; lia.
    + apply Forall_singleton. simpl. lia.
  - apply Forall_app. split.
    + eapply Forall_impl; [exact Hold|]. simpl. intros; lia.
    + eapply Forall_impl; [exact Hnew|]. simpl. intros; lia.
Qed.

End grown.

(** Adding a snapshot and then one row per item grows the session. *)
Lemma add_snapshot_and_rows {A} (P : ScanSnapshot → A → Vulnerability → Prop)
    (body : ScanSnapshot → A → M World unit)
    (pid : Z) (ty : SnapshotType) (xs : list A) (w : World) :
  (∀ snapshot, adds_one (λ x v, scan_snapshot_id v = snapshot_id snapshot
                                ∧ P snapshot x v) (body snapshot)) →
  let snapshot :=
    {| snapshot_id := next_snapshot_id (db w);
       patch_event_id := pid; snapshot_type := ty |} in
  ∃ new w',
    (snapshot ← db_add_snapshot pid ty; for_each xs (body snapshot);; mret snapshot) w
    = (Returned snapshot, w')
    ∧ grown pid ty new (db w) (db w')
    ∧ Forall2 (P snapshot) xs new.
Proof.
  intros Hbody snapshot.
  destruct (for_each_adds _ (body snapshot) xs (db_add_snapshot pid ty w).2
              (Hbody snapshot)) as (new & w' & Hrun & Hs & Hn & Hv & HP).
  exists new, w'.
  rewrite (bind_returned _ _ w (db_add_snapshot pid ty w).2 snapshot) by done.
  rewrite (bind_returned _ _ _ _ _ Hrun).
  split; [done|]. split.
  - unfold grown. rewrite Hs, Hn, Hv. simpl. repeat split.
    clear -HP. induction HP as [|x v xs' new' [Hsid _] _ IH]; constructor;
      [exact Hsid | exact IH].
  - eapply Forall2_impl; [exact HP|]. simpl. tauto.
Qed.

(** *** [generate_before_snapshot] *)

Lemma generate_before_snapshot_grows
    (patch_event : PatchEvent) (vulnerability_count : Z) (w : World) :
  let ids := snapshot_id <$> snapshots_of (event_id patch_event) BEFORE (db w) in
  let snapshot :=
    {| snapshot_id := next_snapshot_id (db w);
       patch_event_id := event_id patch_event; snapshot_type := BEFORE |} in
  ∃ new w',
    generate_before_snapshot patch_event vulnerability_count w = (Returned snapshot, w')
    ∧ grown (event_id patch_event) BEFORE new (purge ids (db w)) (db w')
    ∧ length new = Z.to_nat vulnerability_count.
Proof.
  intros ids snapshot.
  destruct (add_snapshot_and_rows (λ _ (_ : Z) _, True)
              (λ snapshot index,
                 vuln ← _build_vulnerability patch_event snapshot index; db_add vuln)
              (event_id patch_event) BEFORE (seqZ 1 vulnerability_count)
              (with_db (purge ids) w))
    as (new & w' & Hrun & Hgrown & Hnew).
  { intros snap. apply build_and_add_adds_one. }
  exists new, w'. split; [|split; [exact Hgrown|]].
  - unfold generate_before_snapshot.
    rewrite (bind_returned _ _ _ _ _
               (_delete_existing_snapshots_purges (event_id patch_event) BEFORE w)).
    exact Hrun.
  - rewrite <- (Forall2_length _ _ _ Hnew). apply length_seqZ.
Qed.

(** C5: two successive [generate_before_snapshot] calls on one event, on a
    consistent session and whatever the random draws, both return; after
    them the event has exactly one BEFORE snapshot, the one returned by the
    second call, which holds exactly [n2] vulnerabilities, while the first
    call's snapshot and all its vulnerabilities are gone. *)
Theorem regenerating_before_replaces_snapshot
    (patch_event : PatchEvent) (n1 n2 : Z) (w : World) :
  consistent (db w) →
  0 ≤ n2 →
  ∃ s1 w1 s2 w2,
    generate_before_snapshot patch_event n1 w = (Returned s1, w1)
    ∧ generate_before_snapshot patch_event n2 w1 = (Returned s2, w2)
    ∧ snapshots_of (event_id patch_event) BEFORE (db w2) = [s2]
    ∧ Z.of_nat (length (vulnerabilities_of s2 (db w2))) = n2
    ∧ (s1 ∉ snapshots (db w2))
    ∧ vulnerabilities_of s1 (db w2) = [].
Proof.
  intros Hw Hn2.
  destruct (generate_before_snapshot_grows patch_event n1 w)
    as (new1 & w1 & Hrun1 & Hg1 & _).
  pose proof (grown_consistent _ _ _ _ _ Hg1 (purge_consistent _ _ Hw)) as Hw1.
  pose proof (grown_tag _ _ _ _ _ Hg1
                (purge_removes_tag (event_id patch_event) BEFORE (db w))) as Htag1.
  destruct (generate_before_snapshot_grows patch_event n2 w1)
    as (new2 & w2 & Hrun2 & Hg2 & Hlen2).
  eexists _, w1, _, w2. split; [exact Hrun1|]. split; [exact Hrun2|].
  set (s1 := {| snapshot_id := next_snapshot_id (db w);
                patch_event_id := event_id patch_event;
                snapshot_type := BEFORE |}) in *.
  assert (s1 ∈ snapshots_of (event_id patch_event) BEFORE (db w1)) as Hs1.
  { simpl in Htag1. rewrite Htag1. by apply list_elem_of_singleton. }
  destruct (purge_drops_rows (event_id patch_event) BEFORE (db w1) s1 Hs1)
    as [Hgone Hrows].
  assert (next_snapshot_id (db w1) = next_snapshot_id (db w) + 1) as Hnext
    by apply Hg1.
  split; [|split; [|split]].
  - apply (grown_tag _ _ _ _ _ Hg2).
    apply (purge_removes_tag (event_id patch_event) BEFORE (db w1)).
  - pose proof (grown_rows _ _ _ _ _ Hg2 (purge_consistent _ _ Hw1)) as Hrows2.
    simpl in Hrows2. rewrite Hrows2. lia.
  - destruct Hg2 as (Hsn & _). rewrite Hsn. rewrite elem_of_app.
    intros [Hin|Hin]; [by apply Hgone|].
    apply list_elem_of_singleton in Hin. apply (f_equal snapshot_id) in Hin.
    simpl in Hin. lia.
  - rewrite (grown_keeps_rows _ _ _ _ _ Hg2); [exact Hrows|]. simpl. lia.
Qed.

Lemma regenerating_before_replaces_snapshot_witness :
  ∃ s1 w1 s2 w2,
    generate_before_snapshot an_event 20 (fresh_world [4; 8; 15; 16; 23; 42])
    = (Returned s1, w1)
    ∧ generate_before_snapshot an_event 3 w1 = (Returned s2, w2)
    ∧ snapshots_of (event_id an_event) BEFORE (db w2) = [s2]
    ∧ Z.of_nat (length (vulnerabilities_of s2 (db w2))) = 3
    ∧ (s1 ∉ snapshots (db w2))
    ∧ vulnerabilities_of s1 (db w2) = [].
Proof.
  apply (regenerating_before_replaces_snapshot an_event 20 3
           (fresh_world [4; 8; 15; 16; 23; 42])).
  - apply (bool_decide_unpack _). by vm_compute.
  - lia.
Defined.

(** *** [generate_after_snapshot] *)

Lemma remaining_bounds_clamped (total : Z) (r1 r2 : float) (w w' : World) (lo hi : Z) :
  remaining_bounds total r1 r2 w = (Returned (lo, hi), w') →
  w' = w ∧ 1 ≤ lo ≤ hi.
Proof.
  unfold remaining_bounds, int_of_float, mbind, M_bind, mret, M_ret, raise.
  destruct (Prim2SF (float_of_int total * r1)); try (by inversion 1);
    destruct (Prim2SF (float_of_int total * r2)); try (by inversion 1);
    intros [= <- <- <-]; split; try done; lia.
Qed.

Lemma generate_after_snapshot_carries
    (patch_event : PatchEvent) (r1 r2 : float) (w : World)
    (b : ScanSnapshot) (lo hi : Z) :
  let w1 :=
    with_db (purge (snapshot_id <$> snapshots_of (event_id patch_event) AFTER (db w))) w in
  consistent (db w) →
  head (snapshots_of (event_id patch_event) BEFORE (db w)) = Some b →
  vulnerabilities_of b (db w) ≠ [] →
  remaining_bounds (Z.of_nat (length (vulnerabilities_of b (db w)))) r1 r2 w1
  = (Returned (lo, hi), w1) →
  generate_after_snapshot patch_event r1 r2 w
  = carry_branch patch_event (vulnerabilities_of b (db w)) lo hi w1
  ∧ snapshots_of (event_id patch_event) BEFORE (db w1)
    = snapshots_of (event_id patch_event) BEFORE (db w)
  ∧ vulnerabilities_of b (db w1) = vulnerabilities_of b (db w).
Proof.
  intros w1 Hw Hhead Hrows Hbounds.
  assert (b ∈ snapshots (db w) ∧ snapshot_type b = BEFORE) as [Hb Hty].
  { apply head_Some_elem_of in Hhead. unfold snapshots_of in Hhead.
    apply list_elem_of_filter in Hhead. tauto. }
  assert (snapshots_of (event_id patch_event) BEFORE (db w1)
          = snapshots_of (event_id patch_event) BEFORE (db w)) as Hsame.
  { apply purge_keeps_other_tag; [done|]. intros [=]. }
  assert (vulnerabilities_of b (db w1) = vulnerabilities_of b (db w)) as Hkept.
  { apply purge_keeps_vulnerabilities; [done..|]. rewrite Hty. intros [_ [=]]. }
  split; [|done].
  unfold generate_after_snapshot.
  rewrite (bind_returned _ _ _ _ _
             (_delete_existing_snapshots_purges (event_id patch_event) AFTER w)).
  fold w1.
  rewrite (bind_returned _ _ w1 w1 (Some b)) by (unfold gets; by rewrite Hsame, Hhead).
  rewrite (bind_returned _ _ w1 w1 (vulnerabilities_of b (db w)))
    by (unfold gets; by rewrite Hkept).
  rewrite (bool_decide_eq_false_2 (Some b = None)) by done.
  rewrite (bool_decide_eq_false_2 _ Hrows). cbn [orb].
  by rewrite (bind_returned _ _ _ _ _ Hbounds).
Qed.

Lemma carry_branch_returns (patch_event : PatchEvent)
    (before_vulns : list Vulnerability) (lo hi : Z) (w : World) :
  0 ≤ lo → lo ≤ hi → hi ≤ Z.of_nat (length before_vulns) →
  let snapshot :=
    {| snapshot_id := next_snapshot_id (db w);
       patch_event_id := event_id patch_event; snapshot_type := AFTER |} in
  ∃ remaining new w',
    carry_branch patch_event before_vulns lo hi w = (Returned snapshot, w')
    ∧ grown (event_id patch_event) AFTER new (db w) (db w')
    ∧ lo ≤ Z.of_nat (length new) ≤ hi
    ∧ remaining ⊆+ before_vulns
    ∧ Forall2 same_record remaining new.
Proof.
  intros Hlo Hle Hhi snapshot. unfold carry_branch.
  destruct (randint_returns lo hi w Hle) as (k & w2 & Hk & Hdb2 & Hrange).
  destruct (sample_returns before_vulns k w2) as (rem & w3 & Hrem & Hdb3 & Hlen & Hsub);
    [lia|].
  destruct (add_snapshot_and_rows
              (λ snapshot before_vuln v,
                 ∃ i, v = with_vulnerability_id i (carry_over snapshot before_vuln))
              (λ snapshot before_vuln, db_add (carry_over snapshot before_vuln))
              (event_id patch_event) AFTER rem w3)
    as (new & w' & Hrun & Hgrown & Hnew).
  { intros snap. apply carry_over_adds_one. }
  rewrite Hdb3, Hdb2 in Hrun, Hgrown, Hnew.
  exists rem, new, w'.
  rewrite (bind_returned _ _ _ _ _ Hk), (bind_returned _ _ _ _ _ Hrem).
  split; [exact Hrun|]. split; [exact Hgrown|].
  split; [rewrite <- (Forall2_length _ _ _ Hnew); lia|].
  split; [exact Hsub|].
  eapply Forall2_impl; [exact Hnew|]. simpl. by intros bv v [i ->].
Qed.

Lemma carry_branch_raises (patch_event : PatchEvent)
    (before_vulns : list Vulnerability) (lo hi : Z) (w : World) :
  lo ≤ hi → Z.of_nat (length before_vulns) < lo →
  ∃ w',
    carry_branch patch_event before_vulns lo hi w
    = (Raised (ValueError "Sample larger than population or is negative"), w')
    ∧ db w' = db w.
Proof.
  intros Hle Hbig. unfold carry_branch.
  destruct (randint_returns lo hi w Hle) as (k & w2 & Hk & Hdb2 & Hrange).
  exists w2. rewrite (bind_returned _ _ _ _ _ Hk).
  by rewrite (bind_raised _ _ _ _ _ (sample_raises before_vulns k w2 ltac:(lia))).
Qed.

Lemma remaining_bounds_of_twenty (w : World) :
  remaining_bounds 20 default_min_remaining_ratio default_max_remaining_ratio w
  = (Returned (6, 14), w).
Proof. reflexivity. Qed.

Lemma Forall2_elem_of_right {A B} (P : A → B → Prop) (l : list A) (k : list B) (y : B) :
  Forall2 P l k → y ∈ k → ∃ x, x ∈ l ∧ P x y.
Proof.
  induction 1 as [|x y' l k HP _ IH]; intros Hy.
  - by apply not_elem_of_nil in Hy.
  - apply elem_of_cons in Hy as [->|Hy].
    + exists x. split; [by left|done].
    + destruct (IH Hy) as (x' & Hx' & HP'). exists x'. split; [by right|done].
Qed.

(** C4: on a consistent session where the event's BEFORE snapshot holds
    exactly 20 vulnerabilities, [generate_after_snapshot] with the ratios
    (0.3, 0.7) returns, whatever the random draws; the snapshot it returns
    is the event's only AFTER snapshot and holds between 6 and 14
    vulnerabilities, which are copies of distinct BEFORE records: each one
    has the [synthetic_id], [cve], [plugin_id], [severity], [host] and
    [description] of a BEFORE record, so its [synthetic_id] is among the
    BEFORE ids.  The BEFORE snapshot is left as it was. *)
Theorem generate_after_of_twenty
    (patch_event : PatchEvent) (w : World) (b : ScanSnapshot) :
  consistent (db w) →
  head (snapshots_of (event_id patch_event) BEFORE (db w)) = Some b →
  length (vulnerabilities_of b (db w)) = 20%nat →
  ∃ a w',
    generate_after_snapshot patch_event
      default_min_remaining_ratio default_max_remaining_ratio w = (Returned a, w')
    ∧ snapshots_of (event_id patch_event) AFTER (db w') = [a]
    ∧ (6 ≤ length (vulnerabilities_of a (db w')) ≤ 14)%nat
    ∧ head (snapshots_of (event_id patch_event) BEFORE (db w')) = Some b
    ∧ vulnerabilities_of b (db w') = vulnerabilities_of b (db w)
    ∧ (∃ remaining,
         remaining ⊆+ vulnerabilities_of b (db w')
         ∧ Forall2 same_record remaining (vulnerabilities_of a (db w')))
    ∧ (∀ v, v ∈ vulnerabilities_of a (db w') →
            (synthetic_id v ∈ synthetic_id <$> vulnerabilities_of b (db w'))
            ∧ ∃ before_vuln,
                before_vuln ∈ vulnerabilities_of b (db w')
                ∧ same_record before_vuln v).
Proof.
  intros Hw Hhead Hlen.
  assert (vulnerabilities_of b (db w) ≠ []) as Hrows.
  { intros Heq. by rewrite Heq in Hlen. }
  destruct (generate_after_snapshot_carries patch_event
              default_min_remaining_ratio default_max_remaining_ratio
              w b 6 14 Hw Hhead Hrows) as (Hrun & Hsame & Hkept).
  { rewrite Hlen. apply remaining_bounds_of_twenty. }
  set (w1 := with_db
               (purge (snapshot_id <$> snapshots_of (event_id patch_event) AFTER (db w)))
               w) in *.
  assert (consistent (db w1)) as Hw1 by (by apply purge_consistent).
  destruct (carry_branch_returns patch_event (vulnerabilities_of b (db w)) 6 14 w1)
    as (rem & new & w' & Hrun' & Hgrown & Hcount & Hsub & Hrec);
    [lia|lia|rewrite Hlen; lia|].
  pose proof (grown_rows _ _ _ _ _ Hgrown Hw1) as Hnew.
  assert (vulnerabilities_of b (db w') = vulnerabilities_of b (db w)) as Hb.
  { rewrite (grown_keeps_rows _ _ _ _ _ Hgrown); [exact Hkept|].
    apply head_Some_elem_of in Hhead. unfold snapshots_of in Hhead.
    apply list_elem_of_filter in Hhead as [_ Hin].
    destruct Hw as (_ & Hlt & _). rewrite Forall_forall in Hlt.
    exact (Hlt b Hin). }
  eexists _, w'. split; [rewrite Hrun; exact Hrun'|].
  rewrite Hnew, Hb.
  split; [|split; [lia|split; [|split; [done|split]]]].
  - apply (grown_tag _ _ _ _ _ Hgrown).
    apply (purge_removes_tag (event_id patch_event) AFTER (db w)).
  - rewrite (grown_keeps_other_tag _ _ _ _ _ Hgrown) by (intros [=]).
    by rewrite Hsame.
  - by exists rem.
  - intros v Hv.
    destruct (Forall2_elem_of_right _ _ _ _ Hrec Hv) as (bv & Hbv & Hsame_rec).
    pose proof (elem_of_submseteq _ _ _ Hbv Hsub) as Hin.
    split; [|by exists bv].
    destruct Hsame_rec as (-> & _). by apply list_elem_of_fmap_2.
Qed.

Lemma twenty_before_consistent : consistent (db twenty_before).
Proof. apply (bool_decide_unpack _). by vm_compute. Qed.

Lemma twenty_before_head :
  head (snapshots_of (event_id an_event) BEFORE (db twenty_before))
  = Some the_before_snapshot.
Proof. by vm_compute. Qed.

Lemma twenty_before_rows :
  length (vulnerabilities_of the_before_snapshot (db twenty_before)) = 20%nat.
Proof. by vm_compute. Qed.

Lemma generate_after_of_twenty_witness :
  ∃ a w',
    generate_after_snapshot an_event
      default_min_remaining_ratio default_max_remaining_ratio twenty_before
    = (Returned a, w')
    ∧ snapshots_of (event_id an_event) AFTER (db w') = [a]
    ∧ (6 ≤ length (vulnerabilities_of a (db w')) ≤ 14)%nat
    ∧ head (snapshots_of (event_id an_event) BEFORE (db w')) = Some the_before_snapshot
    ∧ vulnerabilities_of the_before_snapshot (db w')
      = vulnerabilities_of the_before_snapshot (db twenty_before)
    ∧ (∃ remaining,
         remaining ⊆+ vulnerabilities_of the_before_snapshot (db w')
         ∧ Forall2 same_record remaining (vulnerabilities_of a (db w')))
    ∧ (∀ v, v ∈ vulnerabilities_of a (db w') →
            (synthetic_id v
             ∈ synthetic_id <$> vulnerabilities_of the_before_snapshot (db w'))
            ∧ ∃ before_vuln,
                before_vuln ∈ vulnerabilities_of the_before_snapshot (db w')
                ∧ same_record before_vuln v).
Proof.
  apply (generate_after_of_twenty an_event twenty_before the_before_snapshot).
  - apply (bool_decide_unpack _). by vm_compute.
  - by vm_compute.
  - by vm_compute.
Defined.

Lemma remaining_bounds_any_world
    (total : Z) (r1 r2 : float) (w w' : World) (o : Outcome (Z * Z)) :
  remaining_bounds total r1 r2 w = (o, w') →
  w' = w ∧ ∀ w2, remaining_bounds total r1 r2 w2 = (o, w2).
Proof.
  unfold remaining_bounds, int_of_float, mbind, M_bind, mret, M_ret, raise.
  destruct (Prim2SF (float_of_int total * r1));
    try (by intros [= <- <-]);
    destruct (Prim2SF (float_of_int total * r2)); by intros [= <- <-].
Qed.

(** C6 fails on ratios above 1: with a BEFORE snapshot of 20 vulnerabilities
    and the ratios (1.5, 2.0) the bounds are 30 and 40, more than there are
    BEFORE records, and [random.sample] raises [ValueError]. *)
Lemma generate_after_raises_on_ratios_above_one :
  head (snapshots_of (event_id an_event) BEFORE (db twenty_before))
  = Some the_before_snapshot
  ∧ length (vulnerabilities_of the_before_snapshot (db twenty_before)) = 20%nat
  ∧ remaining_bounds 20 1.5 2 twenty_before = (Returned (30, 40), twenty_before)
  ∧ generate_after_snapshot an_event 1.5 2 twenty_before
    = (Raised (ValueError "Sample larger than population or is negative"),
       twenty_before).
Proof. repeat split; by vm_compute. Qed.

Lemma is_finite_Prim2SF (x : float) :
  is_finite x
  = match Prim2SF x with
    | S754_nan | S754_infinity _ => false
    | S754_zero _ | S754_finite _ _ _ => true
    end.
Proof.
  unfold is_finite, is_nan, is_infinity.
  rewrite !FloatAxioms.eqb_spec, FloatAxioms.abs_spec.
  change (Prim2SF infinity) with (S754_infinity false).
  destruct (Prim2SF x) as [s|s| |s m e]; try reflexivity.
  - by destruct s.
  - unfold SFeqb, SFabs, SFcompare.
    destruct s; rewrite ?Z.compare_refl, ?Pos.compare_refl; reflexivity.
Qed.

Lemma int_of_float_finite {St} (x : float) (s : St) :
  is_finite x = true → ∃ n, int_of_float x s = (Returned n, s).
Proof.
  rewrite is_finite_Prim2SF. unfold int_of_float.
  destruct (Prim2SF x); intros Hfin; try discriminate Hfin; by eexists.
Qed.

Lemma int_of_float_not_finite {St} (x : float) (s : St) :
  is_finite x = false → ∃ e, int_of_float (St := St) x s = (Raised e, s) ∧ int_error e.
Proof.
  rewrite is_finite_Prim2SF. unfold int_of_float, int_error.
  destruct (Prim2SF x); intros Hfin; try discriminate Hfin;
    (eexists; split; [reflexivity|]); [by right|by left].
Qed.

Lemma remaining_bounds_finite (total : Z) (r1 r2 : float) (w : World) :
  products_finite total r1 r2 = true →
  ∃ lo hi, remaining_bounds total r1 r2 w = (Returned (lo, hi), w).
Proof.
  unfold products_finite. intros [Hr1 Hr2]%andb_true_iff.
  destruct (int_of_float_finite _ w Hr1) as [n1 Hn1].
  destruct (int_of_float_finite _ w Hr2) as [n2 Hn2].
  unfold remaining_bounds.
  rewrite (bind_returned _ _ _ _ _ Hn1), (bind_returned _ _ _ _ _ Hn2).
  by eexists _, _.
Qed.

Lemma remaining_bounds_not_finite (total : Z) (r1 r2 : float) (w : World) :
  products_finite total r1 r2 = false →
  ∃ e, remaining_bounds total r1 r2 w = (Raised e, w) ∧ int_error e.
Proof.
  unfold products_finite, remaining_bounds. intros Hfin.
  destruct (is_finite (float_of_int total * r1)) eqn:Hr1.
  - destruct (int_of_float_finite _ w Hr1) as [n1 Hn1].
    destruct (int_of_float_not_finite _ w Hfin) as (e & He & Herr).
    exists e. by rewrite (bind_returned _ _ _ _ _ Hn1), (bind_raised _ _ _ _ _ He).
  - destruct (int_of_float_not_finite _ w Hr1) as (e & He & Herr).
    exists e. by rewrite (bind_raised _ _ _ _ _ He).
Qed.

Lemma generate_after_snapshot_bounds_raise
    (patch_event : PatchEvent) (r1 r2 : float) (w : World)
    (b : ScanSnapshot) (e : Exn) :
  let w1 :=
    with_db (purge (snapshot_id <$> snapshots_of (event_id patch_event) AFTER (db w))) w in
  consistent (db w) →
  head (snapshots_of (event_id patch_event) BEFORE (db w)) = Some b →
  vulnerabilities_of b (db w) ≠ [] →
  remaining_bounds (Z.of_nat (length (vulnerabilities_of b (db w)))) r1 r2 w1
  = (Raised e, w1) →
  generate_after_snapshot patch_event r1 r2 w = (Raised e, w1).
Proof.
  intros w1 Hw Hhead Hrows Hbounds.
  assert (b ∈ snapshots (db w) ∧ snapshot_type b = BEFORE) as [Hb Hty].
  { apply head_Some_elem_of in Hhead. unfold snapshots_of in Hhead.
    apply list_elem_of_filter in Hhead. tauto. }
  assert (snapshots_of (event_id patch_event) BEFORE (db w1)
          = snapshots_of (event_id patch_event) BEFORE (db w)) as Hsame.
  { apply purge_keeps_other_tag; [done|]. intros [=]. }
  assert (vulnerabilities_of b (db w1) = vulnerabilities_of b (db w)) as Hkept.
  { apply purge_keeps_vulnerabilities; [done..|]. rewrite Hty. intros [_ [=]]. }
  unfold generate_after_snapshot.
  rewrite (bind_returned _ _ _ _ _
             (_delete_existing_snapshots_purges (event_id patch_event) AFTER w)).
  fold w1.
  rewrite (bind_returned _ _ w1 w1 (Some b)) by (unfold gets; by rewrite Hsame, Hhead).
  rewrite (bind_returned _ _ w1 w1 (vulnerabilities_of b (db w)))
    by (unfold gets; by rewrite Hkept).
  rewrite (bool_decide_eq_false_2 (Some b = None)) by done.
  rewrite (bool_decide_eq_false_2 _ Hrows). cbn [orb].
  by rewrite (bind_raised _ _ _ _ _ Hbounds).
Qed.

(** A finite ratio is not enough for [int] to be defined: with a BEFORE
    snapshot of 20 vulnerabilities and the ratio [2^1023] the product is
    infinite and [int] raises [OverflowError]. *)
Lemma generate_after_overflows_on_a_finite_ratio :
  is_finite 0x1p1023 = true
  ∧ products_finite 20 0x1p1023 0x1p1023 = false
  ∧ generate_after_snapshot an_event 0x1p1023 0x1p1023 twenty_before
    = (Raised (OverflowError "cannot convert float infinity to integer"),
       twenty_before).
Proof. repeat split; by vm_compute. Qed.

(** C6 (amended): for an event with a non-empty BEFORE snapshot of [total]
    records, [int] is defined on the two products [total * ratio] exactly
    when both are numbers (neither NaN nor an infinity; a finite ratio can
    give an infinite product).  When they are, the bounds are computed and
    clamped so that [1 <= min_remaining <= max_remaining];
    [generate_after_snapshot] returns, whatever the random draws, with a
    count within the bounds when [max_remaining] does not exceed [total],
    and it raises [ValueError], from [random.sample], when [min_remaining]
    exceeds [total].  When one of the products is not a number,
    [generate_after_snapshot] raises the [ValueError] or [OverflowError] of
    [int]. *)
Theorem generate_after_within_population
    (patch_event : PatchEvent) (r1 r2 : float) (w : World) (b : ScanSnapshot) :
  consistent (db w) →
  head (snapshots_of (event_id patch_event) BEFORE (db w)) = Some b →
  vulnerabilities_of b (db w) ≠ [] →
  (products_finite (Z.of_nat (length (vulnerabilities_of b (db w)))) r1 r2 = true →
   ∃ lo hi,
     remaining_bounds (Z.of_nat (length (vulnerabilities_of b (db w)))) r1 r2 w
     = (Returned (lo, hi), w)
     ∧ 1 ≤ lo ≤ hi
     ∧ (hi ≤ Z.of_nat (length (vulnerabilities_of b (db w))) →
        ∃ a w',
          generate_after_snapshot patch_event r1 r2 w = (Returned a, w')
          ∧ snapshots_of (event_id patch_event) AFTER (db w') = [a]
          ∧ lo ≤ Z.of_nat (length (vulnerabilities_of a (db w'))) ≤ hi)
     ∧ (Z.of_nat (length (vulnerabilities_of b (db w))) < lo →
        ∃ w',
          generate_after_snapshot patch_event r1 r2 w
          = (Raised (ValueError "Sample larger than population or is negative"), w')))
  ∧ (products_finite (Z.of_nat (length (vulnerabilities_of b (db w)))) r1 r2 = false →
     ∃ e w',
       generate_after_snapshot patch_event r1 r2 w = (Raised e, w') ∧ int_error e).
Proof.
  intros Hw Hhead Hrows.
  set (w1 := with_db
               (purge (snapshot_id <$> snapshots_of (event_id patch_event) AFTER (db w)))
               w).
  split.
  - intros Hfin.
    destruct (remaining_bounds_finite _ _ _ w Hfin) as (lo & hi & Hbounds).
    exists lo, hi. split; [exact Hbounds|].
    destruct (remaining_bounds_clamped _ _ _ _ _ _ _ Hbounds) as [_ Hclamp].
    destruct (remaining_bounds_any_world _ _ _ _ _ _ Hbounds) as [_ Hany].
    destruct (generate_after_snapshot_carries patch_event r1 r2 w b lo hi
                Hw Hhead Hrows (Hany _)) as (Hrun & _ & _).
    fold w1 in Hrun.
    split; [exact Hclamp|]. split.
    + intros Hhi.
      destruct (carry_branch_returns patch_event (vulnerabilities_of b (db w)) lo hi w1)
        as (rem & new & w' & Hrun' & Hgrown & Hcount & _); [lia|lia|lia|].
      pose proof (grown_rows _ _ _ _ _ Hgrown (purge_consistent _ _ Hw)) as Hnew.
      eexists _, w'. split; [rewrite Hrun; exact Hrun'|]. split.
      * apply (grown_tag _ _ _ _ _ Hgrown).
        apply (purge_removes_tag (event_id patch_event) AFTER (db w)).
      * by rewrite Hnew.
    + intros Hbig.
      destruct (carry_branch_raises patch_event (vulnerabilities_of b (db w)) lo hi w1)
        as (w' & Hraise & _); [lia|lia|].
      exists w'. by rewrite Hrun.
  - intros Hfin.
    destruct (remaining_bounds_not_finite _ _ _ w1 Hfin) as (e & Hbounds & Herr).
    exists e, w1. split; [|exact Herr].
    by apply (generate_after_snapshot_bounds_raise patch_event r1 r2 w b e).
Qed.

Lemma generate_after_within_population_witness :
  products_finite
    (Z.of_nat (length (vulnerabilities_of the_before_snapshot (db twenty_before))))
    (-1.5) 0.25 = true
  ∧ remaining_bounds
      (Z.of_nat (length (vulnerabilities_of the_before_snapshot (db twenty_before))))
      (-1.5) 0.25 twenty_before
    = (Returned (1, 5), twenty_before)
  ∧ ∃ a w',
      generate_after_snapshot an_event (-1.5) 0.25 twenty_before = (Returned a, w')
      ∧ snapshots_of (event_id an_event) AFTER (db w') = [a]
      ∧ 1 ≤ Z.of_nat (length (vulnerabilities_of a (db w'))) ≤ 5.
Proof.
  assert (products_finite
            (Z.of_nat (length (vulnerabilities_of the_before_snapshot (db twenty_before))))
            (-1.5) 0.25 = true) as Hfin by (by vm_compute).
  assert (remaining_bounds
            (Z.of_nat (length (vulnerabilities_of the_before_snapshot (db twenty_before))))
            (-1.5) 0.25 twenty_before
          = (Returned (1, 5), twenty_before)) as Hbounds by (by vm_compute).
  split; [exact Hfin|]. split; [exact Hbounds|].
  destruct (generate_after_within_population an_event (-1.5) 0.25 twenty_before
              the_before_snapshot) as [Hnumbers _].
  - apply (bool_decide_unpack _). by vm_compute.
  - by vm_compute.
  - by vm_compute.
  - destruct (Hnumbers Hfin) as (lo & hi & Hlohi & _ & Hreturns & _).
    rewrite Hbounds in Hlohi. injection Hlohi as <- <-.
    apply Hreturns. by vm_compute.
Defined.

End SyntheticDataFacts.

(** * Further properties *)

(** ** Lifecycle state machine: what a transition can and cannot do *)

Module StateStepsFacts.
Import State StateSpec StateSteps StateFacts.

Lemma mapping_lookup_known (s : string) (st : PatchState) :
  mapping !! s = Some st → s = code st.
Proof.
  intros Hl. destruct (decide (s ∈ chain)) as [Hin|Hout].
  - unfold chain in Hin. rewrite !elem_of_cons in Hin.
    destruct Hin as [->|[->|[->|[->|[->|[->|[->|Hin]]]]]]];
      try (vm_compute in Hl; by inversion Hl).
    by apply not_elem_of_nil in Hin.
  - by rewrite mapping_lookup_outside in Hl.
Qed.

Lemma or_default_known (c : option string) (st : PatchState) :
  st ≠ DevEvidenceCapturedState →
  or_default c = code st → c = Some (code st).
Proof.
  intros Hst. destruct c as [[|a s]|]; simpl; intros Heq.
  - by destruct st.
  - by rewrite Heq.
  - by destruct st.
Qed.

Lemma state_of_known (e : PatchEvent) (st : PatchState) :
  st ≠ DevEvidenceCapturedState →
  state_of e = st → current_state_code e = Some (code st).
Proof.
  unfold state_of. intros Hst Heq.
  destruct (mapping !! or_default (current_state_code e)) as [st'|] eqn:Hl;
    simpl in Heq; [subst st'|congruence].
  apply or_default_known; [done|]. by apply mapping_lookup_known.
Qed.

Lemma state_of_code (e : PatchEvent) (st : PatchState) :
  current_state_code e = Some (code st) → state_of e = st.
Proof. unfold state_of. intros ->. by destruct st. Qed.

Lemma get_state_for_event_state_of (e : PatchEvent) :
  get_state_for_event e = (Returned (state_of e), e).
Proof. reflexivity. Qed.

Lemma allowed_transitions_offered (e : PatchEvent) :
  allowed_transitions (state_of e) e = (Returned (offered e), e).
Proof.
  unfold offered. destruct (allowed_transitions_pure (state_of e) e) as [l Hl].
  by rewrite Hl.
Qed.

Lemma rank_le_six (st : PatchState) : (rank st ≤ 6)%nat.
Proof. destruct st; simpl; lia. Qed.

Lemma chain_rank (st : PatchState) : chain !! rank st = Some (code st).
Proof. by destruct st. Qed.

Lemma allowed_transitions_successor (st : PatchState) (e : PatchEvent) :
  ∃ l, allowed_transitions st e = (Returned l, e)
       ∧ (length l ≤ 1)%nat
       ∧ ∀ c, c ∈ l → chain !! S (rank st) = Some c.
Proof.
  destruct st; cbn; unfold mbind, M_bind, _has_dev_evidence, gets;
    try destruct (dev_evidence_available e); cbn;
    eexists; (split; [reflexivity|]); (split; [simpl; lia|]);
    intros c Hc;
    first [ by apply not_elem_of_nil in Hc
          | apply list_elem_of_singleton in Hc; by subst c ].
Qed.

Lemma allowed_transitions_with_evidence (st : PatchState) (e : PatchEvent) :
  dev_evidence_available e = true →
  allowed_transitions st e = (Returned (take 1 (drop (S (rank st)) chain)), e).
Proof.
  intros Hev. destruct st; cbn; unfold mbind, M_bind, _has_dev_evidence, gets;
    rewrite ?Hev; reflexivity.
Qed.

Lemma allowed_transitions_guarded (st : PatchState) (e : PatchEvent) :
  dev_evidence_available e = false →
  st ∈ [DevVerifiedState; StageCrReadyState; StagePatchedState; ProdCrReadyState] →
  allowed_transitions st e = (Returned [], e).
Proof.
  intros Hev Hst. rewrite !elem_of_cons in Hst.
  destruct Hst as [->|[->|[->|[->|Hst]]]]; [..|by apply not_elem_of_nil in Hst];
    cbn; unfold mbind, M_bind, _has_dev_evidence, gets; by rewrite Hev.
Qed.

(** X1: whatever the state and the event, [allowed_transitions] returns at
    most one code, leaves the event untouched, and a code it returns is the
    immediate successor of the state's code in the chain: the machine never
    branches, never skips a state and never goes back.  With the evidence
    flag on, every state but CLOSED offers its successor. *)
Theorem allowed_targets_are_successors (st : PatchState) (e : PatchEvent) :
  ∃ l, allowed_transitions st e = (Returned l, e)
       ∧ (length l ≤ 1)%nat
       ∧ (∀ c, c ∈ l → chain !! S (rank st) = Some c)
       ∧ (dev_evidence_available e = true → st ≠ ClosedState →
          chain !! S (rank st) = head l ∧ length l = 1%nat).
Proof.
  destruct (allowed_transitions_successor st e) as (l & Hl & Hlen & Hnext).
  exists l. split; [done|]. split; [done|]. split; [done|].
  intros Hev Hst. rewrite (allowed_transitions_with_evidence st e Hev) in Hl.
  injection Hl as <-. by destruct st.
Qed.

Lemma offered_closed_only_from_prod_patched (e : PatchEvent) :
  CLOSED ∈ offered e → current_state_code e = Some PROD_PATCHED.
Proof.
  intros Hin.
  destruct (allowed_transitions_successor (state_of e) e) as (l & Hl & _ & Hnext).
  rewrite allowed_transitions_offered in Hl. injection Hl as <-.
  specialize (Hnext _ Hin).
  apply (state_of_known e ProdPatchedState); [done|].
  destruct (state_of e); by vm_compute in Hnext.
Qed.

Lemma transition_patch_event_cases (e : PatchEvent) (target_code : string) :
  transition_patch_event target_code e =
    if bool_decide (target_code = CLOSED)
       && bool_decide (current_state_code e ≠ Some PROD_PATCHED)
    then (Raised (ValueError close_message), e)
    else if bool_decide (target_code ∈ offered e)
         then (Returned tt, set_current_state_code target_code e)
         else (Raised (ValueError
                 (not_allowed_message (code (state_of e)) target_code)), e).
Proof.
  unfold transition_patch_event, can_transition_to.
  rewrite (SyntheticDataFacts.bind_returned _ _ _ _ _ (get_state_for_event_state_of e)).
  rewrite (SyntheticDataFacts.bind_returned _ _ e e (current_state_code e)) by done.
  destruct (_ && _); [reflexivity|].
  rewrite (SyntheticDataFacts.bind_returned _ _ e e (bool_decide (target_code ∈ offered e)))
    by (by rewrite (SyntheticDataFacts.bind_returned _ _ _ _ _
                      (allowed_transitions_offered e))).
  by destruct (bool_decide _).
Qed.

(** X2: a transition attempt succeeds exactly when the target is among the
    codes the event's state offers; the standalone close check never turns
    an offered target down.  On success the stored code of the event is the
    target and every other attribute is as it was; otherwise a [ValueError]
    is raised and the event is as it was. *)
Theorem transition_succeeds_iff_offered (e : PatchEvent) (target_code : string) :
  (target_code ∈ offered e →
   ∃ e', transition_patch_event target_code e = (Returned tt, e')
         ∧ current_state_code e' = Some target_code
         ∧ keeps_other_attributes e e')
  ∧ (target_code ∉ offered e →
     ∃ msg, transition_patch_event target_code e = (Raised (ValueError msg), e)).
Proof.
  rewrite transition_patch_event_cases. split.
  - intros Hin. rewrite (bool_decide_eq_true_2 _ Hin).
    assert (bool_decide (target_code = CLOSED)
            && bool_decide (current_state_code e ≠ Some PROD_PATCHED) = false) as ->.
    { destruct (decide (target_code = CLOSED)) as [->|Hne].
      - rewrite (bool_decide_eq_false_2 (_ ≠ _)); [by rewrite andb_false_r|].
        intros Hne. apply Hne. by apply offered_closed_only_from_prod_patched.
      - by rewrite (bool_decide_eq_false_2 _ Hne). }
    eexists. split; [reflexivity|]. split; [reflexivity|].
    unfold keeps_other_attributes. simpl. tauto.
  - intros Hout. rewrite (bool_decide_eq_false_2 _ Hout).
    destruct (_ && _); by eexists.
Qed.

Lemma transition_returns_inv (e e' : PatchEvent) (target_code : string) :
  transition_patch_event target_code e = (Returned tt, e') →
  target_code ∈ offered e ∧ e' = set_current_state_code target_code e.
Proof.
  rewrite transition_patch_event_cases. destruct (_ && _); [done|].
  destruct (bool_decide (target_code ∈ offered e)) eqn:Hin; [|done].
  apply bool_decide_eq_true_1 in Hin. by intros [= <-].
Qed.

Lemma offered_target_rank (e : PatchEvent) (target_code : string) :
  target_code ∈ offered e →
  rank (state_of (set_current_state_code target_code e)) = S (rank (state_of e)).
Proof.
  intros Hin.
  destruct (allowed_transitions_successor (state_of e) e) as (l & Hl & _ & Hnext).
  rewrite allowed_transitions_offered in Hl. injection Hl as <-.
  specialize (Hnext _ Hin). unfold state_of at 1. simpl.
  destruct (state_of e); vm_compute in Hnext; try done;
    injection Hnext as <-; reflexivity.
Qed.

(** X3: a run of successful transition attempts climbs the chain one state
    per attempt: after [n] successes the event's state is [n] places further
    in the chain, so no event ever undergoes more than six transitions and
    none ever returns to an earlier state. *)
Theorem successful_transitions_climb
    (targets : list string) (e e' : PatchEvent) :
  transitions targets e = (Returned tt, e') →
  rank (state_of e') = (rank (state_of e) + length targets)%nat
  ∧ (length targets ≤ 6)%nat.
Proof.
  intros Hrun.
  assert (rank (state_of e') = (rank (state_of e) + length targets)%nat) as Hrank.
  { revert e Hrun. induction targets as [|t ts IH]; intros e Hrun.
    - injection Hrun as <-. simpl. lia.
    - unfold transitions in Hrun. cbn [for_each] in Hrun.
      destruct (transition_patch_event t e) as [[[]|ex] e1] eqn:Hstep; [|done].
      apply transition_returns_inv in Hstep as [Hin ->].
      rewrite (IH _ Hrun), (offered_target_rank e t Hin). simpl. lia. }
  split; [done|]. pose proof (rank_le_six (state_of e')). lia.
Qed.

Lemma successful_transitions_climb_witness :
  rank (state_of (set_current_state_code CLOSED (staged true)))
  = (rank (state_of (staged true)) + length [PROD_CR_READY; PROD_PATCHED; CLOSED])%nat
  ∧ (length [PROD_CR_READY; PROD_PATCHED; CLOSED] ≤ 6)%nat.
Proof.
  apply (successful_transitions_climb [PROD_CR_READY; PROD_PATCHED; CLOSED]
           (staged true) (set_current_state_code CLOSED (staged true))).
  reflexivity.
Defined.

Lemma stuck_offers_nothing (e : PatchEvent) : stuck e → offered e = [].
Proof.
  intros [Hc|(Hev & c & Hin & Hc)]; unfold offered.
  - by rewrite (state_of_code e ClosedState Hc).
  - rewrite !elem_of_cons in Hin.
    destruct Hin as [->|[->|[->|[->|Hin]]]]; [..|by apply not_elem_of_nil in Hin].
    + rewrite (state_of_code e DevVerifiedState Hc).
      rewrite allowed_transitions_guarded; [done..|]. set_solver.
    + rewrite (state_of_code e StageCrReadyState Hc).
      rewrite allowed_transitions_guarded; [done..|]. set_solver.
    + rewrite (state_of_code e StagePatchedState Hc).
      rewrite allowed_transitions_guarded; [done..|]. set_solver.
    + rewrite (state_of_code e ProdCrReadyState Hc).
      rewrite allowed_transitions_guarded; [done..|]. set_solver.
Qed.

(** X4: a closed event, and an event that waits without evidence in
    DEV_VERIFIED, STAGE_CR_READY, STAGE_PATCHED or PROD_CR_READY, cannot
    move: every transition attempt, whatever the target, raises
    [ValueError] and leaves the event as it was. *)
Theorem stuck_event_rejects_every_target (e : PatchEvent) (target_code : string) :
  stuck e →
  ∃ msg, transition_patch_event target_code e = (Raised (ValueError msg), e).
Proof.
  intros Hstuck. rewrite transition_patch_event_cases.
  rewrite (stuck_offers_nothing e Hstuck).
  rewrite (bool_decide_eq_false_2 (target_code ∈ [])) by apply not_elem_of_nil.
  destruct (_ && _); by eexists.
Qed.

Lemma stuck_event_rejects_every_target_witness :
  ∃ msg,
    transition_patch_event PROD_CR_READY (staged false)
    = (Raised (ValueError msg), staged false).
Proof.
  apply (stuck_event_rejects_every_target (staged false) PROD_CR_READY).
  right. split; [reflexivity|]. exists STAGE_PATCHED. split; [|reflexivity].
  rewrite !elem_of_cons. tauto.
Defined.

Lemma transition_to_successor (e : PatchEvent) (st : PatchState) (c : string) :
  dev_evidence_available e = true →
  state_of e = st →
  chain !! S (rank st) = Some c →
  transition_patch_event c e = (Returned tt, set_current_state_code c e).
Proof.
  intros Hev Hst Hc. rewrite transition_patch_event_cases.
  assert (offered e = take 1 (drop (S (rank st)) chain)) as Hoff.
  { unfold offered. by rewrite Hst, (allowed_transitions_with_evidence st e Hev). }
  assert (c ∈ offered e) as Hin.
  { rewrite Hoff. destruct st; vm_compute in Hc; try done;
      injection Hc as <-; by apply list_elem_of_singleton. }
  rewrite (bool_decide_eq_true_2 _ Hin).
  destruct (decide (c = CLOSED)) as [->|Hne].
  - rewrite (bool_decide_eq_false_2 (_ ≠ _)); [by rewrite andb_false_r|].
    intros Hne. apply Hne. by apply offered_closed_only_from_prod_patched.
  - by rewrite (bool_decide_eq_false_2 _ Hne).
Qed.

Lemma walk_from (st : PatchState) (e : PatchEvent) :
  dev_evidence_available e = true →
  state_of e = st →
  transitions (drop (S (rank st)) chain) e
  = (Returned tt,
     if decide (st = ClosedState) then e else set_current_state_code CLOSED e).
Proof.
  intros Hev Hst.
  assert (∀ c e1, dev_evidence_available e1 = true →
                  dev_evidence_available (set_current_state_code c e1) = true)
    as Hkeep by done.
  assert (∀ st1 e1, state_of (set_current_state_code (code st1) e1) = st1)
    as Hset by (intros st1 e1; by apply state_of_code).
  assert (∀ st1 c e1, dev_evidence_available e1 = true → state_of e1 = st1 →
                      chain !! S (rank st1) = Some c →
                      ∀ ts, transitions (c :: ts) e1
                            = transitions ts (set_current_state_code c e1)) as Hstep.
  { intros st1 c e1 Hev1 Hst1 Hc ts. unfold transitions. cbn [for_each].
    by rewrite (transition_to_successor e1 st1 c Hev1 Hst1 Hc). }
  destruct st; cbn [rank drop chain];
    repeat (erewrite Hstep;
            [| first [exact Hev | by apply Hkeep]
             | first [exact Hst | apply (Hset DevVerifiedState)
                     | apply (Hset StageCrReadyState) | apply (Hset StagePatchedState)
                     | apply (Hset ProdCrReadyState) | apply (Hset ProdPatchedState)
                     | apply (Hset ClosedState)]
             | reflexivity]);
    reflexivity.
Qed.

(** X5: with the evidence flag on, an event can always be walked to the end
    of the chain: from whatever state it resolves to, requesting the
    remaining codes of the chain in order succeeds at every step and leaves
    the event CLOSED, all its other attributes being as they were. *)
Theorem walk_to_closed (e : PatchEvent) :
  dev_evidence_available e = true →
  transitions (drop (S (rank (state_of e))) chain) e
  = (Returned tt,
     if decide (state_of e = ClosedState) then e
     else set_current_state_code CLOSED e).
Proof. intros Hev. by apply walk_from. Qed.

Lemma walk_to_closed_witness :
  transitions (drop (S (rank (state_of uncoded_event))) chain) uncoded_event
  = (Returned tt,
     if decide (state_of uncoded_event = ClosedState) then uncoded_event
     else set_current_state_code CLOSED uncoded_event).
Proof. apply (walk_to_closed uncoded_event). reflexivity. Defined.

End StateStepsFacts.

(** ** Evidence diff engine: algebra of the diff and of the histogram *)

Module DiffPartsFacts.
Import Diff DiffSpec DiffSplit DiffParts DiffFacts.

Section diff.
Implicit Types before after : list Vulnerability.

Lemma still_present_complement before after :
  still_present before after
  = filter (λ v, ¬ (synthetic_id v ∉ synthetic_id <$> after)) before.
Proof.
  unfold still_present, ids. apply list_filter_iff. intros v.
  destruct (decide (synthetic_id v ∈ synthetic_id <$> after)); tauto.
Qed.

Lemma fixed_and_present_partition before after :
  compute_fixed_vulnerabilities before after ++ still_present before after
  ≡ₚ before.
Proof.
  rewrite compute_fixed_as_list_filter, still_present_complement.
  apply filter_app_complement.
Qed.

Lemma compute_fixed_same_keys before after after' :
  (∀ i, i ∈ ids after ↔ i ∈ ids after') →
  compute_fixed_vulnerabilities before after
  = compute_fixed_vulnerabilities before after'.
Proof.
  intros Hsame. rewrite !compute_fixed_as_list_filter.
  apply list_filter_iff. intros v. unfold ids in Hsame. by rewrite Hsame.
Qed.

Lemma compute_fixed_twice before after1 after2 :
  compute_fixed_vulnerabilities (compute_fixed_vulnerabilities before after1) after2
  = compute_fixed_vulnerabilities before (after1 ++ after2).
Proof.
  rewrite !compute_fixed_as_list_filter, list_filter_filter.
  apply list_filter_iff. intros v. rewrite fmap_app, elem_of_app. tauto.
Qed.

End diff.

(** X6: diffing twice is diffing against both AFTER lists at once; hence the
    diff is idempotent, successive diffs commute, and a list diffed against
    itself leaves nothing. *)
Theorem compute_fixed_composes (before after1 after2 : list Vulnerability) :
  compute_fixed_vulnerabilities (compute_fixed_vulnerabilities before after1) after2
  = compute_fixed_vulnerabilities before (after1 ++ after2)
  ∧ compute_fixed_vulnerabilities (compute_fixed_vulnerabilities before after1) after2
    = compute_fixed_vulnerabilities (compute_fixed_vulnerabilities before after2) after1
  ∧ compute_fixed_vulnerabilities (compute_fixed_vulnerabilities before after1) after1
    = compute_fixed_vulnerabilities before after1
  ∧ compute_fixed_vulnerabilities before before = [].
Proof.
  split; [apply compute_fixed_twice|]. split; [|split].
  - rewrite !compute_fixed_twice. apply compute_fixed_same_keys.
    intros i. unfold ids. rewrite !fmap_app, !elem_of_app. tauto.
  - rewrite compute_fixed_twice. apply compute_fixed_same_keys.
    intros i. unfold ids. rewrite !fmap_app, !elem_of_app. tauto.
  - rewrite compute_fixed_as_list_filter.
    apply SyntheticDataFacts.filter_drop_all, Forall_forall.
    intros v Hv Hout. apply Hout. by apply list_elem_of_fmap_2.
Qed.

(** X7: the diff loses nothing: the fixed records together with the BEFORE
    records whose key is still among the AFTER keys are BEFORE again, up to
    order; no fixed record has a key that occurs in AFTER; and the fixed
    records are never more than the BEFORE records. *)
Theorem fixed_and_present_split_before (before after : list Vulnerability) :
  compute_fixed_vulnerabilities before after ++ still_present before after ≡ₚ before
  ∧ (length (compute_fixed_vulnerabilities before after)
     + length (still_present before after) = length before)%nat
  ∧ (∀ v, v ∈ compute_fixed_vulnerabilities before after → synthetic_id v ∉ ids after)
  ∧ (length (compute_fixed_vulnerabilities before after) ≤ length before)%nat.
Proof.
  pose proof (fixed_and_present_partition before after) as Hperm.
  assert (length (compute_fixed_vulnerabilities before after)
          + length (still_present before after) = length before)%nat as Hlen.
  { by rewrite <- length_app, Hperm. }
  split; [done|]. split; [done|]. split; [|lia].
  intros v. rewrite compute_fixed_as_list_filter, list_elem_of_filter. tauto.
Qed.

(** X8: the diff looks at AFTER only through the set of its keys: two AFTER
    lists with the same keys give the same result, so the order of AFTER and
    repeated AFTER records never matter; and it distributes over the
    concatenation of BEFORE lists. *)
Theorem compute_fixed_reads_after_keys (before before' after after' : list Vulnerability) :
  ((∀ i, i ∈ ids after ↔ i ∈ ids after') →
   compute_fixed_vulnerabilities before after
   = compute_fixed_vulnerabilities before after')
  ∧ (after ≡ₚ after' →
     compute_fixed_vulnerabilities before after
     = compute_fixed_vulnerabilities before after')
  ∧ compute_fixed_vulnerabilities before (after ++ after)
    = compute_fixed_vulnerabilities before after
  ∧ compute_fixed_vulnerabilities (before ++ before') after
    = compute_fixed_vulnerabilities before after
      ++ compute_fixed_vulnerabilities before' after.
Proof.
  split; [apply compute_fixed_same_keys|]. split; [|split].
  - intros Hperm. apply compute_fixed_same_keys. intros i. unfold ids.
    by rewrite Hperm.
  - apply compute_fixed_same_keys. intros i. unfold ids.
    rewrite fmap_app, elem_of_app. tauto.
  - rewrite !compute_fixed_as_list_filter. apply filter_app.
Qed.

Lemma NoDup_submseteq_l {A} (l k : list A) : NoDup k → l ⊆+ k → NoDup l.
Proof.
  intros Hk Hsub. apply submseteq_sublist_l in Hsub as (l' & Hsub & Hperm).
  eapply sublist_NoDup; [|exact Hsub]. by rewrite Hperm.
Qed.

Lemma still_present_keys (before after : list Vulnerability) :
  NoDup (ids before) →
  ids after ⊆+ ids before →
  ids (still_present before after) ≡ₚ ids after.
Proof.
  intros Hnd Hsub. apply NoDup_Permutation.
  - eapply sublist_NoDup; [exact Hnd|].
    unfold ids, still_present. apply fmap_sublist, sublist_filter.
  - by eapply NoDup_submseteq_l.
  - intros i. unfold ids at 1. unfold still_present.
    rewrite list_elem_of_fmap. split.
    + intros (v & -> & Hv). apply list_elem_of_filter in Hv. tauto.
    + intros Hi. pose proof (elem_of_submseteq _ _ _ Hi Hsub) as Hb.
      unfold ids in Hb. apply list_elem_of_fmap in Hb as (v & -> & Hv).
      exists v. split; [done|]. by apply list_elem_of_filter.
Qed.

Lemma carried_over_count (before after : list Vulnerability) :
  NoDup (ids before) →
  ids after ⊆+ ids before →
  (length (compute_fixed_vulnerabilities before after) + length after
   = length before)%nat.
Proof.
  intros Hnd Hsub.
  pose proof (fixed_and_present_partition before after) as Hperm.
  pose proof (still_present_keys before after Hnd Hsub) as Hkeys.
  apply Permutation_length in Hkeys. unfold ids in Hkeys.
  rewrite !length_fmap in Hkeys.
  rewrite <- Hkeys, <- length_app. by rewrite Hperm.
Qed.

(** X9: when the BEFORE keys are pairwise distinct and the AFTER keys are
    taken from them without repetition, as for a carried-over AFTER
    snapshot, the keys still present are exactly the AFTER keys, and the
    number of fixed records is the number of BEFORE records less the number
    of AFTER records. *)
Theorem fixed_count_of_carried_over (before after : list Vulnerability) :
  NoDup (ids before) →
  ids after ⊆+ ids before →
  ids (still_present before after) ≡ₚ ids after
  ∧ (length (compute_fixed_vulnerabilities before after) + length after
     = length before)%nat.
Proof.
  intros Hnd Hsub. split; [by apply still_present_keys|by apply carried_over_count].
Qed.

Lemma fixed_count_of_carried_over_witness :
  ids (still_present
         [vuln "VULN-0001-0001" HIGH; vuln "VULN-0001-0002" LOW;
          vuln "VULN-0001-0003" LOW]
         [vuln "VULN-0001-0003" MEDIUM])
  ≡ₚ ids [vuln "VULN-0001-0003" MEDIUM]
  ∧ (length (compute_fixed_vulnerabilities
               [vuln "VULN-0001-0001" HIGH; vuln "VULN-0001-0002" LOW;
                vuln "VULN-0001-0003" LOW]
               [vuln "VULN-0001-0003" MEDIUM])
     + length [vuln "VULN-0001-0003" MEDIUM]
     = length [vuln "VULN-0001-0001" HIGH; vuln "VULN-0001-0002" LOW;
               vuln "VULN-0001-0003" LOW])%nat.
Proof.
  apply (fixed_count_of_carried_over
           [vuln "VULN-0001-0001" HIGH; vuln "VULN-0001-0002" LOW;
            vuln "VULN-0001-0003" LOW]
           [vuln "VULN-0001-0003" MEDIUM]).
  - apply (bool_decide_unpack _). by vm_compute.
  - apply (bool_decide_unpack _). by vm_compute.
Defined.

Section histogram.
Implicit Types vs : list Vulnerability.

Lemma occurrences_of_severity (s : Severity) vs :
  occurrences s (severity <$> vs) = length (of_severity s vs).
Proof.
  unfold occurrences, of_severity. induction vs as [|v vs IH]; [done|].
  rewrite fmap_cons, !filter_cons. destruct (decide (severity v = s)); simpl; lia.
Qed.

Lemma count_by_severity_lookup vs (s : Severity) :
  count_by_severity vs !! s = Some (length (of_severity s vs)).
Proof.
  rewrite count_by_severity_unfold, !occurrences_of_severity.
  destruct s;
    repeat first [ rewrite lookup_insert_eq | rewrite lookup_insert_ne by done ];
    done.
Qed.

Lemma of_severity_app (s : Severity) vs vs' :
  of_severity s (vs ++ vs') = of_severity s vs ++ of_severity s vs'.
Proof. apply filter_app. Qed.

End histogram.

(** X10: looking a severity up in the histogram always succeeds and gives
    the number of records of that severity; the histogram does not depend
    on the order of the records, and the histogram of a concatenation adds
    the two histograms up. *)
Theorem count_by_severity_counts (vs vs' : list Vulnerability) (s : Severity) :
  count_by_severity vs !! s = Some (length (of_severity s vs))
  ∧ count_by_severity (vs ++ vs') !! s
    = Some (length (of_severity s vs) + length (of_severity s vs'))%nat
  ∧ (vs ≡ₚ vs' → count_by_severity vs = count_by_severity vs').
Proof.
  split; [apply count_by_severity_lookup|]. split.
  - by rewrite count_by_severity_lookup, of_severity_app, length_app.
  - intros Hperm. apply map_eq. intros s'.
    rewrite !count_by_severity_lookup. unfold of_severity. by rewrite Hperm.
Qed.

(** X11: per severity, the BEFORE count is the fixed count plus the count of
    the BEFORE records still present in AFTER; so no severity of the fixed
    histogram exceeds the BEFORE histogram, and the fixed histogram adds up
    to the number of fixed records. *)
Theorem fixed_histogram_within_before
    (before after : list Vulnerability) (s : Severity) :
  ∃ nb nf np,
    count_by_severity before !! s = Some nb
    ∧ count_by_severity (compute_fixed_vulnerabilities before after) !! s = Some nf
    ∧ count_by_severity (still_present before after) !! s = Some np
    ∧ nb = (nf + np)%nat
    ∧ sum_values (count_by_severity (compute_fixed_vulnerabilities before after))
      = length (compute_fixed_vulnerabilities before after).
Proof.
  eexists _, _, _. rewrite !count_by_severity_lookup.
  split; [done|]. split; [done|]. split; [done|]. split.
  - rewrite <- length_app, <- of_severity_app. unfold of_severity.
    by rewrite fixed_and_present_partition.
  - rewrite count_by_severity_unfold, sum_values_four, occurrences_total.
    apply length_fmap.
Qed.

Section split.
Implicit Types snapshots : list SnapshotObject.

Lemma tagged_snoc (ty : SnapshotType) snapshots (x : SnapshotObject) :
  tagged ty (snapshots ++ [x])
  = tagged ty snapshots
    ++ (if decide (snapshot_type (row x) = ty) then loaded_vulnerabilities x else []).
Proof.
  unfold tagged. by rewrite fmap_app, concat_app, fmap_cons, concat_cons, app_nil_r.
Qed.

Lemma extract_buckets snapshots :
  extract_before_after_vulnerabilities snapshots !! BEFORE
  = Some (tagged BEFORE snapshots)
  ∧ extract_before_after_vulnerabilities snapshots !! AFTER
    = Some (tagged AFTER snapshots).
Proof.
  unfold extract_before_after_vulnerabilities.
  induction snapshots as [|x snapshots IH] using rev_ind; [done|].
  rewrite foldl_app. cbn [foldl]. rewrite !tagged_snoc.
  destruct IH as [Hb Ha].
  destruct (snapshot_type (row x)) eqn:Hty; cbn zeta.
  - rewrite Hb, lookup_insert_eq, lookup_insert_ne, Ha by done.
    by rewrite decide_True, decide_False, app_nil_r by done.
  - rewrite Ha, lookup_insert_eq, lookup_insert_ne, Hb by done.
    by rewrite decide_False, decide_True, app_nil_r by done.
Qed.

End split.

(** X12: the mapping returned by [extract_before_after_vulnerabilities]
    always has the two keys BEFORE and AFTER, also for no snapshots at all,
    so that reading either key never fails; each bucket holds the
    vulnerabilities of the snapshots of its tag, in snapshot order, and
    nothing of a snapshot of the other tag. *)
Theorem extract_gives_both_buckets (snapshots : list SnapshotObject) :
  extract_before_after_vulnerabilities snapshots !! BEFORE
  = Some (tagged BEFORE snapshots)
  ∧ extract_before_after_vulnerabilities snapshots !! AFTER
    = Some (tagged AFTER snapshots)
  ∧ extract_before_after_vulnerabilities [] !! BEFORE = Some []
  ∧ extract_before_after_vulnerabilities [] !! AFTER = Some [].
Proof.
  destruct (extract_buckets snapshots) as [Hb Ha].
  split; [done|]. split; [done|]. split; done.
Qed.

End DiffPartsFacts.

(** ** Synthetic snapshot generator: keys, records and invariants *)

Module GeneratorShapeFacts.
Import SyntheticData SyntheticDataSpec GeneratorShape SyntheticDataFacts.
Import Diff DiffParts.

(** *** Zero-padded decimals can be read back *)

Lemma digit_of_pretty_N_char (d : N) :
  (d < 10)%N → digit_of (pretty_N_char d) = Some d.
Proof.
  intros Hd.
  assert (d = 0 ∨ d = 1 ∨ d = 2 ∨ d = 3 ∨ d = 4 ∨ d = 5 ∨ d = 6 ∨ d = 7
          ∨ d = 8 ∨ d = 9)%N as Hcases by lia.
  repeat (destruct Hcases as [->|Hcases]; [reflexivity|]). by subst d.
Qed.

Lemma append_cons (c : ascii) (s t : string) :
  String c s +:+ t = String c (s +:+ t).
Proof. reflexivity. Qed.

Lemma append_assoc (s1 s2 s3 : string) : (s1 +:+ s2) +:+ s3 = s1 +:+ (s2 +:+ s3).
Proof.
  induction s1 as [|c s1 IH]; [done|]. by rewrite !append_cons, IH.
Qed.

Lemma append_cancel_l (s x y : string) : s +:+ x = s +:+ y → x = y.
Proof. apply String.app_inj. Qed.

Lemma pretty_N_go_append (x : N) (s : string) :
  pretty_N_go x s = pretty_N_go x "" +:+ s.
Proof.
  revert s. induction (N.lt_wf_0 x) as [x _ IH]; intros s.
  assert (x = 0 ∨ 0 < x)%N as [->|Hx] by lia; [done|].
  assert (x `div` 10 < x)%N as Hlt by (by apply N.div_lt).
  rewrite !(pretty_N_go_step x) by done.
  rewrite (IH _ Hlt (String _ s)), (IH _ Hlt (String _ "")).
  by rewrite append_assoc.
Qed.

Lemma read_pretty_N_go (x : N) :
  ∃ k : N, ∀ acc s,
    read_number acc (pretty_N_go x s) = read_number (acc * 10 ^ k + x) s.
Proof.
  induction (N.lt_wf_0 x) as [x _ IH].
  assert (x = 0 ∨ 0 < x)%N as [->|Hx] by lia.
  - exists 0%N. intros acc s. rewrite pretty_N_go_0. f_equal. lia.
  - destruct (IH (x `div` 10)%N) as [k Hk]; [by apply N.div_lt|].
    exists (k + 1)%N. intros acc s.
    rewrite pretty_N_go_step, Hk by done. cbn [read_number].
    rewrite digit_of_pretty_N_char by (by apply N.mod_lt).
    f_equal. rewrite N.pow_add_r, N.pow_1_r.
    pose proof (N.div_mod x 10). lia.
Qed.

Lemma read_pretty_N (x : N) (rest : string) :
  read_number 0 (pretty x +:+ rest) = read_number x rest.
Proof.
  unfold pretty, pretty_N. case_decide as Hx; [by subst x|].
  rewrite <- pretty_N_go_append. destruct (read_pretty_N_go x) as [k Hk].
  rewrite Hk. f_equal.
Qed.

Lemma read_pretty_Z (n : Z) (rest : string) :
  0 ≤ n → read_number 0 (pretty n +:+ rest) = read_number (Z.to_N n) rest.
Proof.
  intros Hn. destruct n as [|p|p]; [done| |lia].
  change (pretty (Z.pos p)) with (pretty (N.pos p)). apply read_pretty_N.
Qed.

Lemma zeros_succ (k : nat) :
  String.concat "" (replicate (S k) "0")
  = String "0" (String.concat "" (replicate k "0")).
Proof. by destruct k. Qed.

Lemma read_zfill (width : nat) (s rest : string) :
  read_number 0 (zfill width s +:+ rest) = read_number 0 (s +:+ rest).
Proof.
  unfold zfill. induction (width - String.length s)%nat as [|k IH]; [done|].
  rewrite zeros_succ. exact IH.
Qed.

Lemma read_format_d (width : nat) (n : Z) (rest : string) :
  0 ≤ n →
  read_number 0 (format_d width n +:+ rest) = read_number (Z.to_N n) rest.
Proof.
  intros Hn. unfold format_d. rewrite bool_decide_eq_false_2 by lia.
  rewrite read_zfill. by apply read_pretty_Z.
Qed.

Lemma format_d_inj (width : nat) (a b : Z) :
  0 ≤ a → 0 ≤ b → format_d width a = format_d width b → a = b.
Proof.
  intros Ha Hb Heq.
  pose proof (read_format_d width a "" Ha) as Hra.
  pose proof (read_format_d width b "" Hb) as Hrb.
  rewrite Heq, Hrb in Hra. simpl in Hra. lia.
Qed.

Lemma key_inj (a b c d : Z) :
  0 ≤ a → 0 ≤ b → 0 ≤ c → 0 ≤ d →
  "VULN-" +:+ format_d 4 a +:+ "-" +:+ format_d 4 b
  = "VULN-" +:+ format_d 4 c +:+ "-" +:+ format_d 4 d →
  a = c ∧ b = d.
Proof.
  intros Ha Hb Hc Hd Heq. apply (append_cancel_l "VULN-") in Heq.
  assert (a = c) as <-.
  { pose proof (read_format_d 4 a ("-" +:+ format_d 4 b) Ha) as Hra.
    pose proof (read_format_d 4 c ("-" +:+ format_d 4 d) Hc) as Hrc.
    rewrite Heq, Hrc in Hra. simpl in Hra. lia. }
  split; [done|].
  apply append_cancel_l, (append_cancel_l "-") in Heq.
  by apply (format_d_inj 4).
Qed.

Lemma key_inj_index (sid a b : Z) :
  0 ≤ a → 0 ≤ b →
  "VULN-" +:+ format_d 4 sid +:+ "-" +:+ format_d 4 a
  = "VULN-" +:+ format_d 4 sid +:+ "-" +:+ format_d 4 b →
  a = b.
Proof.
  intros Ha Hb Heq.
  apply (append_cancel_l "VULN-"), append_cancel_l, (append_cancel_l "-") in Heq.
  by apply (format_d_inj 4).
Qed.

(** *** What [_build_vulnerability] returns *)

Lemma _build_vulnerability_generated
    (patch_event : PatchEvent) (snapshot : ScanSnapshot) (index : Z) (w : World) :
  ∃ v w', _build_vulnerability patch_event snapshot index w = (Returned v, w')
          ∧ db w' = db w ∧ vulnerability_id v = None
          ∧ generated patch_event snapshot index v.
Proof.
  unfold _build_vulnerability, _choose_severity, _generate_synthetic_cve,
    _generate_synthetic_plugin_id, _generate_synthetic_host.
  destruct (choice_returns [CRITICAL; HIGH; HIGH; MEDIUM; MEDIUM; LOW; LOW; LOW] w)
    as (sev & w1 & H1 & Hdb1 & _); [done|].
  rewrite (bind_returned _ _ _ _ _ H1).
  destruct (randint_returns 2090 2099 w1) as (year & w2 & H2 & Hdb2 & Hyear); [lia|].
  destruct (randint_returns 1000 99999 w2) as (ident & w3 & H3 & Hdb3 & Hident); [lia|].
  destruct (randint_returns 10000 99999 w3) as (plug & w4 & H4 & Hdb4 & Hplug); [lia|].
  destruct (randint_returns 1 9 w4) as (idx & w5 & H5 & Hdb5 & Hidx); [lia|].
  eexists _, w5.
  rewrite (bind_returned (year ← randint 2090 2099; _) _ w1 w3
             ("CVE-" +:+ pretty year +:+ "-" +:+ format_d 5 ident)).
  2:{ rewrite (bind_returned _ _ _ _ _ H2). by rewrite (bind_returned _ _ _ _ _ H3). }
  rewrite (bind_returned (n ← randint 10000 99999; _) _ w3 w4 ("PLUG-" +:+ pretty plug)).
  2:{ by rewrite (bind_returned _ _ _ _ _ H4). }
  rewrite (bind_returned (index ← randint 1 9; _) _ w4 w5
             (lower (Environment_value (environment patch_event))
              +:+ "-synthetic-" +:+ format_d 2 idx)).
  2:{ by rewrite (bind_returned _ _ _ _ _ H5). }
  split; [reflexivity|]. split; [congruence|]. split; [done|].
  unfold generated. simpl. split; [done|]. split; [done|].
  split; [by exists year, ident|]. split; [by exists plug|]. split; [by exists idx|done].
Qed.

Lemma generated_with_id (patch_event : PatchEvent) (snapshot : ScanSnapshot)
    (index i : Z) (v : Vulnerability) :
  generated patch_event snapshot index v →
  generated patch_event snapshot index (with_vulnerability_id i v).
Proof. done. Qed.

Lemma build_and_add_generated (patch_event : PatchEvent) (snapshot : ScanSnapshot) :
  adds_one (λ index v, scan_snapshot_id v = snapshot_id snapshot
                       ∧ generated patch_event snapshot index v)
    (λ index, vuln ← _build_vulnerability patch_event snapshot index; db_add vuln).
Proof.
  intros index w.
  destruct (_build_vulnerability_generated patch_event snapshot index w)
    as (v & w1 & Hv & Hdb & _ & Hgen).
  eexists _, _. rewrite (bind_returned _ _ _ _ _ Hv).
  split; [reflexivity|]. simpl. rewrite Hdb.
  split; [done|]. split; [done|]. split; [done|].
  split; [apply Hgen | by apply generated_with_id].
Qed.

(** Adding a snapshot and populating it, as both generators do. *)
Lemma add_and_populate
    (patch_event : PatchEvent) (ty : SnapshotType) (count : Z) (w : World) :
  let snapshot :=
    {| snapshot_id := next_snapshot_id (db w);
       patch_event_id := event_id patch_event; snapshot_type := ty |} in
  ∃ new w',
    (snapshot ← db_add_snapshot (event_id patch_event) ty;
     populate patch_event snapshot count;; mret snapshot) w
    = (Returned snapshot, w')
    ∧ grown (event_id patch_event) ty new (db w) (db w')
    ∧ Forall2 (generated patch_event snapshot) (seqZ 1 count) new.
Proof.
  intros snapshot.
  destruct (add_snapshot_and_rows (generated patch_event)
              (λ snapshot index,
                 vuln ← _build_vulnerability patch_event snapshot index; db_add vuln)
              (event_id patch_event) ty (seqZ 1 count) w)
    as (new & w' & Hrun & Hgrown & Hnew).
  { intros snap. apply build_and_add_generated. }
  by exists new, w'.
Qed.

Lemma generate_before_snapshot_rows
    (patch_event : PatchEvent) (vulnerability_count : Z) (w : World) :
  let old := snapshot_id <$> snapshots_of (event_id patch_event) BEFORE (db w) in
  let snapshot :=
    {| snapshot_id := next_snapshot_id (db w);
       patch_event_id := event_id patch_event; snapshot_type := BEFORE |} in
  ∃ new w',
    generate_before_snapshot patch_event vulnerability_count w = (Returned snapshot, w')
    ∧ grown (event_id patch_event) BEFORE new (purge old (db w)) (db w')
    ∧ Forall2 (generated patch_event snapshot) (seqZ 1 vulnerability_count) new.
Proof.
  intros old snapshot.
  destruct (add_and_populate patch_event BEFORE vulnerability_count
              (with_db (purge old) w)) as (new & w' & Hrun & Hgrown & Hnew).
  exists new, w'. split; [|by split].
  unfold generate_before_snapshot.
  rewrite (bind_returned _ _ _ _ _
             (_delete_existing_snapshots_purges (event_id patch_event) BEFORE w)).
  exact Hrun.
Qed.

Lemma generated_keys (patch_event : PatchEvent) (snapshot : ScanSnapshot)
    (indices : list Z) (new : list Vulnerability) :
  Forall2 (generated patch_event snapshot) indices new →
  ids new
  = (λ index, "VULN-" +:+ format_d 4 (snapshot_id snapshot)
              +:+ "-" +:+ format_d 4 index) <$> indices.
Proof.
  unfold ids. induction 1 as [|i v indices new (_ & Hkey & _) _ IH]; [done|].
  by rewrite !fmap_cons, Hkey, IH.
Qed.

Lemma generated_keys_NoDup (patch_event : PatchEvent) (snapshot : ScanSnapshot)
    (count : Z) (new : list Vulnerability) :
  Forall2 (generated patch_event snapshot) (seqZ 1 count) new →
  NoDup (ids new).
Proof.
  intros Hnew. rewrite (generated_keys _ _ _ _ Hnew).
  apply NoDup_fmap_2_strong; [|apply NoDup_seqZ].
  intros a b Ha Hb Heq. apply elem_of_seqZ in Ha, Hb.
  apply (key_inj_index (snapshot_id snapshot)); [lia|lia|done].
Qed.

(** X13: on a consistent session, [generate_before_snapshot] returns a
    snapshot whose records are, in order, the records 1 to [count] that
    [_build_vulnerability] makes: the key [VULN-<snapshot>-<position>], a
    CVE of a year from 2090 to 2099, a plug-in number of five digits, a host
    of the event's environment and the fixed description; and the keys of
    the records are pairwise distinct. *)
Theorem generated_records_have_distinct_keys
    (patch_event : PatchEvent) (vulnerability_count : Z) (w : World) :
  consistent (db w) →
  ∃ snapshot w',
    generate_before_snapshot patch_event vulnerability_count w = (Returned snapshot, w')
    ∧ Forall2 (generated patch_event snapshot) (seqZ 1 vulnerability_count)
        (vulnerabilities_of snapshot (db w'))
    ∧ NoDup (ids (vulnerabilities_of snapshot (db w'))).
Proof.
  intros Hw.
  destruct (generate_before_snapshot_rows patch_event vulnerability_count w)
    as (new & w' & Hrun & Hgrown & Hnew).
  pose proof (grown_rows _ _ _ _ _ Hgrown (purge_consistent _ _ Hw)) as Hrows.
  simpl in Hrows. eexists _, w'. split; [exact Hrun|]. rewrite Hrows.
  split; [exact Hnew|]. by eapply generated_keys_NoDup.
Qed.

Lemma generated_records_have_distinct_keys_witness :
  ∃ snapshot w',
    generate_before_snapshot an_event 20 (fresh_world [4; 8; 15; 16; 23; 42])
    = (Returned snapshot, w')
    ∧ Forall2 (generated an_event snapshot) (seqZ 1 20)
        (vulnerabilities_of snapshot (db w'))
    ∧ NoDup (ids (vulnerabilities_of snapshot (db w'))).
Proof.
  apply (generated_records_have_distinct_keys an_event 20
           (fresh_world [4; 8; 15; 16; 23; 42])).
  apply (bool_decide_unpack _). by vm_compute.
Defined.

(** X14: the key that [_build_vulnerability] gives a record identifies the
    snapshot and the position it was made for: two calls, whatever the
    events and the random draws, return the same [synthetic_id] only for
    the same snapshot key and the same index (keys and indices being
    non-negative, as the database and the generators make them). *)
Theorem keys_identify_snapshot_and_position
    (patch_event patch_event' : PatchEvent) (snapshot snapshot' : ScanSnapshot)
    (index index' : Z) (w w' w1 w1' : World) (v v' : Vulnerability) :
  0 ≤ snapshot_id snapshot → 0 ≤ snapshot_id snapshot' →
  0 ≤ index → 0 ≤ index' →
  _build_vulnerability patch_event snapshot index w = (Returned v, w1) →
  _build_vulnerability patch_event' snapshot' index' w' = (Returned v', w1') →
  synthetic_id v = synthetic_id v' →
  snapshot_id snapshot = snapshot_id snapshot' ∧ index = index'.
Proof.
  intros Hs Hs' Hi Hi' Hv Hv' Heq.
  destruct (_build_vulnerability_generated patch_event snapshot index w)
    as (u & w2 & Hu & _ & _ & (_ & Hkey & _)).
  destruct (_build_vulnerability_generated patch_event' snapshot' index' w')
    as (u' & w2' & Hu' & _ & _ & (_ & Hkey' & _)).
  rewrite Hv in Hu. rewrite Hv' in Hu'.
  injection Hu as -> _. injection Hu' as -> _.
  rewrite Hkey, Hkey' in Heq. by apply key_inj.
Qed.

Lemma keys_identify_snapshot_and_position_witness :
  snapshot_id the_before_snapshot = snapshot_id the_before_snapshot ∧ 3 = 3.
Proof.
  apply (keys_identify_snapshot_and_position an_event an_event
           the_before_snapshot the_before_snapshot 3 3
           (fresh_world [1; 2; 3; 4; 5]) (fresh_world [])
           (_build_vulnerability an_event the_before_snapshot 3
              (fresh_world [1; 2; 3; 4; 5])).2
           (_build_vulnerability an_event the_before_snapshot 3 (fresh_world [])).2
           {| vulnerability_id := None; scan_snapshot_id := 1;
              synthetic_id := "VULN-0001-0003";
              cve := Some "CVE-2092-01003"; plugin_id := Some "PLUG-10004";
              severity := HIGH; host := "dev-synthetic-06";
              description :=
                Some "Synthetic vulnerability used for demonstration only." |}
           {| vulnerability_id := None; scan_snapshot_id := 1;
              synthetic_id := "VULN-0001-0003";
              cve := Some "CVE-2090-01000"; plugin_id := Some "PLUG-10000";
              severity := CRITICAL; host := "dev-synthetic-01";
              description :=
                Some "Synthetic vulnerability used for demonstration only." |});
    try (by vm_compute); reflexivity.
Defined.

(** *** Every outcome of the two generators *)

Lemma generate_before_snapshot_regenerates
    (patch_event : PatchEvent) (count : Z) (w w' : World)
    (o : Outcome ScanSnapshot) :
  generate_before_snapshot patch_event count w = (o, w') →
  regenerated (event_id patch_event) BEFORE (db w) (db w').
Proof.
  destruct (generate_before_snapshot_rows patch_event count w)
    as (new & w2 & Hrun & Hgrown & _).
  rewrite Hrun. intros [= _ <-]. right. by exists new.
Qed.

Lemma generate_after_snapshot_unfold
    (patch_event : PatchEvent) (r1 r2 : float) (w : World) :
  let w1 :=
    with_db (purge (snapshot_id <$> snapshots_of (event_id patch_event) AFTER (db w))) w in
  let before_snapshot := head (snapshots_of (event_id patch_event) BEFORE (db w1)) in
  let before_vulns :=
    match before_snapshot with
    | Some b => vulnerabilities_of b (db w1)
    | None => []
    end in
  generate_after_snapshot patch_event r1 r2 w
  = if bool_decide (before_snapshot = None) || bool_decide (before_vulns = [])
    then (snapshot ← db_add_snapshot (event_id patch_event) AFTER;
          populate patch_event snapshot 10;; mret snapshot) w1
    else
      ('(lo, hi) ← remaining_bounds (Z.of_nat (length before_vulns)) r1 r2;
       carry_branch patch_event before_vulns lo hi) w1.
Proof.
  intros w1 before_snapshot before_vulns. unfold generate_after_snapshot.
  rewrite (bind_returned _ _ _ _ _
             (_delete_existing_snapshots_purges (event_id patch_event) AFTER w)).
  fold w1.
  rewrite (bind_returned _ _ w1 w1 before_snapshot) by done.
  rewrite (bind_returned _ _ w1 w1 before_vulns) by done.
  by destruct (_ || _).
Qed.

Lemma carry_branch_regenerates (patch_event : PatchEvent)
    (before_vulns : list Vulnerability) (lo hi : Z) (w w' : World)
    (o : Outcome ScanSnapshot) :
  1 ≤ lo ≤ hi →
  carry_branch patch_event before_vulns lo hi w = (o, w') →
  db w' = db w ∨ ∃ new, grown (event_id patch_event) AFTER new (db w) (db w').
Proof.
  intros Hclamp. unfold carry_branch.
  destruct (randint_returns lo hi w) as (k & w2 & Hk & Hdb2 & Hrange); [lia|].
  rewrite (bind_returned _ _ _ _ _ Hk).
  destruct (decide (k ≤ Z.of_nat (length before_vulns))) as [Hfit|Hbig].
  - destruct (sample_returns before_vulns k w2) as (rem & w3 & Hrem & Hdb3 & _); [lia|].
    rewrite (bind_returned _ _ _ _ _ Hrem).
    destruct (add_snapshot_and_rows
                (λ snapshot before_vuln v,
                   ∃ i, v = with_vulnerability_id i (carry_over snapshot before_vuln))
                (λ snapshot before_vuln, db_add (carry_over snapshot before_vuln))
                (event_id patch_event) AFTER rem w3)
      as (new & w4 & Hrun & Hgrown & _).
    { intros snap. apply carry_over_adds_one. }
    rewrite Hdb3, Hdb2 in Hgrown. rewrite Hrun. intros [= _ <-].
    right. by exists new.
  - rewrite (bind_raised _ _ _ _ _ (sample_raises before_vulns k w2 ltac:(lia))).
    intros [= _ <-]. by left.
Qed.

Lemma generate_after_snapshot_regenerates
    (patch_event : PatchEvent) (r1 r2 : float) (w w' : World)
    (o : Outcome ScanSnapshot) :
  generate_after_snapshot patch_event r1 r2 w = (o, w') →
  regenerated (event_id patch_event) AFTER (db w) (db w').
Proof.
  rewrite generate_after_snapshot_unfold. cbv zeta.
  set (w1 := with_db _ w). set (vulns := match head _ with Some _ => _ | None => _ end).
  unfold regenerated. destruct (_ || _).
  - destruct (add_and_populate patch_event AFTER 10 w1) as (new & w2 & Hrun & Hgrown & _).
    rewrite Hrun. intros [= _ <-]. right. by exists new.
  - destruct (remaining_bounds (Z.of_nat (length vulns)) r1 r2 w1)
      as [[[lo hi]|ex] w2] eqn:Hbounds.
    + destruct (remaining_bounds_clamped _ _ _ _ _ _ _ Hbounds) as [-> Hclamp].
      rewrite (bind_returned _ _ _ _ _ Hbounds). intros Hrun.
      destruct (carry_branch_regenerates _ _ _ _ _ _ _ Hclamp Hrun) as [Hdb|Hgrown].
      * left. by rewrite Hdb.
      * by right.
    + destruct (remaining_bounds_any_world _ _ _ _ _ _ Hbounds) as [-> _].
      rewrite (bind_raised _ _ _ _ _ Hbounds). intros [= _ <-]. by left.
Qed.

Section regenerated.
Variables (pid : Z) (ty : SnapshotType) (s s' : Session).
Hypothesis Hs : consistent s.
Hypothesis Hregen : regenerated pid ty s s'.

Lemma regenerated_consistent : consistent s'.
Proof.
  destruct Hregen as [->|[new Hgrown]].
  - by apply purge_consistent.
  - eapply grown_consistent; [exact Hgrown|]. by apply purge_consistent.
Qed.

Lemma regenerated_keeps_other_tag (pid' : Z) (ty' : SnapshotType) :
  (pid', ty') ≠ (pid, ty) →
  snapshots_of pid' ty' s' = snapshots_of pid' ty' s.
Proof.
  intros Hne. destruct Hregen as [->|[new Hgrown]].
  - by apply purge_keeps_other_tag.
  - rewrite (grown_keeps_other_tag _ _ _ _ _ Hgrown) by done.
    by apply purge_keeps_other_tag.
Qed.

Lemma regenerated_keeps_rows (b : ScanSnapshot) :
  b ∈ snapshots s →
  ¬ (patch_event_id b = pid ∧ snapshot_type b = ty) →
  vulnerabilities_of b s' = vulnerabilities_of b s.
Proof.
  intros Hb Hkey. destruct Hregen as [->|[new Hgrown]].
  - by apply purge_keeps_vulnerabilities.
  - rewrite (grown_keeps_rows _ _ _ _ _ Hgrown).
    + by apply purge_keeps_vulnerabilities.
    + simpl. destruct Hs as (_ & Hlt & _). rewrite Forall_forall in Hlt.
      by apply Hlt.
Qed.

End regenerated.

(** X15: both generators keep the session consistent, whatever they are
    given and however they end: after [generate_before_snapshot], and after
    [generate_after_snapshot] whether it returns or raises, snapshot keys
    are still unique and below the next key, and every vulnerability still
    refers to a key that was handed out. *)
Theorem generators_keep_session_consistent
    (patch_event : PatchEvent) (w : World) :
  consistent (db w) →
  (∀ count o w',
     generate_before_snapshot patch_event count w = (o, w') → consistent (db w'))
  ∧ (∀ r1 r2 o w',
       generate_after_snapshot patch_event r1 r2 w = (o, w') → consistent (db w')).
Proof.
  intros Hw. split.
  - intros count o w' Hrun.
    eapply regenerated_consistent; [exact Hw|].
    by eapply generate_before_snapshot_regenerates.
  - intros r1 r2 o w' Hrun.
    eapply regenerated_consistent; [exact Hw|].
    by eapply generate_after_snapshot_regenerates.
Qed.

Lemma generators_keep_session_consistent_witness :
  (∀ count o w',
     generate_before_snapshot an_event count twenty_before = (o, w') →
     consistent (db w'))
  ∧ (∀ r1 r2 o w',
       generate_after_snapshot an_event r1 r2 twenty_before = (o, w') →
       consistent (db w')).
Proof.
  apply (generators_keep_session_consistent an_event twenty_before).
  apply (bool_decide_unpack _). by vm_compute.
Defined.

(** X16: regenerating one tag of one event touches nothing else: on a
    consistent session, after [generate_before_snapshot] (or
    [generate_after_snapshot], however it ends) the snapshots of every other
    event and of the event's other tag are the same as before, each with the
    same vulnerabilities. *)
Theorem generators_touch_only_their_tag
    (patch_event : PatchEvent) (w : World) (pid' : Z) (ty' : SnapshotType) :
  consistent (db w) →
  (∀ count o w',
     (pid', ty') ≠ (event_id patch_event, BEFORE) →
     generate_before_snapshot patch_event count w = (o, w') →
     snapshots_of pid' ty' (db w') = snapshots_of pid' ty' (db w)
     ∧ ∀ b, b ∈ snapshots_of pid' ty' (db w) →
            vulnerabilities_of b (db w') = vulnerabilities_of b (db w))
  ∧ (∀ r1 r2 o w',
       (pid', ty') ≠ (event_id patch_event, AFTER) →
       generate_after_snapshot patch_event r1 r2 w = (o, w') →
       snapshots_of pid' ty' (db w') = snapshots_of pid' ty' (db w)
       ∧ ∀ b, b ∈ snapshots_of pid' ty' (db w) →
              vulnerabilities_of b (db w') = vulnerabilities_of b (db w)).
Proof.
  intros Hw.
  assert (∀ ty s', regenerated (event_id patch_event) ty (db w) s' →
                   (pid', ty') ≠ (event_id patch_event, ty) →
                   snapshots_of pid' ty' s' = snapshots_of pid' ty' (db w)
                   ∧ ∀ b, b ∈ snapshots_of pid' ty' (db w) →
                          vulnerabilities_of b s' = vulnerabilities_of b (db w))
    as Hframe.
  { intros ty s' Hregen Hne. split.
    - by eapply regenerated_keeps_other_tag.
    - intros b Hb. unfold snapshots_of in Hb.
      apply list_elem_of_filter in Hb as [[Hpid Hty] Hb].
      eapply regenerated_keeps_rows; [exact Hw|exact Hregen|exact Hb|].
      intros [? ?]. apply Hne. congruence. }
  split.
  - intros count o w' Hne Hrun. apply (Hframe BEFORE); [|done].
    by eapply generate_before_snapshot_regenerates.
  - intros r1 r2 o w' Hne Hrun. apply (Hframe AFTER); [|done].
    by eapply generate_after_snapshot_regenerates.
Qed.

Lemma generators_touch_only_their_tag_witness :
  (∀ count o w',
     (7, AFTER) ≠ (event_id an_event, BEFORE) →
     generate_before_snapshot an_event count twenty_before = (o, w') →
     snapshots_of 7 AFTER (db w') = snapshots_of 7 AFTER (db twenty_before)
     ∧ ∀ b, b ∈ snapshots_of 7 AFTER (db twenty_before) →
            vulnerabilities_of b (db w') = vulnerabilities_of b (db twenty_before))
  ∧ (∀ r1 r2 o w',
       (7, BEFORE) ≠ (event_id an_event, AFTER) →
       generate_after_snapshot an_event r1 r2 twenty_before = (o, w') →
       snapshots_of 7 BEFORE (db w') = snapshots_of 7 BEFORE (db twenty_before)
       ∧ ∀ b, b ∈ snapshots_of 7 BEFORE (db twenty_before) →
              vulnerabilities_of b (db w') = vulnerabilities_of b (db twenty_before)).
Proof.
  split.
  - apply (generators_touch_only_their_tag an_event twenty_before 7 AFTER).
    apply (bool_decide_unpack _). by vm_compute.
  - apply (generators_touch_only_their_tag an_event twenty_before 7 BEFORE).
    apply (bool_decide_unpack _). by vm_compute.
Defined.

(** *** The fallback of [generate_after_snapshot] *)

Lemma no_before_data_after_purge (patch_event : PatchEvent) (s : Session) :
  consistent s →
  no_before_data (event_id patch_event) s →
  no_before_data (event_id patch_event)
    (purge (snapshot_id <$> snapshots_of (event_id patch_event) AFTER s) s).
Proof.
  intros Hs. unfold no_before_data.
  rewrite (purge_keeps_other_tag (event_id patch_event) AFTER s Hs
             (event_id patch_event) BEFORE) by (intros [=]).
  destruct (head (snapshots_of (event_id patch_event) BEFORE s)) as [b|] eqn:Hhead;
    [|done].
  intros Hrows. rewrite <- Hrows.
  apply head_Some_elem_of in Hhead. unfold snapshots_of in Hhead.
  apply list_elem_of_filter in Hhead as [[_ Hty] Hb].
  apply purge_keeps_vulnerabilities; [done..|]. rewrite Hty. intros [_ [=]].
Qed.

Lemma generate_after_snapshot_falls_back
    (patch_event : PatchEvent) (r1 r2 : float) (w : World) :
  consistent (db w) →
  no_before_data (event_id patch_event) (db w) →
  ∃ a w' new,
    generate_after_snapshot patch_event r1 r2 w = (Returned a, w')
    ∧ snapshots_of (event_id patch_event) AFTER (db w') = [a]
    ∧ vulnerabilities_of a (db w') = new
    ∧ Forall2 (generated patch_event a) (seqZ 1 10) new
    ∧ snapshots_of (event_id patch_event) BEFORE (db w')
      = snapshots_of (event_id patch_event) BEFORE (db w).
Proof.
  intros Hw Hnone.
  pose proof (no_before_data_after_purge patch_event (db w) Hw Hnone) as Hnone1.
  rewrite generate_after_snapshot_unfold. cbv zeta.
  set (w1 := with_db _ w) in *.
  change (purge _ (db w)) with (db w1) in Hnone1. unfold no_before_data in Hnone1.
  assert (bool_decide (head (snapshots_of (event_id patch_event) BEFORE (db w1)) = None)
          || bool_decide
               (match head (snapshots_of (event_id patch_event) BEFORE (db w1)) with
                | Some b => vulnerabilities_of b (db w1)
                | None => []
                end = []) = true) as ->.
  { destruct (head (snapshots_of (event_id patch_event) BEFORE (db w1))); [|done].
    rewrite Hnone1. by rewrite orb_true_r. }
  destruct (add_and_populate patch_event AFTER 10 w1) as (new & w' & Hrun & Hgrown & Hnew).
  eexists _, w', new. split; [exact Hrun|].
  split; [|split; [|split; [exact Hnew|]]].
  - apply (grown_tag _ _ _ _ _ Hgrown).
    apply (purge_removes_tag (event_id patch_event) AFTER (db w)).
  - apply (grown_rows _ _ _ _ _ Hgrown). by apply purge_consistent.
  - rewrite (grown_keeps_other_tag _ _ _ _ _ Hgrown) by (intros [=]).
    apply purge_keeps_other_tag; [done|]. intros [=].
Qed.

(** X17: when the event has no BEFORE data (no BEFORE snapshot, or one
    without vulnerabilities), [generate_after_snapshot] never looks at the
    ratios: whatever they are, NaN included, and whatever the random draws,
    it returns the event's only AFTER snapshot, holding exactly the ten
    records that [_build_vulnerability] makes for it, with pairwise
    distinct keys. *)
Theorem fallback_generates_ten
    (patch_event : PatchEvent) (r1 r2 : float) (w : World) :
  consistent (db w) →
  no_before_data (event_id patch_event) (db w) →
  ∃ a w',
    generate_after_snapshot patch_event r1 r2 w = (Returned a, w')
    ∧ snapshots_of (event_id patch_event) AFTER (db w') = [a]
    ∧ length (vulnerabilities_of a (db w')) = 10%nat
    ∧ Forall2 (generated patch_event a) (seqZ 1 10) (vulnerabilities_of a (db w'))
    ∧ NoDup (ids (vulnerabilities_of a (db w'))).
Proof.
  intros Hw Hnone.
  destruct (generate_after_snapshot_falls_back patch_event r1 r2 w Hw Hnone)
    as (a & w' & new & Hrun & Htag & Hrows & Hnew & _).
  exists a, w'. rewrite Hrows. split; [done|]. split; [done|].
  split; [|split; [done|by eapply generated_keys_NoDup]].
  by rewrite <- (Forall2_length _ _ _ Hnew), length_seqZ.
Qed.

Lemma fallback_generates_ten_witness :
  ∃ a w',
    generate_after_snapshot an_event nan 0.5 (fresh_world [3; 1; 4; 1; 5; 9; 2; 6])
    = (Returned a, w')
    ∧ snapshots_of (event_id an_event) AFTER (db w') = [a]
    ∧ length (vulnerabilities_of a (db w')) = 10%nat
    ∧ Forall2 (generated an_event a) (seqZ 1 10) (vulnerabilities_of a (db w'))
    ∧ NoDup (ids (vulnerabilities_of a (db w'))).
Proof.
  apply (fallback_generates_ten an_event nan 0.5
           (fresh_world [3; 1; 4; 1; 5; 9; 2; 6])).
  - apply (bool_decide_unpack _). by vm_compute.
  - by vm_compute.
Defined.

(** X18: a BEFORE snapshot generated with a count of zero or less is empty,
    and [generate_after_snapshot] then takes the fallback: the two calls in
    a row leave the event with an empty BEFORE snapshot and an AFTER
    snapshot of ten fresh records, so nothing counts as fixed. *)
Theorem empty_before_then_after_falls_back
    (patch_event : PatchEvent) (count : Z) (r1 r2 : float) (w : World) :
  consistent (db w) →
  count ≤ 0 →
  ∃ b w1 a w2,
    generate_before_snapshot patch_event count w = (Returned b, w1)
    ∧ generate_after_snapshot patch_event r1 r2 w1 = (Returned a, w2)
    ∧ snapshots_of (event_id patch_event) BEFORE (db w2) = [b]
    ∧ vulnerabilities_of b (db w2) = []
    ∧ length (vulnerabilities_of a (db w2)) = 10%nat
    ∧ compute_fixed_vulnerabilities
        (vulnerabilities_of b (db w2)) (vulnerabilities_of a (db w2)) = [].
Proof.
  intros Hw Hcount.
  destruct (generate_before_snapshot_rows patch_event count w)
    as (new & w1 & Hrun1 & Hgrown1 & Hnew1).
  rewrite seqZ_nil in Hnew1 by done. apply Forall2_nil_inv_l in Hnew1 as ->.
  pose proof (purge_consistent (db w)
                (snapshot_id <$> snapshots_of (event_id patch_event) BEFORE (db w)) Hw)
    as Hpurged.
  pose proof (grown_consistent _ _ _ _ _ Hgrown1 Hpurged) as Hw1.
  pose proof (grown_tag _ _ _ _ _ Hgrown1
                (purge_removes_tag (event_id patch_event) BEFORE (db w))) as Htag1.
  pose proof (grown_rows _ _ _ _ _ Hgrown1 Hpurged) as Hrows1.
  simpl in Htag1, Hrows1.
  set (b := {| snapshot_id := next_snapshot_id (db w);
               patch_event_id := event_id patch_event;
               snapshot_type := BEFORE |}) in *.
  assert (no_before_data (event_id patch_event) (db w1)) as Hnone.
  { unfold no_before_data. by rewrite Htag1. }
  destruct (generate_after_snapshot_falls_back patch_event r1 r2 w1 Hw1 Hnone)
    as (a & w2 & new2 & Hrun2 & _ & Hrows2 & Hnew2 & Hbefore2).
  pose proof (generate_after_snapshot_regenerates _ _ _ _ _ _ Hrun2) as Hregen.
  assert (vulnerabilities_of b (db w2) = []) as Hb2.
  { rewrite (regenerated_keeps_rows _ _ _ _ Hw1 Hregen b); [done| |].
    - assert (b ∈ snapshots_of (event_id patch_event) BEFORE (db w1)) as Hin
        by (rewrite Htag1; by apply list_elem_of_singleton).
      unfold snapshots_of in Hin. apply list_elem_of_filter in Hin. tauto.
    - intros [_ [=]]. }
  exists b, w1, a, w2. split; [exact Hrun1|]. split; [exact Hrun2|].
  split; [by rewrite Hbefore2|]. split; [exact Hb2|]. split.
  - rewrite Hrows2, <- (Forall2_length _ _ _ Hnew2). by rewrite length_seqZ.
  - by rewrite Hb2.
Qed.

Lemma empty_before_then_after_falls_back_witness :
  ∃ b w1 a w2,
    generate_before_snapshot an_event 0 (fresh_world [2; 7; 1; 8]) = (Returned b, w1)
    ∧ generate_after_snapshot an_event 0.5 0.5 w1 = (Returned a, w2)
    ∧ snapshots_of (event_id an_event) BEFORE (db w2) = [b]
    ∧ vulnerabilities_of b (db w2) = []
    ∧ length (vulnerabilities_of a (db w2)) = 10%nat
    ∧ compute_fixed_vulnerabilities
        (vulnerabilities_of b (db w2)) (vulnerabilities_of a (db w2)) = [].
Proof.
  apply (empty_before_then_after_falls_back an_event 0 0.5 0.5
           (fresh_world [2; 7; 1; 8])).
  - apply (bool_decide_unpack _). by vm_compute.
  - lia.
Defined.

End GeneratorShapeFacts.

(** ** From generated snapshots to the evidence diff *)

Module PipelineFacts.
Import SyntheticData SyntheticDataSpec GeneratorShape SyntheticDataFacts.
Import Diff DiffSpec DiffParts DiffFacts DiffPartsFacts GeneratorShapeFacts.

Lemma same_record_keys (remaining new : list Vulnerability) :
  Forall2 same_record remaining new → ids new = ids remaining.
Proof.
  unfold ids. induction 1 as [|bv v remaining new (Hkey & _) _ IH]; [done|].
  by rewrite !fmap_cons, Hkey, IH.
Qed.

Lemma generate_after_snapshot_carried
    (patch_event : PatchEvent) (r1 r2 : float) (w : World)
    (b : ScanSnapshot) (lo hi : Z) :
  consistent (db w) →
  head (snapshots_of (event_id patch_event) BEFORE (db w)) = Some b →
  vulnerabilities_of b (db w) ≠ [] →
  (∀ w1, remaining_bounds (Z.of_nat (length (vulnerabilities_of b (db w)))) r1 r2 w1
         = (Returned (lo, hi), w1)) →
  hi ≤ Z.of_nat (length (vulnerabilities_of b (db w))) →
  ∃ a w',
    generate_after_snapshot patch_event r1 r2 w = (Returned a, w')
    ∧ snapshots_of (event_id patch_event) AFTER (db w') = [a]
    ∧ snapshots_of (event_id patch_event) BEFORE (db w')
      = snapshots_of (event_id patch_event) BEFORE (db w)
    ∧ vulnerabilities_of b (db w') = vulnerabilities_of b (db w)
    ∧ lo ≤ Z.of_nat (length (vulnerabilities_of a (db w'))) ≤ hi
    ∧ ids (vulnerabilities_of a (db w')) ⊆+ ids (vulnerabilities_of b (db w')).
Proof.
  intros Hw Hhead Hrows Hbounds Hhi.
  destruct (remaining_bounds_clamped _ _ _ _ _ _ _ (Hbounds w)) as [_ Hclamp].
  destruct (generate_after_snapshot_carries patch_event r1 r2 w b lo hi
              Hw Hhead Hrows (Hbounds _)) as (Hrun & Hsame & Hkept).
  set (w1 := with_db
               (purge (snapshot_id <$> snapshots_of (event_id patch_event) AFTER (db w)))
               w) in *.
  assert (consistent (db w1)) as Hw1 by (by apply purge_consistent).
  destruct (carry_branch_returns patch_event (vulnerabilities_of b (db w)) lo hi w1)
    as (rem & new & w' & Hrun' & Hgrown & Hcount & Hsub & Hrec); [lia|lia|lia|].
  pose proof (grown_rows _ _ _ _ _ Hgrown Hw1) as Hnew.
  assert (vulnerabilities_of b (db w') = vulnerabilities_of b (db w)) as Hb.
  { rewrite (grown_keeps_rows _ _ _ _ _ Hgrown); [exact Hkept|].
    apply head_Some_elem_of in Hhead. unfold snapshots_of in Hhead.
    apply list_elem_of_filter in Hhead as [_ Hin].
    destruct Hw as (_ & Hlt & _). rewrite Forall_forall in Hlt.
    exact (Hlt b Hin). }
  eexists _, w'. split; [rewrite Hrun; exact Hrun'|].
  rewrite Hnew, Hb. split; [|split; [|split; [done|split; [done|]]]].
  - apply (grown_tag _ _ _ _ _ Hgrown).
    apply (purge_removes_tag (event_id patch_event) AFTER (db w)).
  - rewrite (grown_keeps_other_tag _ _ _ _ _ Hgrown) by (intros [=]). exact Hsame.
  - rewrite (same_record_keys _ _ Hrec). unfold ids. by apply fmap_submseteq.
Qed.

Lemma before_then_after_of_twenty (patch_event : PatchEvent) (w : World) :
  consistent (db w) →
  ∃ b w1 a w2,
    generate_before_snapshot patch_event 20 w = (Returned b, w1)
    ∧ generate_after_snapshot patch_event
        default_min_remaining_ratio default_max_remaining_ratio w1 = (Returned a, w2)
    ∧ consistent (db w2)
    ∧ snapshots_of (event_id patch_event) BEFORE (db w1) = [b]
    ∧ snapshots_of (event_id patch_event) BEFORE (db w2) = [b]
    ∧ snapshots_of (event_id patch_event) AFTER (db w2) = [a]
    ∧ length (vulnerabilities_of b (db w2)) = 20%nat
    ∧ (6 ≤ length (vulnerabilities_of a (db w2)) ≤ 14)%nat
    ∧ NoDup (ids (vulnerabilities_of b (db w2)))
    ∧ ids (vulnerabilities_of a (db w2)) ⊆+ ids (vulnerabilities_of b (db w2)).
Proof.
  intros Hw.
  destruct (generate_before_snapshot_rows patch_event 20 w)
    as (new & w1 & Hrun1 & Hgrown1 & Hnew1).
  pose proof (purge_consistent (db w)
                (snapshot_id <$> snapshots_of (event_id patch_event) BEFORE (db w)) Hw)
    as Hpurged.
  pose proof (grown_consistent _ _ _ _ _ Hgrown1 Hpurged) as Hw1.
  pose proof (grown_tag _ _ _ _ _ Hgrown1
                (purge_removes_tag (event_id patch_event) BEFORE (db w))) as Htag1.
  pose proof (grown_rows _ _ _ _ _ Hgrown1 Hpurged) as Hrows1.
  simpl in Htag1, Hrows1.
  set (b := {| snapshot_id := next_snapshot_id (db w);
               patch_event_id := event_id patch_event;
               snapshot_type := BEFORE |}) in *.
  assert (length new = 20%nat) as Hlen
    by (by rewrite <- (Forall2_length _ _ _ Hnew1), length_seqZ).
  pose proof (generated_keys_NoDup _ _ _ _ Hnew1) as Hnodup.
  destruct (generate_after_snapshot_carried patch_event
              default_min_remaining_ratio default_max_remaining_ratio w1 b 6 14)
    as (a & w2 & Hrun2 & Htag2 & Hbefore2 & Hb2 & Hcount & Hsub); try done.
  - by rewrite Htag1.
  - rewrite Hrows1. intros Heq. by rewrite Heq in Hlen.
  - intros w'. rewrite Hrows1, Hlen. apply remaining_bounds_of_twenty.
  - rewrite Hrows1, Hlen. lia.
  - pose proof (generate_after_snapshot_regenerates _ _ _ _ _ _ Hrun2) as Hregen2.
    pose proof (regenerated_consistent _ _ _ _ Hw1 Hregen2) as Hw2.
    exists b, w1, a, w2. rewrite Hb2, Hrows1 in *.
    split; [done|]. split; [done|]. split; [done|]. split; [done|].
    split; [by rewrite Hbefore2|]. split; [done|]. split; [done|].
    split; [lia|]. by split.
Qed.

(** X19: generating a BEFORE snapshot of 20 records and then an AFTER
    snapshot with the default ratios, on a consistent session and whatever
    the random draws, always gives evidence that can be diffed: both
    snapshots are non-empty, the AFTER keys are BEFORE keys, the number of
    fixed records is 20 less the number of AFTER records, hence between 6
    and 14, and the histogram of the fixed records adds up to it. *)
Theorem before_after_diff_of_twenty (patch_event : PatchEvent) (w : World) :
  consistent (db w) →
  ∃ b w1 a w2,
    generate_before_snapshot patch_event 20 w = (Returned b, w1)
    ∧ generate_after_snapshot patch_event
        default_min_remaining_ratio default_max_remaining_ratio w1 = (Returned a, w2)
    ∧ snapshots_of (event_id patch_event) BEFORE (db w2) = [b]
    ∧ snapshots_of (event_id patch_event) AFTER (db w2) = [a]
    ∧ length (vulnerabilities_of b (db w2)) = 20%nat
    ∧ (6 ≤ length (vulnerabilities_of a (db w2)) ≤ 14)%nat
    ∧ (length (compute_fixed_vulnerabilities
                 (vulnerabilities_of b (db w2)) (vulnerabilities_of a (db w2)))
       + length (vulnerabilities_of a (db w2)) = 20)%nat
    ∧ sum_values
        (count_by_severity
           (compute_fixed_vulnerabilities
              (vulnerabilities_of b (db w2)) (vulnerabilities_of a (db w2))))
      = (20 - length (vulnerabilities_of a (db w2)))%nat.
Proof.
  intros Hw.
  destruct (before_then_after_of_twenty patch_event w Hw)
    as (b & w1 & a & w2 & Hrun1 & Hrun2 & _ & _ & Hbefore & Hafter & Hlen & Hcount
        & Hnodup & Hsub).
  pose proof (carried_over_count _ _ Hnodup Hsub) as Hfixed.
  exists b, w1, a, w2.
  split; [done|]. split; [done|]. split; [done|]. split; [done|].
  split; [done|]. split; [done|]. split; [lia|].
  rewrite count_by_severity_unfold, sum_values_four, occurrences_total, length_fmap.
  lia.
Qed.

Lemma before_after_diff_of_twenty_witness :
  ∃ b w1 a w2,
    generate_before_snapshot an_event 20 (fresh_world [5; 3; 5; 8; 9; 7; 9]) = (Returned b, w1)
    ∧ generate_after_snapshot an_event
        default_min_remaining_ratio default_max_remaining_ratio w1 = (Returned a, w2)
    ∧ snapshots_of (event_id an_event) BEFORE (db w2) = [b]
    ∧ snapshots_of (event_id an_event) AFTER (db w2) = [a]
    ∧ length (vulnerabilities_of b (db w2)) = 20%nat
    ∧ (6 ≤ length (vulnerabilities_of a (db w2)) ≤ 14)%nat
    ∧ (length (compute_fixed_vulnerabilities
                 (vulnerabilities_of b (db w2)) (vulnerabilities_of a (db w2)))
       + length (vulnerabilities_of a (db w2)) = 20)%nat
    ∧ sum_values
        (count_by_severity
           (compute_fixed_vulnerabilities
              (vulnerabilities_of b (db w2)) (vulnerabilities_of a (db w2))))
      = (20 - length (vulnerabilities_of a (db w2)))%nat.
Proof.
  apply (before_after_diff_of_twenty an_event (fresh_world [5; 3; 5; 8; 9; 7; 9])).
  apply (bool_decide_unpack _). by vm_compute.
Defined.

Lemma generated_key_of (patch_event : PatchEvent) (snapshot : ScanSnapshot)
    (indices : list Z) (new : list Vulnerability) (i : string) :
  Forall (λ index, 0 ≤ index) indices →
  Forall2 (generated patch_event snapshot) indices new →
  i ∈ ids new →
  ∃ index, 0 ≤ index
           ∧ i = "VULN-" +:+ format_d 4 (snapshot_id snapshot)
                 +:+ "-" +:+ format_d 4 index.
Proof.
  intros Hpos Hnew. rewrite (generated_keys _ _ _ _ Hnew).
  intros Hin. apply list_elem_of_fmap in Hin as (index & -> & Hindex).
  exists index. split; [|done]. rewrite Forall_forall in Hpos. by apply Hpos.
Qed.

Lemma seqZ_from_one_nonnegative (count : Z) : Forall (λ index, 0 ≤ index) (seqZ 1 count).
Proof. apply Forall_forall. intros i Hi. apply elem_of_seqZ in Hi. lia. Qed.

(** X20: regenerating the BEFORE snapshot while an AFTER snapshot carried
    over from the previous BEFORE snapshot is kept makes every new BEFORE
    record count as fixed: the stale AFTER snapshot is left as it was, its
    keys name the previous BEFORE snapshot, and no new key is among them. *)
Theorem regenerated_before_is_all_fixed
    (patch_event : PatchEvent) (count : Z) (w : World) :
  consistent (db w) →
  0 ≤ next_snapshot_id (db w) →
  ∃ b1 w1 a w2 b2 w3,
    generate_before_snapshot patch_event 20 w = (Returned b1, w1)
    ∧ generate_after_snapshot patch_event
        default_min_remaining_ratio default_max_remaining_ratio w1 = (Returned a, w2)
    ∧ generate_before_snapshot patch_event count w2 = (Returned b2, w3)
    ∧ snapshots_of (event_id patch_event) AFTER (db w3) = [a]
    ∧ vulnerabilities_of a (db w3) = vulnerabilities_of a (db w2)
    ∧ vulnerabilities_of a (db w3) ≠ []
    ∧ compute_fixed_vulnerabilities
        (vulnerabilities_of b2 (db w3)) (vulnerabilities_of a (db w3))
      = vulnerabilities_of b2 (db w3).
Proof.
  intros Hw Hnext.
  destruct (generate_before_snapshot_rows patch_event 20 w)
    as (new1 & w1 & Hrun1 & Hgrown1 & Hnew1).
  pose proof (purge_consistent (db w)
                (snapshot_id <$> snapshots_of (event_id patch_event) BEFORE (db w)) Hw)
    as Hpurged.
  pose proof (grown_consistent _ _ _ _ _ Hgrown1 Hpurged) as Hw1.
  pose proof (grown_tag _ _ _ _ _ Hgrown1
                (purge_removes_tag (event_id patch_event) BEFORE (db w))) as Htag1.
  pose proof (grown_rows _ _ _ _ _ Hgrown1 Hpurged) as Hrows1.
  simpl in Htag1, Hrows1.
  set (b1 := {| snapshot_id := next_snapshot_id (db w);
                patch_event_id := event_id patch_event;
                snapshot_type := BEFORE |}) in *.
  assert (length new1 = 20%nat) as Hlen
    by (by rewrite <- (Forall2_length _ _ _ Hnew1), length_seqZ).
  destruct (generate_after_snapshot_carried patch_event
              default_min_remaining_ratio default_max_remaining_ratio w1 b1 6 14)
    as (a & w2 & Hrun2 & Htag2 & Hbefore2 & Hb2 & Hcount & Hsub); try done.
  - by rewrite Htag1.
  - rewrite Hrows1. intros Heq. by rewrite Heq in Hlen.
  - intros w'. rewrite Hrows1, Hlen. apply remaining_bounds_of_twenty.
  - rewrite Hrows1, Hlen. lia.
  - rewrite Hb2, Hrows1 in Hsub.
    pose proof (generate_after_snapshot_regenerates _ _ _ _ _ _ Hrun2) as Hregen2.
    pose proof (regenerated_consistent _ _ _ _ Hw1 Hregen2) as Hw2.
    destruct (generate_before_snapshot_rows patch_event count w2)
      as (new2 & w3 & Hrun3 & Hgrown3 & Hnew3).
    pose proof (generate_before_snapshot_regenerates _ _ _ _ _ Hrun3) as Hregen3.
    pose proof (purge_consistent (db w2)
                  (snapshot_id <$> snapshots_of (event_id patch_event) BEFORE (db w2))
                  Hw2) as Hpurged2.
    pose proof (grown_rows _ _ _ _ _ Hgrown3 Hpurged2) as Hrows3.
    simpl in Hrows3.
    set (b2 := {| snapshot_id := next_snapshot_id (db w2);
                  patch_event_id := event_id patch_event;
                  snapshot_type := BEFORE |}) in *.
    assert (a ∈ snapshots (db w2) ∧ snapshot_type a = AFTER) as [Ha Hty].
    { assert (a ∈ snapshots_of (event_id patch_event) AFTER (db w2)) as Hin
        by (rewrite Htag2; by apply list_elem_of_singleton).
      unfold snapshots_of in Hin. apply list_elem_of_filter in Hin. tauto. }
    assert (snapshot_id b1 < next_snapshot_id (db w2)) as Hb1.
    { assert (b1 ∈ snapshots_of (event_id patch_event) BEFORE (db w2)) as Hin
        by (rewrite Hbefore2, Htag1; by apply list_elem_of_singleton).
      unfold snapshots_of in Hin. apply list_elem_of_filter in Hin as [_ Hin].
      destruct Hw2 as (_ & Hlt & _). rewrite Forall_forall in Hlt. by apply Hlt. }
    assert (vulnerabilities_of a (db w3) = vulnerabilities_of a (db w2)) as Hstale.
    { apply (regenerated_keeps_rows _ _ _ _ Hw2 Hregen3 a Ha).
      rewrite Hty. intros [_ [=]]. }
    exists b1, w1, a, w2, b2, w3.
    split; [done|]. split; [done|]. split; [done|]. split; [|split; [done|split]].
    + rewrite (regenerated_keeps_other_tag _ _ _ _ Hw2 Hregen3) by (intros [=]). done.
    + rewrite Hstale. intros Heq. rewrite Heq in Hcount. simpl in Hcount. lia.
    + rewrite Hstale, Hrows3, compute_fixed_as_list_filter.
      apply filter_keep_all, Forall_forall. intros v Hv Hin.
      assert (synthetic_id v ∈ ids new2) as Hkey2 by (by apply list_elem_of_fmap_2).
      destruct (generated_key_of _ _ _ _ _ (seqZ_from_one_nonnegative count) Hnew3 Hkey2)
        as (i2 & Hi2 & Heq2).
      pose proof (elem_of_submseteq _ _ _ Hin Hsub) as Hkey1.
      destruct (generated_key_of _ _ _ _ _ (seqZ_from_one_nonnegative 20) Hnew1 Hkey1)
        as (i1 & Hi1 & Heq1).
      rewrite Heq2 in Heq1. apply key_inj in Heq1 as [Hsid _]; simpl in *; lia.
Qed.

Lemma regenerated_before_is_all_fixed_witness :
  ∃ b1 w1 a w2 b2 w3,
    generate_before_snapshot an_event 20 (fresh_world [6; 2; 8; 3; 1]) = (Returned b1, w1)
    ∧ generate_after_snapshot an_event
        default_min_remaining_ratio default_max_remaining_ratio w1 = (Returned a, w2)
    ∧ generate_before_snapshot an_event 5 w2 = (Returned b2, w3)
    ∧ snapshots_of (event_id an_event) AFTER (db w3) = [a]
    ∧ vulnerabilities_of a (db w3) = vulnerabilities_of a (db w2)
    ∧ vulnerabilities_of a (db w3) ≠ []
    ∧ compute_fixed_vulnerabilities
        (vulnerabilities_of b2 (db w3)) (vulnerabilities_of a (db w3))
      = vulnerabilities_of b2 (db w3).
Proof.
  apply (regenerated_before_is_all_fixed an_event 5 (fresh_world [6; 2; 8; 3; 1])).
  - apply (bool_decide_unpack _). by vm_compute.
  - by vm_compute.
Defined.

End PipelineFacts.

(** ** Change-report text *)

Module CrTextFacts.
Import Diff DiffSpec DiffParts DiffFacts DiffPartsFacts CrText.
Import GeneratorShape GeneratorShapeFacts.

(** The count that the breakdown line prints for a severity. *)
Lemma _format_severity_counts_unfold (d : gmap Severity nat) :
  _format_severity_counts d
  = "Critical: " +:+ pretty (default 0%nat (d !! CRITICAL))
    +:+ ", High: " +:+ pretty (default 0%nat (d !! HIGH))
    +:+ ", Medium: " +:+ pretty (default 0%nat (d !! MEDIUM))
    +:+ ", Low: " +:+ pretty (default 0%nat (d !! LOW)).
Proof. reflexivity. Qed.

Lemma read_pretty_nat (n : nat) (rest : string) :
  read_number 0 (pretty n +:+ rest) = read_number (N.of_nat n) rest.
Proof. apply read_pretty_N. Qed.

Lemma pretty_nat_then_comma (a b : nat) (rest rest' : string) :
  pretty a +:+ ", " +:+ rest = pretty b +:+ ", " +:+ rest' →
  a = b ∧ rest = rest'.
Proof.
  intros Heq.
  assert (a = b) as <-.
  { pose proof (read_pretty_nat a (", " +:+ rest)) as Ha.
    rewrite Heq, read_pretty_nat in Ha. simpl in Ha. lia. }
  split; [done|]. by apply String.app_inj, (String.app_inj ", ") in Heq.
Qed.

(** X21: the breakdown line gives the four counts in the order Critical,
    High, Medium, Low, and a severity that the mapping lacks prints as 0;
    the line determines the four counts; and for the histogram of a list of
    records the four numbers printed add up to the number of records. *)
Theorem breakdown_line_gives_the_counts (d d' : gmap Severity nat)
    (vs : list Vulnerability) :
  _format_severity_counts ∅ = "Critical: 0, High: 0, Medium: 0, Low: 0"
  ∧ (_format_severity_counts d = _format_severity_counts d' →
     ∀ s, default 0%nat (d !! s) = default 0%nat (d' !! s))
  ∧ _format_severity_counts (count_by_severity vs)
    = "Critical: " +:+ pretty (length (of_severity CRITICAL vs))
      +:+ ", High: " +:+ pretty (length (of_severity HIGH vs))
      +:+ ", Medium: " +:+ pretty (length (of_severity MEDIUM vs))
      +:+ ", Low: " +:+ pretty (length (of_severity LOW vs))
  ∧ (length (of_severity CRITICAL vs) + length (of_severity HIGH vs)
     + length (of_severity MEDIUM vs) + length (of_severity LOW vs)
     = length vs)%nat.
Proof.
  split; [reflexivity|]. split; [|split].
  - rewrite !_format_severity_counts_unfold. intros Heq.
    apply (String.app_inj "Critical: ") in Heq.
    change (", High: " +:+ ?x) with (", " +:+ "High: " +:+ x) in Heq.
    apply pretty_nat_then_comma in Heq as [Hc Heq].
    apply (String.app_inj "High: ") in Heq.
    change (", Medium: " +:+ ?x) with (", " +:+ "Medium: " +:+ x) in Heq.
    apply pretty_nat_then_comma in Heq as [Hh Heq].
    apply (String.app_inj "Medium: ") in Heq.
    change (", Low: " +:+ ?x) with (", " +:+ "Low: " +:+ x) in Heq.
    apply pretty_nat_then_comma in Heq as [Hm Heq].
    apply (String.app_inj "Low: ") in Heq.
    apply (inj pretty) in Heq. by intros [].
  - by rewrite _format_severity_counts_unfold, !count_by_severity_lookup.
  - rewrite <- !occurrences_of_severity, occurrences_total. apply length_fmap.
Qed.

End CrTextFacts.

(** ** Handlers *)

Module RoutesFacts.
Import State StateSpec StateSteps StateFacts StateStepsFacts.
Import Diff DiffSpec DiffSplit DiffParts DiffFacts DiffPartsFacts.
Import SyntheticData SyntheticDataSpec SyntheticDataFacts.
Import GeneratorShape GeneratorShapeFacts PipelineFacts.
Import CrText Routes RoutesSpec.

(** *** Finding and writing the row of an event *)

Lemma find_patch_event_Some (patch_event_id : Z) (app : App) (r : PatchEventRow) :
  find_patch_event patch_event_id app = Some r →
  event_id (event r) = patch_event_id ∧ r ∈ patch_events app.
Proof.
  unfold find_patch_event. intros Hhead. apply head_Some_elem_of in Hhead.
  apply list_elem_of_filter in Hhead. tauto.
Qed.

Lemma find_after_commit (patch_event_id : Z) (app : App) (r r' : PatchEventRow) :
  find_patch_event patch_event_id app = Some r →
  event_id (event r') = patch_event_id →
  find_patch_event patch_event_id (commit_event r' app) = Some r'.
Proof.
  unfold find_patch_event, commit_event. simpl. intros Hfind Hid.
  induction (patch_events app) as [|x l IH]; [done|].
  rewrite fmap_cons. rewrite filter_cons in Hfind.
  destruct (decide (event_id (event x) = patch_event_id)) as [Hx|Hx].
  - rewrite decide_True by congruence. by rewrite filter_cons_True.
  - rewrite decide_False by congruence. rewrite filter_cons_False by done.
    by apply IH.
Qed.

Lemma find_other_after_commit (patch_event_id : Z) (app : App) (r' : PatchEventRow) :
  event_id (event r') ≠ patch_event_id →
  find_patch_event patch_event_id (commit_event r' app)
  = find_patch_event patch_event_id app.
Proof.
  unfold find_patch_event, commit_event. simpl. intros Hid. f_equal.
  induction (patch_events app) as [|x l IH]; [done|].
  rewrite fmap_cons, !filter_cons, IH.
  destruct (decide (event_id (event x) = event_id (event r'))) as [Hx|Hx].
  - rewrite decide_False by done. by rewrite decide_False by congruence.
  - done.
Qed.

Lemma split_snapshots_buckets (e : PatchEvent) (app : App) :
  split_snapshots e app = inr (bucket BEFORE e app, bucket AFTER e app).
Proof.
  unfold split_snapshots, bucket.
  destruct (extract_buckets (snapshots_loaded e app)) as [-> ->]. done.
Qed.

Lemma bucket_snapshots_of (ty : SnapshotType) (e : PatchEvent) (app : App) :
  bucket ty e app
  = concat ((λ s, vulnerabilities_of s (db (world app)))
            <$> snapshots_of (event_id e) ty (db (world app))).
Proof.
  unfold bucket, tagged, snapshots_loaded, snapshots_of.
  induction (snapshots (db (world app))) as [|x l IH]; [done|].
  rewrite !filter_cons.
  destruct (decide (patch_event_id x = event_id e)) as [Hpid|Hpid].
  - rewrite !fmap_cons, concat_cons, IH. simpl.
    destruct (decide (snapshot_type x = ty)) as [Hty|Hty].
    + by rewrite decide_True, fmap_cons, concat_cons by done.
    + rewrite decide_False; [done|]. tauto.
  - rewrite IH. rewrite decide_False; [done|]. tauto.
Qed.

(** X22: a handler given the key of no event answers 404 and leaves the
    application as it was; the detail page answers 404 too. *)
Theorem unknown_event_is_not_found (patch_event_id : Z) (target : string) (app : App) :
  find_patch_event patch_event_id app = None →
  generate_before patch_event_id app = (not_found, app)
  ∧ generate_after patch_event_id app = (not_found, app)
  ∧ compute_evidence patch_event_id app = (not_found, app)
  ∧ transition_state patch_event_id target app = (not_found, app)
  ∧ generate_stage_cr patch_event_id app = (not_found, app)
  ∧ generate_prod_cr patch_event_id app = (not_found, app)
  ∧ get_patch_event_detail patch_event_id app = inl not_found.
Proof.
  intros Hfind.
  unfold generate_before, generate_after, compute_evidence, transition_state,
    generate_stage_cr, generate_prod_cr, get_patch_event_detail.
  by rewrite Hfind.
Qed.

Lemma unknown_event_is_not_found_witness :
  generate_before 8 an_app = (not_found, an_app)
  ∧ generate_after 8 an_app = (not_found, an_app)
  ∧ compute_evidence 8 an_app = (not_found, an_app)
  ∧ transition_state 8 CLOSED an_app = (not_found, an_app)
  ∧ generate_stage_cr 8 an_app = (not_found, an_app)
  ∧ generate_prod_cr 8 an_app = (not_found, an_app)
  ∧ get_patch_event_detail 8 an_app = inl not_found.
Proof. apply (unknown_event_is_not_found 8 CLOSED an_app). reflexivity. Defined.

Lemma compute_evidence_cases (patch_event_id : Z) (app : App) (r : PatchEventRow) :
  find_patch_event patch_event_id app = Some r →
  compute_evidence patch_event_id app
  = if has_evidence_data (event r) app
    then (RedirectResponse "DEV evidence computed from synthetic snapshots.",
          commit_event (with_event (set_dev_evidence_available true (event r)) r) app)
    else (RedirectResponse
            ("Cannot compute fixed vulnerabilities: synthetic BEFORE and AFTER "
             +:+ "snapshots are required."), app).
Proof.
  intros Hfind. unfold compute_evidence, has_evidence_data.
  rewrite Hfind, split_snapshots_buckets.
  by destruct (bool_decide (bucket BEFORE (event r) app = [])),
              (bool_decide (bucket AFTER (event r) app = [])).
Qed.

(** X23: for an event that exists, [compute_evidence] never fails; it turns
    the evidence flag on exactly when the event has both BEFORE and AFTER
    vulnerabilities, and otherwise changes nothing: it never turns the flag
    off, and it never touches the lifecycle state, the summaries, the
    snapshots or another event. *)
Theorem compute_evidence_only_raises_the_flag
    (patch_event_id : Z) (app : App) (r : PatchEventRow) :
  find_patch_event patch_event_id app = Some r →
  ∃ message app' r',
    compute_evidence patch_event_id app = (RedirectResponse message, app')
    ∧ world app' = world app
    ∧ find_patch_event patch_event_id app' = Some r'
    ∧ dev_evidence_available (event r')
      = dev_evidence_available (event r) || has_evidence_data (event r) app
    ∧ current_state_code (event r') = current_state_code (event r)
    ∧ stage_cr_summary (event r') = stage_cr_summary (event r)
    ∧ prod_cr_summary (event r') = prod_cr_summary (event r)
    ∧ (has_evidence_data (event r) app = false → app' = app)
    ∧ ∀ other, other ≠ patch_event_id →
               find_patch_event other app' = find_patch_event other app.
Proof.
  intros Hfind. rewrite (compute_evidence_cases _ _ _ Hfind).
  destruct (find_patch_event_Some _ _ _ Hfind) as [Hid _].
  destruct (has_evidence_data (event r) app).
  - eexists _, _, _. split; [reflexivity|]. split; [done|]. split.
    { by apply (find_after_commit _ _ r). }
    simpl. rewrite orb_true_r. repeat split; try done.
    intros other Hother. apply find_other_after_commit. simpl. congruence.
  - eexists _, app, r. split; [reflexivity|]. rewrite orb_false_r. by repeat split.
Qed.

Lemma compute_evidence_only_raises_the_flag_witness :
  dev_evidence_available (event (the_row an_app_with_snapshots)) = false
  ∧ has_evidence_data (event (the_row an_app_with_snapshots)) an_app_with_snapshots = true
  ∧ ∃ message app' r',
      compute_evidence 7 an_app_with_snapshots = (RedirectResponse message, app')
      ∧ world app' = world an_app_with_snapshots
      ∧ find_patch_event 7 app' = Some r'
      ∧ dev_evidence_available (event r')
        = dev_evidence_available (event (the_row an_app_with_snapshots))
          || has_evidence_data (event (the_row an_app_with_snapshots))
               an_app_with_snapshots
      ∧ current_state_code (event r')
        = current_state_code (event (the_row an_app_with_snapshots))
      ∧ stage_cr_summary (event r')
        = stage_cr_summary (event (the_row an_app_with_snapshots))
      ∧ prod_cr_summary (event r')
        = prod_cr_summary (event (the_row an_app_with_snapshots))
      ∧ (has_evidence_data (event (the_row an_app_with_snapshots)) an_app_with_snapshots
         = false → app' = an_app_with_snapshots)
      ∧ ∀ other, other ≠ 7 →
                 find_patch_event other app'
                 = find_patch_event other an_app_with_snapshots.
Proof.
  split; [by vm_compute|]. split; [by vm_compute|].
  apply (compute_evidence_only_raises_the_flag 7 an_app_with_snapshots
           (the_row an_app_with_snapshots)).
  by vm_compute.
Defined.

(** *** The transition handler *)

Lemma transition_state_cases
    (patch_event_id : Z) (target : string) (app : App) (r : PatchEventRow) :
  find_patch_event patch_event_id app = Some r →
  transition_state patch_event_id target app
  = if bool_decide (target ∈ offered (event r))
    then (RedirectResponse ("State updated to " +:+ target +:+ "."),
          commit_event (with_event (set_current_state_code target (event r)) r) app)
    else (RedirectResponse
            (if bool_decide (target = CLOSED)
                && bool_decide (current_state_code (event r) ≠ Some PROD_PATCHED)
             then close_message
             else not_allowed_message (code (state_of (event r))) target), app).
Proof.
  intros Hfind. unfold transition_state.
  rewrite Hfind, transition_patch_event_cases.
  destruct (decide (target ∈ offered (event r))) as [Hin|Hout].
  - rewrite (bool_decide_eq_true_2 _ Hin).
    destruct (decide (target = CLOSED)) as [->|Hne].
    + rewrite (bool_decide_eq_false_2 (_ ≠ _)); [by rewrite andb_false_r|].
      intros Hne. apply Hne. by apply offered_closed_only_from_prod_patched.
    + by rewrite (bool_decide_eq_false_2 _ Hne).
  - rewrite (bool_decide_eq_false_2 _ Hout). by destruct (_ && _).
Qed.



(** *** The change-report handlers *)

Lemma cr_guard_has_evidence_data (e : PatchEvent) (app : App) :
  bool_decide (bucket BEFORE e app = []) || bool_decide (bucket AFTER e app = [])
  = negb (has_evidence_data e app).
Proof. unfold has_evidence_data. by rewrite negb_andb, !negb_involutive. Qed.

Lemma generate_stage_cr_cases (patch_event_id : Z) (app : App) (r : PatchEventRow) :
  find_patch_event patch_event_id app = Some r →
  generate_stage_cr patch_event_id app
  = if negb (dev_evidence_available (event r))
    then (RedirectResponse
            ("DEV evidence must be computed before generating a "
             +:+ "STAGE CR summary."), app)
    else if negb (has_evidence_data (event r) app)
    then (RedirectResponse
            ("Synthetic BEFORE and AFTER snapshots are required to build a "
             +:+ "STAGE CR summary."), app)
    else match service_name (event r) app with
         | None =>
             (InternalServerError
                (AttributeError "'NoneType' object has no attribute 'name'"), app)
         | Some service =>
             (RedirectResponse stage_done,
              commit_event
                (with_event
                   (set_stage_cr_summary
                      (build_stage_cr_text service (patch_date r) (event r)
                         (fixed_of (event r) app)
                         (count_by_severity (fixed_of (event r) app)))
                      (event r)) r) app)
         end.
Proof.
  intros Hfind. unfold generate_stage_cr.
  rewrite Hfind, split_snapshots_buckets, cr_guard_has_evidence_data. reflexivity.
Qed.

Lemma generate_prod_cr_cases (patch_event_id : Z) (app : App) (r : PatchEventRow) :
  find_patch_event patch_event_id app = Some r →
  generate_prod_cr patch_event_id app
  = if negb (in_prod_cr_allowed_states (current_state_code (event r)))
    then (RedirectResponse
            ("Patch event must be at least in STAGE_PATCHED state before "
             +:+ "generating a PROD CR summary."), app)
    else if negb (has_evidence_data (event r) app)
    then (RedirectResponse
            ("Synthetic BEFORE and AFTER snapshots are required to build a "
             +:+ "PROD CR summary."), app)
    else match service_name (event r) app with
         | None =>
             (InternalServerError
                (AttributeError "'NoneType' object has no attribute 'name'"), app)
         | Some service =>
             (RedirectResponse prod_done,
              commit_event
                (with_event
                   (set_prod_cr_summary
                      (build_prod_cr_text service (event r)
                         (fixed_of (event r) app)
                         (count_by_severity (fixed_of (event r) app)))
                      (event r)) r) app)
         end.
Proof.
  intros Hfind. unfold generate_prod_cr.
  rewrite Hfind, split_snapshots_buckets, cr_guard_has_evidence_data. reflexivity.
Qed.

Lemma in_prod_cr_allowed_states_rank (stored : option string) :
  in_prod_cr_allowed_states stored = true
  ↔ ∃ st, stored = Some (code st) ∧ (3 ≤ rank st)%nat.
Proof.
  unfold in_prod_cr_allowed_states, prod_cr_allowed_states. split.
  - destruct stored as [c|]; [|done]. intros Hin. apply bool_decide_eq_true_1 in Hin.
    rewrite !elem_of_union, !elem_of_singleton in Hin.
    destruct Hin as [[[->| ->]| ->]| ->];
      [ exists StagePatchedState | exists ProdCrReadyState
      | exists ProdPatchedState | exists ClosedState ]; simpl; by split; [|lia].
  - intros (st & -> & Hrank). apply bool_decide_eq_true_2.
    destruct st; simpl in Hrank; try lia; set_solver.
Qed.

(** X25: for an event that exists, the STAGE handler stores a summary exactly
    when the evidence flag is set, both buckets hold vulnerabilities and the
    event's service exists; in every other case the application is left as it
    was. *)
Theorem stage_cr_written_exactly_with_evidence
    (patch_event_id : Z) (app : App) (r : PatchEventRow) :
  find_patch_event patch_event_id app = Some r →
  ((generate_stage_cr patch_event_id app).1 = RedirectResponse stage_done
   ↔ dev_evidence_available (event r) = true
     ∧ has_evidence_data (event r) app = true
     ∧ is_Some (service_name (event r) app))
  ∧ ((generate_stage_cr patch_event_id app).1 ≠ RedirectResponse stage_done →
     (generate_stage_cr patch_event_id app).2 = app).
Proof.
  intros Hfind. rewrite (generate_stage_cr_cases _ _ _ Hfind).
  destruct (dev_evidence_available (event r)); simpl;
    [|split; [split; [discriminate|intros [? _]; discriminate]|done]].
  destruct (has_evidence_data (event r) app); simpl;
    [|split; [split; [discriminate|intros (_ & ? & _); discriminate]|done]].
  destruct (service_name (event r) app) as [service|]; simpl.
  - split; [|done]. split; [by eauto|done].
  - split; [|done]. split; [discriminate|]. intros (_ & _ & [? ?]). discriminate.
Qed.

Lemma stage_cr_written_exactly_with_evidence_witness :
  (generate_stage_cr 7 an_app_with_evidence).1 = RedirectResponse stage_done
  ∧ is_Some (stage_cr_summary (event (the_row (generate_stage_cr 7 an_app_with_evidence).2)))
  ∧ ((generate_stage_cr 7 an_app_with_evidence).1 = RedirectResponse stage_done
     ↔ dev_evidence_available (event (the_row an_app_with_evidence)) = true
       ∧ has_evidence_data (event (the_row an_app_with_evidence)) an_app_with_evidence
         = true
       ∧ is_Some (service_name (event (the_row an_app_with_evidence))
                    an_app_with_evidence))
  ∧ ((generate_stage_cr 7 an_app_with_evidence).1 ≠ RedirectResponse stage_done →
     (generate_stage_cr 7 an_app_with_evidence).2 = an_app_with_evidence).
Proof.
  split; [by vm_compute|]. split; [vm_compute; by eexists|].
  apply (stage_cr_written_exactly_with_evidence 7 an_app_with_evidence
           (the_row an_app_with_evidence)).
  by vm_compute.
Defined.

(** X26: for an event that exists, the PROD handler stores a summary exactly
    when the stored code is the code of a state from STAGE_PATCHED on, both
    buckets hold vulnerabilities and the event's service exists; the evidence
    flag is not read.  In every other case the application is left as it
    was. *)
Theorem prod_cr_written_exactly_from_stage_patched
    (patch_event_id : Z) (app : App) (r : PatchEventRow) :
  find_patch_event patch_event_id app = Some r →
  ((generate_prod_cr patch_event_id app).1 = RedirectResponse prod_done
   ↔ (∃ st, current_state_code (event r) = Some (code st) ∧ (3 ≤ rank st)%nat)
     ∧ has_evidence_data (event r) app = true
     ∧ is_Some (service_name (event r) app))
  ∧ ((generate_prod_cr patch_event_id app).1 ≠ RedirectResponse prod_done →
     (generate_prod_cr patch_event_id app).2 = app).
Proof.
  intros Hfind. rewrite (generate_prod_cr_cases _ _ _ Hfind).
  rewrite <- in_prod_cr_allowed_states_rank.
  destruct (in_prod_cr_allowed_states (current_state_code (event r))); simpl;
    [|split; [split; [discriminate|intros [? _]; discriminate]|done]].
  destruct (has_evidence_data (event r) app); simpl;
    [|split; [split; [discriminate|intros (_ & ? & _); discriminate]|done]].
  destruct (service_name (event r) app) as [service|]; simpl.
  - split; [|done]. split; [by eauto|done].
  - split; [|done]. split; [discriminate|]. intros (_ & _ & [? ?]). discriminate.
Qed.

Lemma prod_cr_written_exactly_from_stage_patched_witness :
  current_state_code (event (the_row a_stage_patched_app)) = Some STAGE_PATCHED
  ∧ (generate_prod_cr 7 a_stage_patched_app).1 = RedirectResponse prod_done
  ∧ is_Some (prod_cr_summary (event (the_row (generate_prod_cr 7 a_stage_patched_app).2)))
  ∧ ((generate_prod_cr 7 a_stage_patched_app).1 = RedirectResponse prod_done
     ↔ (∃ st, current_state_code (event (the_row a_stage_patched_app)) = Some (code st)
              ∧ (3 ≤ rank st)%nat)
       ∧ has_evidence_data (event (the_row a_stage_patched_app)) a_stage_patched_app
         = true
       ∧ is_Some (service_name (event (the_row a_stage_patched_app))
                    a_stage_patched_app))
  ∧ ((generate_prod_cr 7 a_stage_patched_app).1 ≠ RedirectResponse prod_done →
     (generate_prod_cr 7 a_stage_patched_app).2 = a_stage_patched_app).
Proof.
  split; [by vm_compute|]. split; [by vm_compute|].
  split; [vm_compute; by eexists|].
  apply (prod_cr_written_exactly_from_stage_patched 7 a_stage_patched_app
           (the_row a_stage_patched_app)).
  by vm_compute.
Defined.

Lemma commit_event_frame
    (patch_event_id : Z) (app : App) (r : PatchEventRow) (e' : PatchEvent) :
  find_patch_event patch_event_id app = Some r →
  event_id e' = event_id (event r) →
  find_patch_event patch_event_id (commit_event (with_event e' r) app)
  = Some (with_event e' r)
  ∧ ∀ other, other ≠ patch_event_id →
             find_patch_event other (commit_event (with_event e' r) app)
             = find_patch_event other app.
Proof.
  intros Hfind He'. destruct (find_patch_event_Some _ _ _ Hfind) as [Hid _]. split.
  - apply (find_after_commit _ _ r); [done|]. simpl. congruence.
  - intros other Hother. apply find_other_after_commit. simpl. congruence.
Qed.



(** *** The detail page *)

Lemma updated_message_is_no_refusal (target current : string) :
  "State updated to " +:+ target +:+ "." ≠ close_message
  ∧ "State updated to " +:+ target +:+ "." ≠ not_allowed_message current target.
Proof. split; intros H; discriminate H. Qed.

(** X28: the detail page of an event that exists is always computed; its
    counts are the sizes of the two buckets, the transitions it offers are
    exactly the targets that the transition handler accepts, and its PROD flag
    is the guard of the PROD handler.  Fixed vulnerabilities are shown only
    once the evidence flag is set and both buckets hold vulnerabilities. *)
Theorem detail_page_agrees_with_handlers
    (patch_event_id : Z) (app : App) (r : PatchEventRow) :
  find_patch_event patch_event_id app = Some r →
  ∃ ctx,
    get_patch_event_detail patch_event_id app = inr ctx
    ∧ before_count ctx = length (bucket BEFORE (event r) app)
    ∧ after_count ctx = length (bucket AFTER (event r) app)
    ∧ fixed_vulnerabilities ctx
      = (if dev_evidence_available (event r) && has_evidence_data (event r) app
         then fixed_of (event r) app else [])
    ∧ (∀ target,
         target ∈ allowed_next_states ctx
         ↔ (transition_state patch_event_id target app).1
           = RedirectResponse ("State updated to " +:+ target +:+ "."))
    ∧ prod_cr_allowed ctx = in_prod_cr_allowed_states (current_state_code (event r)).
Proof.
  intros Hfind. unfold get_patch_event_detail.
  rewrite Hfind, split_snapshots_buckets, get_state_for_event_state_of,
    allowed_transitions_offered.
  eexists. split; [reflexivity|]. simpl.
  split; [done|]. split; [done|]. split.
  { unfold has_evidence_data, fixed_of. by rewrite andb_assoc. }
  split; [|done].
  intros target. rewrite (transition_state_cases _ _ _ _ Hfind).
  destruct (decide (target ∈ offered (event r))) as [Hin|Hout].
  - by rewrite (bool_decide_eq_true_2 _ Hin).
  - rewrite (bool_decide_eq_false_2 _ Hout). simpl. split; [done|].
    destruct (updated_message_is_no_refusal target (code (state_of (event r))))
      as [Hclose Hnot].
    destruct (_ && _); intros [= Heq]; by rewrite Heq in *.
Qed.

Lemma detail_page_agrees_with_handlers_witness :
  ∃ ctx,
    get_patch_event_detail 7 an_app = inr ctx
    ∧ before_count ctx = length (bucket BEFORE (event a_row) an_app)
    ∧ after_count ctx = length (bucket AFTER (event a_row) an_app)
    ∧ fixed_vulnerabilities ctx
      = (if dev_evidence_available (event a_row) && has_evidence_data (event a_row) an_app
         then fixed_of (event a_row) an_app else [])
    ∧ (∀ target,
         target ∈ allowed_next_states ctx
         ↔ (transition_state 7 target an_app).1
           = RedirectResponse ("State updated to " +:+ target +:+ "."))
    ∧ prod_cr_allowed ctx = in_prod_cr_allowed_states (current_state_code (event a_row)).
Proof. apply (detail_page_agrees_with_handlers 7 an_app a_row). reflexivity. Defined.

(** *** The generator handlers *)

Lemma has_before_snapshot_iff (e : PatchEvent) (app : App) :
  Exists (λ s, snapshot_type (row s) = BEFORE) (snapshots_loaded e app)
  ↔ snapshots_of (event_id e) BEFORE (db (world app)) ≠ [].
Proof.
  unfold snapshots_loaded, snapshots_of. rewrite Exists_exists. split.
  - intros (x & Hx & Hty). apply list_elem_of_fmap in Hx as (s & -> & Hs).
    apply list_elem_of_filter in Hs as [Hpid Hin]. simpl in Hty.
    intros Hnil.
    assert (s ∈ filter (λ x, patch_event_id x = event_id e ∧ snapshot_type x = BEFORE)
                  (snapshots (db (world app)))) as Hs
      by (by apply list_elem_of_filter).
    rewrite Hnil in Hs. by apply not_elem_of_nil in Hs.
  - intros Hne.
    destruct (filter (λ x, patch_event_id x = event_id e ∧ snapshot_type x = BEFORE)
                (snapshots (db (world app)))) as [|s l] eqn:Hfilter; [done|].
    assert (s ∈ filter (λ x, patch_event_id x = event_id e ∧ snapshot_type x = BEFORE)
                  (snapshots (db (world app)))) as Hs
      by (rewrite Hfilter; apply list_elem_of_here).
    apply list_elem_of_filter in Hs as [[Hpid Hty] Hin].
    exists {| row := s;
              loaded_vulnerabilities := vulnerabilities_of s (db (world app)) |}.
    split; [|done].
    apply list_elem_of_fmap. exists s. split; [done|]. by apply list_elem_of_filter.
Qed.

Lemma bucket_of_one
    (ty : SnapshotType) (e : PatchEvent) (app : App) (x : ScanSnapshot) :
  snapshots_of (event_id e) ty (db (world app)) = [x] →
  bucket ty e app = vulnerabilities_of x (db (world app)).
Proof.
  intros Hone. rewrite bucket_snapshots_of, Hone. simpl. by rewrite app_nil_r.
Qed.

(** X29: on a consistent session, for an event that exists and whose service
    exists, the handlers of the demo flow succeed one after the other:
    BEFORE, AFTER, evidence, STAGE summary.  Afterwards the event has its
    evidence flag and a STAGE summary, its lifecycle state is the one it had,
    the BEFORE bucket holds 20 vulnerabilities, and between 6 and 14 of them
    are fixed, the others being the AFTER bucket. *)
Theorem demo_flow_reaches_stage_summary
    (patch_event_id : Z) (app : App) (r : PatchEventRow) :
  find_patch_event patch_event_id app = Some r →
  consistent (db (world app)) →
  is_Some (service_name (event r) app) →
  ∃ app1 app2 app3 app4 r4,
    generate_before patch_event_id app
    = (RedirectResponse "Synthetic BEFORE snapshot generated with vulnerabilities.", app1)
    ∧ generate_after patch_event_id app1
      = (RedirectResponse "Synthetic AFTER snapshot generated with vulnerabilities.", app2)
    ∧ compute_evidence patch_event_id app2
      = (RedirectResponse "DEV evidence computed from synthetic snapshots.", app3)
    ∧ generate_stage_cr patch_event_id app3 = (RedirectResponse stage_done, app4)
    ∧ find_patch_event patch_event_id app4 = Some r4
    ∧ dev_evidence_available (event r4) = true
    ∧ is_Some (stage_cr_summary (event r4))
    ∧ current_state_code (event r4) = current_state_code (event r)
    ∧ length (bucket BEFORE (event r4) app4) = 20%nat
    ∧ (length (fixed_of (event r4) app4) + length (bucket AFTER (event r4) app4)
       = 20)%nat
    ∧ (6 ≤ length (fixed_of (event r4) app4) ≤ 14)%nat.
Proof.
  intros Hfind Hw [service Hservice].
  destruct (find_patch_event_Some _ _ _ Hfind) as [Hid _].
  destruct (before_then_after_of_twenty (event r) (world app) Hw)
    as (b & w1 & a & w2 & Hrun1 & Hrun2 & Hw2 & Hb1 & Hb2 & Ha2 & Hlenb & Hlena
        & Hnd & Hsub).
  unfold default_min_remaining_ratio, default_max_remaining_ratio in Hrun2.
  set (app1 := with_world w1 app). set (app2 := with_world w2 app).
  set (e3 := set_dev_evidence_available true (event r)).
  set (app3 := commit_event (with_event e3 r) app2).
  assert (find_patch_event patch_event_id app2 = Some r) as Hfind2 by exact Hfind.
  destruct (commit_event_frame _ _ _ e3 Hfind2 eq_refl) as [Hfind3 _].
  fold app3 in Hfind3.
  assert (bucket BEFORE (event r) app2 = vulnerabilities_of b (db w2)) as Hbefore
    by (by apply bucket_of_one).
  assert (bucket AFTER (event r) app2 = vulnerabilities_of a (db w2)) as Hafter
    by (by apply bucket_of_one).
  assert (has_evidence_data (event r) app2 = true) as Hdata.
  { unfold has_evidence_data. rewrite Hbefore, Hafter.
    destruct (vulnerabilities_of b (db w2)); [simpl in Hlenb; lia|].
    destruct (vulnerabilities_of a (db w2)); [simpl in Hlena; lia|]. done. }
  set (text := build_stage_cr_text service (patch_date (with_event e3 r)) e3
                 (fixed_of e3 app3) (count_by_severity (fixed_of e3 app3))).
  set (e4 := set_stage_cr_summary text e3).
  destruct (commit_event_frame _ _ _ e4 Hfind3 eq_refl) as [Hfind4 _].
  eexists app1, app2, app3, _, _.
  split. { unfold generate_before. by rewrite Hfind, Hrun1. }
  split.
  { unfold generate_after.
    change (find_patch_event patch_event_id app1) with (find_patch_event patch_event_id app).
    rewrite Hfind. rewrite bool_decide_eq_true_2.
    - simpl. change (world app1) with w1. by rewrite Hrun2.
    - apply has_before_snapshot_iff. change (db (world app1)) with (db w1).
      by rewrite Hb1. }
  split. { by rewrite (compute_evidence_cases _ _ _ Hfind2), Hdata. }
  split.
  { rewrite (generate_stage_cr_cases _ _ _ Hfind3). simpl.
    change (has_evidence_data e3 app3) with (has_evidence_data (event r) app2).
    rewrite Hdata. simpl.
    change (service_name e3 app3) with (service_name (event r) app).
    rewrite Hservice. reflexivity. }
  split; [exact Hfind4|].
  split; [done|]. split; [by eexists|]. split; [done|].
  change (bucket BEFORE _ _) with (bucket BEFORE (event r) app2).
  change (bucket AFTER _ _) with (bucket AFTER (event r) app2).
  change (fixed_of _ _) with (fixed_of (event r) app2).
  unfold fixed_of. rewrite Hbefore, Hafter.
  pose proof (carried_over_count _ _ Hnd Hsub) as Hcount.
  split; [done|]. split; [lia|lia].
Qed.

Lemma demo_flow_reaches_stage_summary_witness :
  ∃ app1 app2 app3 app4 r4,
    generate_before 7 an_app
    = (RedirectResponse "Synthetic BEFORE snapshot generated with vulnerabilities.", app1)
    ∧ generate_after 7 app1
      = (RedirectResponse "Synthetic AFTER snapshot generated with vulnerabilities.", app2)
    ∧ compute_evidence 7 app2
      = (RedirectResponse "DEV evidence computed from synthetic snapshots.", app3)
    ∧ generate_stage_cr 7 app3 = (RedirectResponse stage_done, app4)
    ∧ find_patch_event 7 app4 = Some r4
    ∧ dev_evidence_available (event r4) = true
    ∧ is_Some (stage_cr_summary (event r4))
    ∧ current_state_code (event r4) = current_state_code (event a_row)
    ∧ length (bucket BEFORE (event r4) app4) = 20%nat
    ∧ (length (fixed_of (event r4) app4) + length (bucket AFTER (event r4) app4)
       = 20)%nat
    ∧ (6 ≤ length (fixed_of (event r4) app4) ≤ 14)%nat.
Proof.
  apply (demo_flow_reaches_stage_summary 7 an_app a_row).
  - reflexivity.
  - apply (bool_decide_unpack _). by vm_compute.
  - by eexists.
Defined.

(** X30: the AFTER handler asks for a BEFORE snapshot, not for BEFORE
    vulnerabilities.  Without a BEFORE snapshot it refuses and changes nothing;
    with one empty BEFORE snapshot it succeeds, the AFTER bucket gets the ten
    vulnerabilities of the fallback, and the evidence still cannot be
    computed. *)
Theorem after_handler_asks_for_snapshot_only
    (patch_event_id : Z) (app : App) (r : PatchEventRow) :
  find_patch_event patch_event_id app = Some r →
  consistent (db (world app)) →
  (snapshots_of patch_event_id BEFORE (db (world app)) = [] →
   generate_after patch_event_id app
   = (RedirectResponse "Generate BEFORE snapshot first for this event.", app))
  ∧ (∀ b,
       snapshots_of patch_event_id BEFORE (db (world app)) = [b] →
       vulnerabilities_of b (db (world app)) = [] →
       ∃ app',
         generate_after patch_event_id app
         = (RedirectResponse "Synthetic AFTER snapshot generated with vulnerabilities.",
            app')
         ∧ length (bucket AFTER (event r) app') = 10%nat
         ∧ bucket BEFORE (event r) app' = []
         ∧ compute_evidence patch_event_id app'
           = (RedirectResponse
                ("Cannot compute fixed vulnerabilities: synthetic BEFORE and AFTER "
                 +:+ "snapshots are required."), app')).
Proof.
  intros Hfind Hw.
  destruct (find_patch_event_Some _ _ _ Hfind) as [Hid _]. subst patch_event_id.
  split.
  - intros Hnone. unfold generate_after. rewrite Hfind.
    rewrite bool_decide_eq_false_2; [done|].
    rewrite has_before_snapshot_iff. tauto.
  - intros b Hone Hrows.
    assert (no_before_data (event_id (event r)) (db (world app))) as Hnodata
      by (unfold no_before_data; by rewrite Hone).
    destruct (generate_after_snapshot_falls_back (event r)
                0x1.3333333333333p-2 0x1.6666666666666p-1 (world app) Hw Hnodata)
      as (a & w' & new & Hrun & Htag & Hnew & Hgen & Hbefore).
    pose proof (generate_after_snapshot_regenerates _ _ _ _ _ _ Hrun) as Hregen.
    assert (b ∈ snapshots_of (event_id (event r)) BEFORE (db (world app))) as Hb
      by (rewrite Hone; apply list_elem_of_here).
    apply list_elem_of_filter in Hb as [[Hpid Hty] Hin].
    assert (vulnerabilities_of b (db w') = []) as Hrows'.
    { rewrite (regenerated_keeps_rows _ _ _ _ Hw Hregen b Hin); [done|].
      intros [_ Hafter]. congruence. }
    set (app' := with_world w' app).
    assert (bucket BEFORE (event r) app' = []) as Hbucket.
    { rewrite (bucket_of_one BEFORE (event r) app' b); [done|].
      change (db (world app')) with (db w'). by rewrite Hbefore. }
    exists app'. split.
    { unfold generate_after. rewrite Hfind. rewrite bool_decide_eq_true_2.
      - simpl. by rewrite Hrun.
      - apply has_before_snapshot_iff. by rewrite Hone. }
    split.
    { rewrite (bucket_of_one AFTER (event r) app' a) by done.
      change (db (world app')) with (db w'). rewrite Hnew.
      by rewrite <- (Forall2_length _ _ _ Hgen), length_seqZ. }
    split; [done|].
    assert (find_patch_event (event_id (event r)) app' = Some r) as Hfind' by exact Hfind.
    rewrite (compute_evidence_cases _ _ _ Hfind').
    unfold has_evidence_data. rewrite Hbucket. reflexivity.
Qed.

Lemma after_handler_asks_for_snapshot_only_witness :
  (snapshots_of 7 BEFORE (db (world an_app)) = []
   ∧ generate_after 7 an_app
     = (RedirectResponse "Generate BEFORE snapshot first for this event.", an_app))
  ∧ (snapshots_of 7 BEFORE (db (world an_app_with_empty_before)) = [the_before_snapshot]
     ∧ vulnerabilities_of the_before_snapshot (db (world an_app_with_empty_before)) = []
     ∧ ∃ app',
         generate_after 7 an_app_with_empty_before
         = (RedirectResponse "Synthetic AFTER snapshot generated with vulnerabilities.",
            app')
         ∧ length (bucket AFTER (event a_row) app') = 10%nat
         ∧ bucket BEFORE (event a_row) app' = []
         ∧ compute_evidence 7 app'
           = (RedirectResponse
                ("Cannot compute fixed vulnerabilities: synthetic BEFORE and AFTER "
                 +:+ "snapshots are required."), app')).
Proof.
  assert (consistent (db (world an_app))) as Hfresh
    by (apply (bool_decide_unpack _); by vm_compute).
  assert (consistent (db (world an_app_with_empty_before))) as Hempty
    by (apply (bool_decide_unpack _); by vm_compute).
  assert (snapshots_of 7 BEFORE (db (world an_app)) = []) as Hnone by reflexivity.
  assert (snapshots_of 7 BEFORE (db (world an_app_with_empty_before))
          = [the_before_snapshot]) as Hone by (by vm_compute).
  assert (vulnerabilities_of the_before_snapshot (db (world an_app_with_empty_before))
          = []) as Hrows by (by vm_compute).
  split.
  - split; [exact Hnone|].
    exact (proj1 (after_handler_asks_for_snapshot_only 7 an_app a_row eq_refl Hfresh)
             Hnone).
  - split; [exact Hone|]. split; [exact Hrows|].
    exact (proj2 (after_handler_asks_for_snapshot_only 7 an_app_with_empty_before a_row
                    eq_refl Hempty)
             the_before_snapshot Hone Hrows).
Defined.

End RoutesFacts.
